(** * becsy: component storage, bindings, world guards, planner

    A shallow embedding of the parts of the becsy ECS runtime found in
    [src/component.ts], [src/world.ts] and [src/planner.ts], and the
    properties of them that the specification states.

    Conventions.
    - JavaScript numbers that the code uses as integers (entity ids, slot
      indices, capacities) are [Z].
    - [undefined] is [None] of an [option]; a typed array read out of range
      gives [None], a typed array write out of range does nothing.
    - A thrown exception is the [Throw] case of [Res]; the state a method
      leaves behind when it throws is not observed.
    - Statements labelled [CHECK:] and [DEBUG:] in the source are ordinary
      labelled statements and are executed.
    - What these files call but do not contain (the buffer registry, the
      graph of the planner, the entity lifecycle, the coroutine engine) is
      modelled from the specification; each such definition says so. *)

From stdpp Require Import base numbers list option strings.
From Stdlib Require Import ZArith Lia.

Local Open Scope Z_scope.

(** ** Exceptions and results *)

Inductive Exn : Type :=
  | CheckError (msg : string)
  | InternalError (msg : string)
  | UserError (msg : string).

Inductive Res (A : Type) : Type :=
  | Ok (a : A)
  | Throw (e : Exn).
Arguments Ok {A} a.
Arguments Throw {A} e.

#[global] Instance Res_ret : MRet Res := fun A a => Ok a.

#[global] Instance Res_bind : MBind Res := fun A B k r =>
  match r with
  | Ok a => k a
  | Throw e => Throw e
  end.

#[global] Instance Res_fmap : FMap Res := fun A B f r =>
  match r with
  | Ok a => Ok (f a)
  | Throw e => Throw e
  end.

#[global] Instance Exn_eq_dec : EqDecision Exn.
Proof. solve_decision. Defined.

#[global] Instance Res_eq_dec {A} `{EqDecision A} : EqDecision (Res A).
Proof. solve_decision. Defined.

Definition is_Ok {A} (r : Res A) : bool :=
  match r with Ok _ => true | Throw _ => false end.

(** ** Typed arrays: Int8Array, Int16Array, Int32Array *)

Module TA.

Inductive ArrayType : Type := Int8Array | Int16Array | Int32Array.

#[global] Instance ArrayType_eq_dec : EqDecision ArrayType.
Proof. solve_decision. Defined.

Definition BYTES_PER_ELEMENT (t : ArrayType) : Z :=
  match t with
  | Int8Array => 1
  | Int16Array => 2
  | Int32Array => 4
  end.

(** Conversion of an integer to the element type: two's complement
    wrap-around to [8 * BYTES_PER_ELEMENT] bits. *)
Definition wrap (t : ArrayType) (v : Z) : Z :=
  let m := 2 ^ (8 * BYTES_PER_ELEMENT t) in
  (v + m / 2) `mod` m - m / 2.

Record t : Type := mk { ty : ArrayType; elems : list Z }.

Definition length (a : t) : Z := Z.of_nat (List.length (elems a)).

(** [a[i]]: [None] is [undefined]. *)
Definition get (a : t) (i : Z) : option Z :=
  if decide (0 <= i) then elems a !! Z.to_nat i else None.

(** [a[i] = v]: the value is converted to the element type; a store out
    of range is ignored. *)
Definition set (a : t) (i : Z) (v : Z) : t :=
  if decide (0 <= i)
  then mk (ty a) (<[Z.to_nat i := wrap (ty a) v]> (elems a))
  else a.

(** A header cell that always exists (see [PackedStorage.spares]). *)
Definition at_ (a : t) (i : Z) : Z := default 0 (get a i).

(** [ToNumber] followed by the integer conversion of a store:
    [undefined] becomes [NaN], which a typed array stores as 0. *)
Definition to_number (v : option Z) : Z := default 0 v.

End TA.

(** ** Buffers *)

(** Modelled from the spec: [Buffers.register] ([dispatcher.buffers] is not
    among the sources).  Registering a key again reallocates the buffer
    with the requested length and element type: the elements already there
    are kept (converted to the new element type), the new ones are set to
    the filler, 0 when none is given.  The [update] callback of the source
    receives the result. *)
Definition buffers_register
    (old : option TA.t) (len : Z) (ty : TA.ArrayType) (filler : Z) : TA.t :=
  let kept := match old with
              | Some a => map (TA.wrap ty) (TA.elems a)
              | None => []
              end in
  TA.mk ty (resize (Z.to_nat len) (TA.wrap ty filler) kept).

(** ** Bindings ([class Binding]) *)

Inductive ComponentStorage : Type := sparse | packed | compact.

#[global] Instance ComponentStorage_eq_dec : EqDecision ComponentStorage.
Proof. solve_decision. Defined.

(** View instances live on a heap.  [Object.create(master)] makes an object
    whose prototype is [master]; [__invalid] is an own property of the
    instance when it has been assigned, and is looked up along the
    prototype chain otherwise. *)
Abbreviation ObjId := nat (only parsing).

Record Obj : Type := mkObj {
  proto : option ObjId;
  own_invalid : option bool
}.

Abbreviation Heap := (list Obj) (only parsing).

Definition heap_alloc (h : Heap) (o : Obj) : ObjId * Heap :=
  (List.length h, h ++ [o]).

(** [o.__invalid = b] *)
Definition set_invalid (h : Heap) (o : ObjId) (b : bool) : Heap :=
  match h !! o with
  | Some ob => <[o := mkObj (proto ob) (Some b)]> h
  | None => h
  end.

(** [o.__invalid], read along the prototype chain; the fuel bounds the
    length of the chain, which is at most the size of the heap. *)
Fixpoint get_invalid_fuel (fuel : nat) (h : Heap) (o : ObjId) : option bool :=
  match fuel with
  | O => None
  | S fuel' =>
      match h !! o with
      | None => None
      | Some ob =>
          match own_invalid ob with
          | Some b => Some b
          | None =>
              match proto ob with
              | Some p => get_invalid_fuel fuel' h p
              | None => None
              end
          end
      end
  end.

Definition get_invalid (h : Heap) (o : ObjId) : option bool :=
  get_invalid_fuel (S (List.length h)) h o.

(** A view is valid when its [__invalid] is not truthy. *)
Definition valid_view (h : Heap) (o : ObjId) : bool :=
  match get_invalid h o with
  | Some true => false
  | _ => true
  end.

Record Binding : Type := mkBinding {
  readonlyMaster : ObjId;
  writableMaster : ObjId;
  readonlyInstance : ObjId;
  writableInstance : ObjId;
  writableEntityId : Z;
  writableIndex : option Z;
  readonlyEntityId : Z;
  readonlyIndex : option Z;
  capacity : Z;
  storage : ComponentStorage;
  elastic : bool
}.

(** Field updates of a binding. *)
Definition with_capacity (b : Binding) (c : Z) : Binding :=
  mkBinding (readonlyMaster b) (writableMaster b) (readonlyInstance b)
    (writableInstance b) (writableEntityId b) (writableIndex b)
    (readonlyEntityId b) (readonlyIndex b) c (storage b) (elastic b).

Definition with_writable (b : Binding) (inst : ObjId) (entityId : Z)
    (index : option Z) : Binding :=
  mkBinding (readonlyMaster b) (writableMaster b) (readonlyInstance b)
    inst entityId index (readonlyEntityId b) (readonlyIndex b)
    (capacity b) (storage b) (elastic b).

Definition with_readonly (b : Binding) (inst : ObjId) (entityId : Z)
    (index : option Z) : Binding :=
  mkBinding (readonlyMaster b) (writableMaster b) inst
    (writableInstance b) (writableEntityId b) (writableIndex b)
    entityId index (capacity b) (storage b) (elastic b).

(** [new Binding(type, fields, shapeSpec, dispatcher, capacity, storage,
    elastic)], the part that concerns the view instances: both masters are
    [new type()], both instances are created from their master and get
    [__invalid = !elastic && capacity > 1]. *)
Definition new_Binding (h : Heap) (capacity : Z) (storage : ComponentStorage)
    (elastic : bool) : Binding * Heap :=
  let '(rm, h) := heap_alloc h (mkObj None None) in
  let '(wm, h) := heap_alloc h (mkObj None None) in
  let '(ri, h) := heap_alloc h (mkObj (Some rm) None) in
  let h := set_invalid h ri (negb elastic && (1 <? capacity)) in
  let '(wi, h) := heap_alloc h (mkObj (Some wm) None) in
  let h := set_invalid h wi (negb elastic && (1 <? capacity)) in
  (mkBinding rm wm ri wi 0 (Some 0) 0 (Some 0) capacity storage elastic, h).

Definition unacquired : Exn :=
  InternalError "Attempt to bind unacquired entity".

Definition resetWritableInstance (b : Binding) (h : Heap) (entityId : Z)
    (index : option Z) : Res (ObjId * Binding * Heap) :=
  if bool_decide (index = Some (-1)) then Throw unacquired
  else
    let b := with_writable b (writableInstance b) entityId index in
    if elastic b || (1 <? capacity b)
    then
      let h := set_invalid h (writableInstance b) true in
      let '(fresh, h) := heap_alloc h (mkObj (Some (writableMaster b)) None) in
      Ok (fresh, with_writable b fresh entityId index, h)
    else Ok (writableInstance b, b, h).

Definition resetReadonlyInstance (b : Binding) (h : Heap) (entityId : Z)
    (index : option Z) : Res (ObjId * Binding * Heap) :=
  if bool_decide (index = Some (-1)) then Throw unacquired
  else
    let b := with_readonly b (readonlyInstance b) entityId index in
    if elastic b || (1 <? capacity b)
    then
      let h := set_invalid h (readonlyInstance b) true in
      let '(fresh, h) := heap_alloc h (mkObj (Some (readonlyMaster b)) None) in
      Ok (fresh, with_readonly b fresh entityId index, h)
    else Ok (readonlyInstance b, b, h).

(** ** Packed storage ([class PackedStorage]) *)

(** [index] has one cell per entity id and holds the slot of the entity or
    -1.  [spares] has the layout
    [bytesPerElement, nextIndex, capacity, numSpares, ...spareIndices].
    [binding.capacity] is the one field of the binding that the storage
    writes, [binding.elastic] the one it reads besides. *)
Record PackedStorage : Type := mkPacked {
  p_maxEntities : Z;
  p_capacity : Z;
  p_elastic : bool;
  p_index : TA.t;
  p_spares : TA.t
}.

(** [get ArrayType()], from [spares[2]] (0 when there are no spares yet)
    and [binding.capacity]. *)
Definition ArrayType_of (spares2 : Z) (bindingCapacity : Z) : TA.ArrayType :=
  let capacity := Z.max spares2 bindingCapacity in
  if capacity <? Z.shiftl 1 7 then TA.Int8Array
  else if capacity <? Z.shiftl 1 15 then TA.Int16Array
  else TA.Int32Array.

Definition p_ArrayType (s : PackedStorage) : TA.ArrayType :=
  ArrayType_of (TA.at_ (p_spares s) 2) (p_capacity s).

(** [updateSpares(spares)]: [oldSpares2] is [this.spares?.[2] ?? 0], read by
    the [ArrayType] getter before [this.spares] is replaced. *)
Definition updateSpares (oldSpares2 : Z) (bindingCapacity : Z) (spares : TA.t)
    : Z * TA.t :=
  let c := Z.max bindingCapacity (TA.at_ spares 2) in
  let spares := TA.set spares 2 c in
  let spares :=
    TA.set spares 0 (TA.BYTES_PER_ELEMENT (ArrayType_of oldSpares2 c)) in
  (c, spares).

Definition p_growSpares (s : PackedStorage) : PackedStorage :=
  let maxSpares :=
    Z.min (p_maxEntities s) ((TA.length (p_spares s) - 4) * 2) in
  let registered :=
    buffers_register (Some (p_spares s)) (4 + maxSpares) (p_ArrayType s) 0 in
  let '(c, spares) :=
    updateSpares (TA.at_ (p_spares s) 2) (p_capacity s) registered in
  mkPacked (p_maxEntities s) c (p_elastic s) (p_index s) spares.

(** [growCapacity()] on a constructed storage ([this.index] exists).  The
    field buffers that [field.updateBuffer] reallocates for an elastic
    binding are outside this record. *)
Definition p_growCapacity (s : PackedStorage) : PackedStorage :=
  let capacity := p_capacity s in
  let AT := p_ArrayType s in
  let elementSizeChanged :=
    negb (TA.BYTES_PER_ELEMENT AT =? TA.at_ (p_spares s) 0) in
  if elementSizeChanged
  then
    let index :=
      buffers_register (Some (p_index s)) (p_maxEntities s) AT (-1) in
    let registered :=
      buffers_register (Some (p_spares s)) (TA.length (p_spares s)) AT 0 in
    let '(c, spares) :=
      updateSpares (TA.at_ (p_spares s) 2) capacity registered in
    mkPacked (p_maxEntities s) c (p_elastic s) index spares
  else
    mkPacked (p_maxEntities s) capacity (p_elastic s) (p_index s)
      (TA.set (p_spares s) 2 capacity).

(** [new PackedStorage(maxEntities, binding, fields)]: [growSpares()] with
    no spares yet (8 spare cells, zero filled), then [growCapacity()] with
    no index yet (one cell per entity, filled with -1). *)
Definition new_PackedStorage (maxEntities : Z) (bindingCapacity : Z)
    (elastic : bool) : PackedStorage :=
  let AT0 := ArrayType_of 0 bindingCapacity in
  let '(c, spares) :=
    updateSpares 0 bindingCapacity (buffers_register None (4 + 8) AT0 0) in
  let AT := ArrayType_of (TA.at_ spares 2) c in
  let index := buffers_register None maxEntities AT (-1) in
  let elementSizeChanged :=
    negb (TA.BYTES_PER_ELEMENT AT =? TA.at_ spares 0) in
  if elementSizeChanged
  then
    let registered := buffers_register (Some spares) (TA.length spares) AT 0 in
    let '(c, spares) := updateSpares (TA.at_ spares 2) c registered in
    mkPacked maxEntities c elastic index spares
  else mkPacked maxEntities c elastic index (TA.set spares 2 c).

Definition storage_exhausted : Exn := CheckError "Storage exhausted for component".
Definition grow_beyond_max : Exn :=
  InternalError "Trying to grow storage index for component beyond maxEntities".
Definition not_allocated : Exn :=
  InternalError "Index for entity in component not allocated".

Definition p_acquireIndex (s : PackedStorage) (id : Z)
    : Res (option Z * PackedStorage) :=
  let index := TA.get (p_index s) id in
  if bool_decide (index = Some (-1))
  then
    if 0 <? TA.at_ (p_spares s) 3
    then
      (* index = this.spares[--this.spares[3] + 4] *)
      let n := TA.at_ (p_spares s) 3 - 1 in
      let spares := TA.set (p_spares s) 3 n in
      let index := TA.get spares (n + 4) in
      Ok (index,
          mkPacked (p_maxEntities s) (p_capacity s) (p_elastic s)
            (TA.set (p_index s) id (TA.to_number index)) spares)
    else
      s1 ←
        (if TA.at_ (p_spares s) 1 =? TA.at_ (p_spares s) 2
         then
           if negb (p_elastic s) then Throw storage_exhausted
           else if p_capacity s =? p_maxEntities s then Throw grow_beyond_max
           else
             Ok (p_growCapacity
                   (mkPacked (p_maxEntities s)
                      (Z.min (p_maxEntities s) (p_capacity s * 2))
                      (p_elastic s) (p_index s) (p_spares s)))
         else Ok s);
      (* index = this.spares[1]++ *)
      let index := TA.at_ (p_spares s1) 1 in
      let spares := TA.set (p_spares s1) 1 (index + 1) in
      Ok (Some index,
          mkPacked (p_maxEntities s1) (p_capacity s1) (p_elastic s1)
            (TA.set (p_index s1) id index) spares)
  else Ok (index, s).

Definition p_releaseIndex (s : PackedStorage) (id : Z) : Res PackedStorage :=
  if bool_decide (TA.get (p_index s) id = Some (-1)) then Throw not_allocated
  else
    let s :=
      if TA.at_ (p_spares s) 3 =? TA.length (p_spares s) - 4
      then p_growSpares s else s in
    (* this.spares[this.spares[3]++ + 4] = this.index[id] *)
    let n := TA.at_ (p_spares s) 3 in
    let spares := TA.set (p_spares s) 3 (n + 1) in
    let spares := TA.set spares (n + 4) (TA.to_number (TA.get (p_index s) id)) in
    Ok (mkPacked (p_maxEntities s) (p_capacity s) (p_elastic s)
          (TA.set (p_index s) id (-1)) spares).

(** ** Compact storage ([class CompactStorage]) *)

(** [index] is an [Int32Array] with one cell per slot, holding the id of the
    entity in the slot or -1. *)
Record CompactStorage : Type := mkCompact {
  c_maxEntities : Z;
  c_capacity : Z;
  c_elastic : bool;
  c_index : TA.t
}.

(** The loop of [findIndex], from cell [i] on. *)
Fixpoint findIndex_from (cells : list Z) (i : Z) (id : Z) : Z :=
  match cells with
  | [] => -1
  | x :: rest => if x =? id then i else findIndex_from rest (i + 1) id
  end.

Definition c_findIndex (s : CompactStorage) (id : Z) : Z :=
  findIndex_from (TA.elems (c_index s)) 0 id.

(** The loop of [acquireIndex], from cell [i] on: [inl i] is the early
    [return i], [inr firstEmpty] the value of [firstEmpty] after the loop. *)
Fixpoint acquire_scan (cells : list Z) (i : Z) (id : Z)
    (firstEmpty : option Z) : Z + option Z :=
  match cells with
  | [] => inr firstEmpty
  | x :: rest =>
      if x =? id then inl i
      else
        acquire_scan rest (i + 1) id
          (match firstEmpty with
           | None => if x =? -1 then Some i else None
           | Some _ => firstEmpty
           end)
  end.

(** [growCapacity()] followed by its callback [updateIndex]. *)
Definition c_growCapacity (s : CompactStorage) : CompactStorage :=
  let index :=
    buffers_register (Some (c_index s)) (c_capacity s) TA.Int32Array (-1) in
  mkCompact (c_maxEntities s) (TA.length index) (c_elastic s) index.

Definition new_CompactStorage (maxEntities : Z) (bindingCapacity : Z)
    (elastic : bool) : CompactStorage :=
  let index := buffers_register None bindingCapacity TA.Int32Array (-1) in
  mkCompact maxEntities (TA.length index) elastic index.

Definition c_acquireIndex (s : CompactStorage) (id : Z)
    : Res (Z * CompactStorage) :=
  match acquire_scan (TA.elems (c_index s)) 0 id None with
  | inl i => Ok (i, s)
  | inr (Some firstEmpty) =>
      Ok (firstEmpty,
          mkCompact (c_maxEntities s) (c_capacity s) (c_elastic s)
            (TA.set (c_index s) firstEmpty id))
  | inr None =>
      if negb (c_elastic s) then Throw storage_exhausted
      else if c_capacity s =? c_maxEntities s then Throw grow_beyond_max
      else
        let firstEmpty := TA.length (c_index s) in
        let s :=
          c_growCapacity
            (mkCompact (c_maxEntities s)
               (Z.min (c_maxEntities s) (c_capacity s * 2))
               (c_elastic s) (c_index s)) in
        Ok (firstEmpty,
            mkCompact (c_maxEntities s) (c_capacity s) (c_elastic s)
              (TA.set (c_index s) firstEmpty id))
  end.

Definition c_releaseIndex (s : CompactStorage) (id : Z) : Res CompactStorage :=
  let i := c_findIndex s id in
  if i =? -1 then Throw not_allocated
  else
    Ok (mkCompact (c_maxEntities s) (c_capacity s) (c_elastic s)
          (TA.set (c_index s) i (-1))).

(** ** Registration of component types *)

(** The environment the [CHECK:] blocks look at: [process] is [None] when
    [typeof process === 'undefined'], and [NODE_ENV] is
    [process.env.NODE_ENV]. *)
Record Process : Type := mkProcess { NODE_ENV : option string }.

Definition not_test_mode (process : option Process) : bool :=
  match process with
  | None => true
  | Some pr => negb (bool_decide (NODE_ENV pr = Some "test"%string))
  end.

(** A schema entry, reduced to what registration reads: the property name
    and the [shared] flag of its [Type]. *)
Record SchemaEntry : Type := mkEntry { e_name : string; e_shared : bool }.

Record Field : Type := mkField { f_name : string; f_seq : Z; f_shared : bool }.

Record ComponentOptions : Type := mkOptions {
  o_storage : option ComponentStorage;
  o_capacity : option Z;
  o_initialCapacity : option Z;
  o_restrictedToMainThread : bool
}.

(** [has_bind] tells whether [type.__bind] is set, that is whether the type
    is in use in a world. *)
Record ComponentType : Type := mkType {
  schema : option (list SchemaEntry);
  options : option ComponentOptions;
  has_bind : bool
}.

Record DispatcherConfig : Type := mkConfig {
  defaultComponentStorage : ComponentStorage;
  maxEntities : Z
}.

(** Modelled from the spec: [MAX_NUM_FIELDS] ([consts] is not among the
    sources); "at most MAX_NUM_FIELDS (typically 64) fields per component". *)
Definition MAX_NUM_FIELDS : Z := 64.

Fixpoint gather_from (entries : list SchemaEntry) (seq : Z) : list Field :=
  match entries with
  | [] => []
  | e :: rest => mkField (e_name e) seq (e_shared e) :: gather_from rest (seq + 1)
  end.

Definition gatherFields (type : ComponentType) : Res (list Field) :=
  match schema type with
  | None => Ok []
  | Some entries =>
      if MAX_NUM_FIELDS <? Z.of_nat (List.length entries)
      then Throw (CheckError "Component declares too many fields")
      else Ok (gather_from entries 0)
  end.

(** [type.options?.x] for the three optional numbers and the storage. *)
Definition opt_storage (type : ComponentType) : option ComponentStorage :=
  o ← options type; o_storage o.
Definition opt_capacity (type : ComponentType) : option Z :=
  o ← options type; o_capacity o.
Definition opt_initialCapacity (type : ComponentType) : option Z :=
  o ← options type; o_initialCapacity o.
Definition opt_restricted (type : ComponentType) : bool :=
  match options type with Some o => o_restrictedToMainThread o | None => false end.

(** The storage that registration selects: the first statement of
    [assimilateComponentType] after [gatherFields]. *)
Definition selected_storage (fields : list Field) (type : ComponentType)
    (dispatcher : DispatcherConfig) : ComponentStorage :=
  if bool_decide (List.length fields = 0%nat) then sparse
  else default (defaultComponentStorage dispatcher) (opt_storage type).

Definition assimilateComponentType (type : ComponentType)
    (dispatcher : DispatcherConfig) (process : option Process) (h : Heap)
    : Res (Binding * Heap) :=
  fields ← gatherFields type;
  let storage := selected_storage fields type dispatcher in
  let capacity :=
    if bool_decide (storage = sparse) then maxEntities dispatcher
    else Z.min (maxEntities dispatcher) (default 0 (opt_capacity type)) in
  let initialCapacity := default 8 (opt_initialCapacity type) in
  _ ← match opt_capacity type with
      | Some c =>
          if bool_decide (storage = sparse)
          then Throw (CheckError "cannot combine custom capacity with sparse storage")
          else if c <=? 0
          then Throw (CheckError "capacity option must be great than zero")
          else if bool_decide (is_Some (opt_initialCapacity type))
          then Throw (CheckError "cannot have both capacity and initialCapacity options")
          else Ok tt
      | None => Ok tt
      end;
  _ ← (if opt_restricted type && forallb f_shared fields
       then Throw (CheckError "is restrictedToMainThread but has no thread-exclusive fields")
       else Ok tt);
  _ ← (if not_test_mode process && has_bind type
       then Throw (CheckError "is already in use in another world")
       else Ok tt);
  Ok (new_Binding h (if capacity =? 0 then initialCapacity else capacity)
        storage (capacity =? 0)).

(** ** Allocation of component types ([defineAndAllocateComponentType]) *)

(** The storage manager that the [switch] creates; sparse storage has
    none ("inline the trivial storage manager"). *)
Inductive StorageManager : Type :=
  | NoManager
  | PackedManager (s : PackedStorage)
  | CompactManager (s : CompactStorage).

(** A registered type: its binding and the storage manager its
    [__bind], [__allocate] and [__free] closures capture.  The manager
    works on [binding.capacity]; its value is written back to the binding
    after each call. *)
Record TypeRuntime : Type := mkRuntime {
  rt_binding : Binding;
  rt_manager : StorageManager
}.

Definition defineAndAllocateComponentType (binding : Binding)
    (dispatcherMaxEntities : Z) : TypeRuntime :=
  match storage binding with
  | sparse => mkRuntime binding NoManager
  | packed =>
      let s := new_PackedStorage dispatcherMaxEntities (capacity binding)
                 (elastic binding) in
      mkRuntime (with_capacity binding (p_capacity s)) (PackedManager s)
  | compact =>
      let s := new_CompactStorage dispatcherMaxEntities (capacity binding)
                 (elastic binding) in
      mkRuntime (with_capacity binding (c_capacity s)) (CompactManager s)
  end.

(** [type.__allocate(id)] *)
Definition type_allocate (rt : TypeRuntime) (h : Heap) (id : Z)
    : Res (ObjId * TypeRuntime * Heap) :=
  match rt_manager rt with
  | NoManager =>
      '(v, b, h) ← resetWritableInstance (rt_binding rt) h id (Some id);
      Ok (v, mkRuntime b NoManager, h)
  | PackedManager s =>
      '(index, s) ← p_acquireIndex s id;
      '(v, b, h) ←
        resetWritableInstance (with_capacity (rt_binding rt) (p_capacity s))
          h id index;
      Ok (v, mkRuntime b (PackedManager s), h)
  | CompactManager s =>
      '(index, s) ← c_acquireIndex s id;
      '(v, b, h) ←
        resetWritableInstance (with_capacity (rt_binding rt) (c_capacity s))
          h id (Some index);
      Ok (v, mkRuntime b (CompactManager s), h)
  end.

(** The index that [type.__bind(id, writable)] binds. *)
Definition bound_index (rt : TypeRuntime) (id : Z) : option Z :=
  match rt_manager rt with
  | NoManager => Some id
  | PackedManager s => TA.get (p_index s) id
  | CompactManager s => Some (c_findIndex s id)
  end.

(** [type.__bind(id, writable)] *)
Definition type_bind (rt : TypeRuntime) (h : Heap) (id : Z) (writable : bool)
    : Res (ObjId * TypeRuntime * Heap) :=
  '(v, b, h) ←
    (if writable
     then resetWritableInstance (rt_binding rt) h id (bound_index rt id)
     else resetReadonlyInstance (rt_binding rt) h id (bound_index rt id));
  Ok (v, mkRuntime b (rt_manager rt), h).

(** [type.__free], which the sparse case leaves undefined ([None]). *)
Definition type_free (rt : TypeRuntime) : option (Z -> Res TypeRuntime) :=
  match rt_manager rt with
  | NoManager => None
  | PackedManager s => Some (fun id =>
      s ← p_releaseIndex s id;
      Ok (mkRuntime (with_capacity (rt_binding rt) (p_capacity s))
            (PackedManager s)))
  | CompactManager s => Some (fun id =>
      s ← c_releaseIndex s id;
      Ok (mkRuntime (with_capacity (rt_binding rt) (c_capacity s))
            (CompactManager s)))
  end.

(** ** The world ([class World]) *)

(** Modelled from the spec: the [State] enum of the dispatcher
    ([dispatcher] is not among the sources), "setup, initializing, running,
    quiescent, finalizing, done". *)
Inductive State : Type :=
  | setup | initializing | running | quiescent | finalizing | done.

#[global] Instance State_eq_dec : EqDecision State.
Proof. solve_decision. Defined.

Definition started_executing : Exn :=
  CheckError "This method cannot be called after the world has started executing".

(** The [CHECK:] block that opens [build] and [createEntity]. *)
Definition check_setup (state : State) (process : option Process) : Res unit :=
  if negb (bool_decide (state = setup)) && not_test_mode process
  then Throw started_executing
  else Ok tt.

Section World.
(** The dispatcher, whose class is not among the sources: its state and
    the two methods that [build] and [createEntity] delegate to. *)
Context {Dispatcher Callback Components : Type}.
Variable dispatcher_state : Dispatcher -> State.
Variable dispatcher_executeFunction : Dispatcher -> Callback -> Res Dispatcher.
Variable dispatcher_createEntity : Dispatcher -> Components -> Res Dispatcher.

Definition World_build (process : option Process) (w : Dispatcher)
    (callback : Callback) : Res Dispatcher :=
  _ ← check_setup (dispatcher_state w) process;
  dispatcher_executeFunction w callback.

Definition World_createEntity (process : option Process) (w : Dispatcher)
    (initialComponents : Components) : Res Dispatcher :=
  _ ← check_setup (dispatcher_state w) process;
  dispatcher_createEntity w initialComponents.
End World.

(** ** The planner ([class Planner], [class SimplePlan]) *)

(** Systems and component types are identified by their ids. *)
Abbreviation SystemBox := nat (only parsing).
Abbreviation ComponentTypeId := nat (only parsing).

(** Modelled from the spec: [class Graph] ([datatypes/graph] is not among
    the sources).  The graph keeps the vertices it was made from and the
    weighted edges added to it; a subgraph is induced by a set of vertices.
    "Topologically sort; fail with CycleDetected if the graph has a cycle
    that no explicit constraint breaks": the planner adds the edges of the
    entitlements with weight 1, the least, and an edge gives way to an edge
    of larger weight that joins the same two vertices the other way.  The
    edges that remain in force constrain the order, and a cycle among them
    is the error. *)
Record Graph : Type := mkGraph {
  vertices : list SystemBox;
  edges : list (SystemBox * SystemBox * Z)
}.

Definition new_Graph (systems : list SystemBox) : Graph := mkGraph systems [].

Definition addEdge (g : Graph) (source target : SystemBox) (weight : Z) : Graph :=
  mkGraph (vertices g) (edges g ++ [(source, target, weight)]).

Definition induceSubgraph (g : Graph) (subset : list SystemBox) : Graph :=
  mkGraph
    (filter (fun v => v ∈ subset) (vertices g))
    (filter (fun e => e.1.1 ∈ subset ∧ e.1.2 ∈ subset) (edges g)).

(** [v] has no edge into it from a vertex of [remaining]. *)
Definition is_source (es : list (SystemBox * SystemBox * Z))
    (remaining : list SystemBox) (v : SystemBox) : bool :=
  forallb (fun e => negb (bool_decide (e.1.2 = v ∧ e.1.1 ∈ remaining))) es.

(** Kahn's algorithm: the first remaining vertex without a predecessor
    among the remaining ones comes next; [None] when every remaining vertex
    has one, which is when the graph has a cycle. *)
Fixpoint sort_from (fuel : nat) (es : list (SystemBox * SystemBox * Z))
    (remaining : list SystemBox) : option (list SystemBox) :=
  match remaining with
  | [] => Some []
  | _ =>
      match fuel with
      | O => None
      | S fuel' =>
          match List.find (is_source es remaining) remaining with
          | None => None
          | Some v =>
              rest ← sort_from fuel' es (filter (fun u => u ≠ v) remaining);
              Some (v :: rest)
          end
      end
  end.

(** [e] gives way: an edge of larger weight joins its two vertices the
    other way. *)
Definition gives_way (es : list (SystemBox * SystemBox * Z))
    (e : SystemBox * SystemBox * Z) : bool :=
  existsb
    (fun e' => bool_decide (e'.1.1 = e.1.2 ∧ e'.1.2 = e.1.1 ∧ e.2 < e'.2)) es.

Definition in_force (g : Graph) : list (SystemBox * SystemBox * Z) :=
  filter (fun e => gives_way (edges g) e = false) (edges g).

Definition topologicallySortedVertices (g : Graph) : option (list SystemBox) :=
  sort_from (List.length (vertices g)) (in_force g) (vertices g).

Definition cycle_detected : Exn := CheckError "CycleDetected".

Definition seal (g : Graph) : Res Graph :=
  match topologicallySortedVertices g with
  | Some _ => Ok g
  | None => Throw cycle_detected
  end.

(** [Map<ComponentType, Set<SystemBox>>]: the entries in insertion order,
    as a [Map] iterates them. *)
Abbreviation AccessTable := (list (nat * list nat)) (only parsing).

Fixpoint table_get (t : AccessTable) (c : ComponentTypeId)
    : option (list SystemBox) :=
  match t with
  | [] => None
  | (c', systems) :: rest =>
      if bool_decide (c' = c) then Some systems else table_get rest c
  end.

Record Planner : Type := mkPlanner {
  graph : Graph;
  readers : AccessTable;
  writers : AccessTable
}.

(** [new Planner(dispatcher, systems, groups)] with the component types of
    the registry. *)
Definition new_Planner (systems : list SystemBox)
    (types : list ComponentTypeId) : Planner :=
  mkPlanner (new_Graph systems)
    (map (fun c => (c, [])) types) (map (fun c => (c, [])) types).

Definition not_iterable : Exn := UserError "TypeError: undefined is not iterable".

(** The innermost loop: [for (const writer of this.writers.get(componentType))]. *)
Definition add_writers_of (ws : list SystemBox) (reader : SystemBox)
    (g : Graph) : Graph :=
  foldl (fun g writer => addEdge g writer reader 1) g ws.

(** [for (const reader of systems)] *)
Fixpoint add_readers_of (writers : AccessTable) (c : ComponentTypeId)
    (systems : list SystemBox) (g : Graph) : Res Graph :=
  match systems with
  | [] => Ok g
  | reader :: rest =>
      match table_get writers c with
      | None => Throw not_iterable
      | Some ws => add_readers_of writers c rest (add_writers_of ws reader g)
      end
  end.

(** [for (const [componentType, systems] of this.readers.entries())] *)
Fixpoint add_entries (writers : AccessTable) (entries : AccessTable)
    (g : Graph) : Res Graph :=
  match entries with
  | [] => Ok g
  | (c, systems) :: rest =>
      g ← add_readers_of writers c systems g;
      add_entries writers rest g
  end.

Definition addComponentEntitlementDependencies (p : Planner) : Res Planner :=
  g ← add_entries (writers p) (readers p) (graph p);
  Ok (mkPlanner g (readers p) (writers p)).

Record SimplePlan : Type := mkPlan { plan_systems : list SystemBox }.

(** [new SimplePlan(planner, group)]: [group] is [group.__systems]. *)
Definition new_SimplePlan (p : Planner) (group : list SystemBox)
    : Res SimplePlan :=
  match topologicallySortedVertices (induceSubgraph (graph p) group) with
  | Some systems => Ok (mkPlan systems)
  | None => Throw cycle_detected
  end.

Fixpoint make_plans (p : Planner) (groups : list (list SystemBox))
    : Res (list SimplePlan) :=
  match groups with
  | [] => Ok []
  | group :: rest =>
      plan ← new_SimplePlan p group;
      plans ← make_plans p rest;
      Ok (plan :: plans)
  end.

(** [organize()], from [addComponentEntitlementDependencies()] on: the
    systems have collected their queries and schedules into the planner. *)
Definition organize (p : Planner) (groups : list (list SystemBox))
    : Res (list SimplePlan) :=
  p ← addComponentEntitlementDependencies p;
  g ← seal (graph p);
  make_plans (mkPlanner g (readers p) (writers p)) groups.

(** [u] comes strictly before [v] in [l]. *)
Definition strictly_before (u v : SystemBox) (l : list SystemBox) : Prop :=
  ∃ i j : nat, l !! i = Some u ∧ l !! j = Some v ∧ (i < j)%nat.

(** In the plan of every group, every system of the group that writes a
    component type comes strictly before every system of the group that
    reads it. *)
Definition writers_first (p : Planner) (groups : list (list SystemBox))
    (plans : list SimplePlan) : Prop :=
  ∀ (i : nat) group plan,
    groups !! i = Some group -> plans !! i = Some plan ->
    ∀ c systems ws writer reader,
      (c, systems) ∈ readers p -> table_get (writers p) c = Some ws ->
      writer ∈ ws -> reader ∈ systems ->
      writer ∈ vertices (graph p) -> reader ∈ vertices (graph p) ->
      writer ∈ group -> reader ∈ group ->
      strictly_before writer reader (plan_systems plan).

(** No explicit constraint orders [reader] before [writer]: every edge
    from [reader] to [writer] that the graph has before the entitlements
    are added has the weight of an entitlement at most. *)
Definition no_constraint_before (p : Planner) (reader writer : SystemBox) : Prop :=
  ∀ weight, (reader, writer, weight) ∈ edges (graph p) -> weight <= 1.

Section Execute.
(** The world that systems and flushes act on, and the two methods that
    [SimplePlan.execute] calls. *)
Context {World : Type}.
Variable system_execute : SystemBox -> Z -> Z -> World -> Res World.
Variable dispatcher_flush : World -> Res World.

(** The loop of [execute], from [systems[i]] on, [rest] being
    [systems.slice(i)]. *)
Fixpoint execute_loop (rest : list SystemBox) (time delta : Z) (w : World)
    : Res World :=
  match rest with
  | [] => Ok w
  | system :: rest =>
      w ← system_execute system time delta w;
      w ← dispatcher_flush w;
      execute_loop rest time delta w
  end.

Definition SimplePlan_execute (plan : SimplePlan) (time delta : Z)
    (w : World) : Res World :=
  execute_loop (plan_systems plan) time delta w.
End Execute.

(** What happens during [execute], in order. *)
Inductive Event : Type :=
  | SystemExecuted (system : SystemBox)
  | Flushed.

Section Traced.
(** Any system behaviour and any flush, made to record when they run. *)
Context {World : Type}.
Variable system_execute : SystemBox -> Z -> Z -> World -> Res World.
Variable dispatcher_flush : World -> Res World.

Definition traced_execute (system : SystemBox) (time delta : Z)
    (w : World * list Event) : Res (World * list Event) :=
  w' ← system_execute system time delta w.1;
  Ok (w', w.2 ++ [SystemExecuted system]).

Definition traced_flush (w : World * list Event) : Res (World * list Event) :=
  w' ← dispatcher_flush w.1;
  Ok (w', w.2 ++ [Flushed]).
End Traced.

(** Modelled from the spec: deferred effects and [Dispatcher.flush]
    ([dispatcher] is not among the sources).  A system enqueues effects
    (adds, removes, deletes, ref clears, validator throws); "a flush applies
    deferred mutations".  [entered] records, for each system that ran, what
    was applied and what was pending when it was entered. *)
Section Deferred.
Context {Effect : Type}.

Record Deferred : Type := mkDeferred {
  applied : list Effect;
  pending : list Effect;
  entered : list (SystemBox * list Effect * list Effect)
}.

(** The effects a system enqueues, which may depend on what it sees. *)
Variable enqueued_by : SystemBox -> Z -> Z -> list Effect -> list Effect.

Definition deferred_execute (system : SystemBox) (time delta : Z)
    (w : Deferred) : Res Deferred :=
  Ok (mkDeferred (applied w)
        (pending w ++ enqueued_by system time delta (applied w))
        (entered w ++ [(system, applied w, pending w)])).

Definition deferred_flush (w : Deferred) : Res Deferred :=
  Ok (mkDeferred (applied w ++ pending w) [] (entered w)).
End Deferred.
Arguments Deferred Effect : clear implicits.

(** ** Component lifecycle on an entity *)

(** [initComponent(type, id, values)] for a type with one [uint8] field
    [value]: the [CHECK:] block passes for a defined type and a [values]
    record with no unknown key; then [type.__allocate(id)], and
    [binding.init] or [binding.initDefault] assigns the field through the
    writable view, which stores at [binding.writableIndex].

    Modelled from the spec: the field buffer (the [Type] registry is not
    among the sources), one [uint8] cell per slot of the binding's
    capacity. *)
Record Store : Type := mkStore {
  s_runtime : TypeRuntime;
  s_heap : Heap;
  s_values : list Z;
  s_shape : list Z;
  s_removed : list (Z * Z);
  s_frame : Z
}.

Definition uint8 (v : Z) : Z := v `mod` 256.

Definition field_buffer (values : list Z) (rt : TypeRuntime) : list Z :=
  resize (Z.to_nat (capacity (rt_binding rt))) 0 values.

Definition slot_get (values : list Z) (index : option Z) : option Z :=
  i ← index; if decide (0 <= i) then values !! Z.to_nat i else None.

Definition slot_set (values : list Z) (index : option Z) (v : Z) : list Z :=
  match index with
  | Some i => if decide (0 <= i) then <[Z.to_nat i := uint8 v]> values else values
  | None => values
  end.

Definition initComponent (st : Store) (id : Z) (values : option Z) : Res Store :=
  '(_, rt, h) ← type_allocate (s_runtime st) (s_heap st) id;
  let buffer := field_buffer (s_values st) rt in
  let buffer := slot_set buffer (writableIndex (rt_binding rt)) (default 0 values) in
  Ok (mkStore rt h buffer (s_shape st) (s_removed st) (s_frame st)).

(** Modelled from the spec: the operations of an [Entity] handle on one
    component type and the sweep after a frame ([entity], [registry] and
    [dispatcher] are not among the sources).
    - [add] "fails with AlreadyPresent if the component already exists;
      updates shape; allocates storage; initializes"; adding again within
      the resurrection window voids the removal that is still pending.
    - [remove] "fails with NotPresent; clears shape; defers slot release".
    - [read] binds a view; an absent component is read only by a system
      that opted into [accessRecentlyDeletedData], and only while its
      removal "has not yet finalized"; otherwise it "fails with NotPresent".
    - The sweep after a frame "finally releases the slot" of each removal
      made before that frame, so that every system has run once since the
      removal, as the resurrection scenario requires. *)
Definition already_present : Exn := CheckError "Entity already has the component".
Definition not_present : Exn := CheckError "Entity doesn't have the component".

Definition has (st : Store) (id : Z) : bool := bool_decide (id ∈ s_shape st).

Definition recently_removed (st : Store) (id : Z) : bool :=
  bool_decide (id ∈ (s_removed st).*1).

Definition entity_add (st : Store) (id : Z) (values : option Z) : Res Store :=
  if has st id then Throw already_present
  else
    initComponent
      (mkStore (s_runtime st) (s_heap st) (s_values st) (id :: s_shape st)
         (filter (fun r => r.1 ≠ id) (s_removed st)) (s_frame st))
      id values.

Definition entity_remove (st : Store) (id : Z) : Res Store :=
  if has st id
  then
    Ok (mkStore (s_runtime st) (s_heap st) (s_values st)
          (filter (fun e => e ≠ id) (s_shape st))
          (s_removed st ++ [(id, s_frame st)]) (s_frame st))
  else Throw not_present.

(** [entity.read(type).value]; [recent] tells whether the system called
    [accessRecentlyDeletedData()]. *)
Definition entity_read (st : Store) (id : Z) (recent : bool)
    : Res (option Z * Store) :=
  if has st id || (recent && recently_removed st id)
  then
    '(_, rt, h) ← type_bind (s_runtime st) (s_heap st) id false;
    Ok (slot_get (s_values st) (readonlyIndex (rt_binding rt)),
        mkStore rt h (s_values st) (s_shape st) (s_removed st) (s_frame st))
  else Throw not_present.

(** The release of the slots of the removals in [due]. *)
Fixpoint release_all (rt : TypeRuntime) (shape : list Z) (due : list (Z * Z))
    : Res TypeRuntime :=
  match due with
  | [] => Ok rt
  | (id, _) :: rest =>
      if bool_decide (id ∈ shape) then release_all rt shape rest
      else
        match type_free rt with
        | None => release_all rt shape rest
        | Some free => rt ← free id; release_all rt shape rest
        end
  end.

Definition sweep (st : Store) : Res Store :=
  let due := filter (fun r => r.2 < s_frame st) (s_removed st) in
  rt ← release_all (s_runtime st) (s_shape st) due;
  Ok (mkStore rt (s_heap st) (s_values st) (s_shape st)
        (filter (fun r => ¬ r.2 < s_frame st) (s_removed st))
        (s_frame st + 1)).

(** What a system does to the component of an entity during [execute]. *)
Inductive Action : Type :=
  | Add (id : Z) (value : option Z)
  | Remove (id : Z)
  | Read (id : Z) (recent : bool).

(** The actions of a frame in order; the values read are collected. *)
Fixpoint run_actions (actions : list Action) (st : Store) (reads : list (option Z))
    : Res (list (option Z) * Store) :=
  match actions with
  | [] => Ok (reads, st)
  | Add id value :: rest =>
      st ← entity_add st id value; run_actions rest st reads
  | Remove id :: rest =>
      st ← entity_remove st id; run_actions rest st reads
  | Read id recent :: rest =>
      '(v, st) ← entity_read st id recent; run_actions rest st (reads ++ [v])
  end.

(** One [world.execute()]: the system runs, then the sweep. *)
Definition frame (actions : list Action) (st : Store)
    : Res (list (option Z) * Store) :=
  '(reads, st) ← run_actions actions st [];
  st ← sweep st;
  Ok (reads, st).

(** A world whose component type has one [uint8] field and no options:
    registered by [assimilateComponentType] and allocated by
    [defineAndAllocateComponentType]. *)
Definition uint8_component : ComponentType :=
  mkType (Some [mkEntry "value" true]) None false.

Definition new_Store (dispatcher : DispatcherConfig) (process : option Process)
    : Res Store :=
  '(binding, h) ← assimilateComponentType uint8_component dispatcher process [];
  let rt := defineAndAllocateComponentType binding (maxEntities dispatcher) in
  Ok (mkStore rt h (field_buffer [] rt) [] [] 1).

(** The test "resurrect component" followed by a read without the opt-in:
    what the system reads in frames 1 to 3, and what the read of frame 4
    does. *)
Definition resurrection (dispatcher : DispatcherConfig)
    (process : option Process) (e : Z)
    : Res (list (option Z) * list (option Z) * list (option Z)
           * Res (list (option Z))) :=
  st ← new_Store dispatcher process;
  '(reads1, st) ← frame [Add e (Some 1); Remove e] st;
  '(reads2, st) ← frame [Add e (Some 2); Remove e] st;
  '(reads3, st) ← frame [Read e true] st;
  Ok (reads1, reads2, reads3, fst <$> frame [Read e false] st).

(** ** Coroutines *)

(** Modelled from the spec: the coroutine engine (the [coroutines] module is
    not among the sources; its tests and the [Generator] interface are).
    "A coroutine is an imperative function that yields control to the
    engine.  Yield values direct the engine when to resume": nothing, next
    frame; [waitForFrames(n)], after [n] frame advances; another coroutine
    handle, when that coroutine completes.  "A coroutine returns a value on
    normal completion; when awaited by a parent coroutine, that value is
    supplied at the parent's next resume."  [waitForSeconds], [waitUntil],
    exceptions and cancellation are left out. *)
Inductive Wait : Type :=
  | NextFrame
  | WaitForFrames (n : nat)
  | WaitForChild (handle : nat).

(** The body of a generator function, as the steps it takes: it returns,
    updates the counter that the tests observe, starts another coroutine
    and gets its handle, or yields and gets a value when resumed. *)
Inductive Co : Type :=
  | Return (v : option Z)
  | Update (f : Z -> Z) (k : Co)
  | Start (child : Co) (k : nat -> Co)
  | Yield (w : Wait) (k : option Z -> Co).

Inductive Task : Type :=
  | Fresh (body : Co)
  | Suspended (w : Wait) (k : option Z -> Co)
  | Finished (v : option Z).

(** The coroutines of a system in the order they were started; a handle is
    the position of a coroutine in the list. *)
Record Engine : Type := mkEngine { counter : Z; tasks : list Task }.

Definition start (e : Engine) (body : Co) : nat * Engine :=
  (List.length (tasks e), mkEngine (counter e) (tasks e ++ [Fresh body])).

(** A coroutine runs until it yields or returns. *)
Fixpoint run_co (c : Co) (e : Engine) : Task * Engine :=
  match c with
  | Return v => (Finished v, e)
  | Update f k => run_co k (mkEngine (f (counter e)) (tasks e))
  | Start child k => let '(handle, e) := start e child in run_co (k handle) e
  | Yield w k => (Suspended w k, e)
  end.

Definition run_task (i : nat) (c : Co) (e : Engine) : Engine :=
  let '(t, e) := run_co c e in mkEngine (counter e) (<[i := t]> (tasks e)).

(** The engine advances coroutine [i]: a coroutine that waits for a child
    resumes only once the child has finished, with the child's value. *)
Definition advance (i : nat) (e : Engine) : Engine :=
  match tasks e !! i with
  | None => e
  | Some (Finished _) => e
  | Some (Fresh body) => run_task i body e
  | Some (Suspended NextFrame k) => run_task i (k None) e
  | Some (Suspended (WaitForFrames n) k) =>
      if bool_decide (n ≤ 1)%nat then run_task i (k None) e
      else mkEngine (counter e)
             (<[i := Suspended (WaitForFrames (n - 1)) k]> (tasks e))
  | Some (Suspended (WaitForChild handle) k) =>
      match tasks e !! handle with
      | Some (Finished v) => run_task i (k v) e
      | _ => e
      end
  end.

(** When the engine advances coroutines.  The spec says that
    "initialize-started coroutines are advanced once during the same
    initialization pass" and that coroutines advance "in the order they
    were started"; the tests of the repository ("waits for the next frame
    on yield") observe no advance between [World.create] and the first
    [execute].  Both readings are kept: a timing says whether there is a
    pass after [initialize], and whether a pass takes the coroutines it has
    not advanced yet oldest or newest first. *)
Record Timing : Type := mkTiming {
  advance_on_initialize : bool;
  newest_first : bool
}.

Definition timing_of_spec : Timing := mkTiming true false.
Definition timing_of_tests : Timing := mkTiming false true.

(** One pass: the coroutines started before the pass, then, as long as
    there are any, those started during it.  The fuel bounds the number of
    rounds. *)
Fixpoint pass (fuel : nat) (t : Timing) (processed : nat) (e : Engine) : Engine :=
  match fuel with
  | O => e
  | S fuel' =>
      let len := List.length (tasks e) in
      if bool_decide (processed < len)%nat
      then
        let round := seq processed (len - processed) in
        let round := if newest_first t then rev round else round in
        pass fuel' t len (foldl (fun e i => advance i e) e round)
      else e
  end.

(** The pass comes to its end within the fuel: more fuel gives the same
    engine. *)
Fixpoint pass_ends (fuel : nat) (t : Timing) (processed : nat) (e : Engine) : bool :=
  match fuel with
  | O => false
  | S fuel' =>
      let len := List.length (tasks e) in
      if bool_decide (processed < len)%nat
      then
        let round := seq processed (len - processed) in
        let round := if newest_first t then rev round else round in
        pass_ends fuel' t len (foldl (fun e i => advance i e) e round)
      else true
  end.

(** [World.create]: the system's [initialize], then the pass of the
    initialization if the timing has one. *)
Definition create (fuel : nat) (t : Timing) (initialize : Engine -> Engine)
    : Engine :=
  let e := initialize (mkEngine 0 []) in
  if advance_on_initialize t then pass fuel t 0 e else e.

(** [world.execute()]: the system's [execute], then its coroutines. *)
Definition execute_frame (fuel : nat) (t : Timing) (execute : Engine -> Engine)
    (e : Engine) : Engine :=
  pass fuel t 0 (execute e).

(** The test "executes a nested coroutine with return value":
    [coroutine] adds 1, yields, returns 5; [StartNestedCoroutine.wrap] adds
    1, yields the coroutine it starts, adds the value it gets. *)
Definition coroutine : Co :=
  Update (fun c => c + 1) (Yield NextFrame (fun _ => Return (Some 5))).

Definition wrap : Co :=
  Update (fun c => c + 1)
    (Start coroutine (fun handle =>
       Yield (WaitForChild handle) (fun v =>
         Update (fun c => c + TA.to_number v) (Return None)))).

Definition StartNestedCoroutine_initialize (e : Engine) : Engine :=
  (start e wrap).2.

Definition counters_after_two_frames (fuel : nat) (t : Timing) : Z * Z :=
  let e0 := create fuel t StartNestedCoroutine_initialize in
  let e1 := execute_frame fuel t (fun e => e) e0 in
  let e2 := execute_frame fuel t (fun e => e) e1 in
  (counter e1, counter e2).

(** ** Invariants and views of the states *)

(** The values an element type represents. *)
Definition in_range (t : TA.ArrayType) (v : Z) : Prop :=
  - 2 ^ (8 * TA.BYTES_PER_ELEMENT t - 1) <= v
  < 2 ^ (8 * TA.BYTES_PER_ELEMENT t - 1).

(** The header of [spares] by name. *)
Definition nextIndex (s : PackedStorage) : Z := TA.at_ (p_spares s) 1.
Definition numSpares (s : PackedStorage) : Z := TA.at_ (p_spares s) 3.

(** The free list, oldest release first: the cells of [spareIndices] in
    use. *)
Definition free_list (s : PackedStorage) : list Z :=
  take (Z.to_nat (numSpares s)) (drop 4 (TA.elems (p_spares s))).

(** The number of entities that hold a slot. *)
Definition allocated (s : PackedStorage) : Z :=
  Z.of_nat (List.length (filter (fun v => v ≠ -1) (TA.elems (p_index s)))).

(** The representation invariant of a packed storage: it holds after
    construction and every successful [acquireIndex] and [releaseIndex]
    keeps it. *)
Definition packed_wf (s : PackedStorage) : Prop :=
  (0 <= p_maxEntities s < 2 ^ 31)
  ∧ TA.length (p_index s) = p_maxEntities s
  ∧ 12 <= TA.length (p_spares s)
  ∧ TA.ty (p_index s) = ArrayType_of 0 (p_capacity s)
  ∧ TA.ty (p_spares s) = ArrayType_of 0 (p_capacity s)
  ∧ TA.at_ (p_spares s) 0 = TA.BYTES_PER_ELEMENT (TA.ty (p_spares s))
  ∧ TA.at_ (p_spares s) 2 = p_capacity s
  ∧ (0 < p_capacity s < 2 ^ 31)
  ∧ (0 <= nextIndex s <= p_capacity s)
  ∧ nextIndex s <= p_maxEntities s
  ∧ (0 <= numSpares s <= TA.length (p_spares s) - 4)
  ∧ allocated s + numSpares s = nextIndex s
  ∧ Forall (fun v => -1 <= v < nextIndex s) (TA.elems (p_index s))
  ∧ Forall (fun v => 0 <= v < nextIndex s) (free_list s)
  ∧ Forall (in_range (TA.ty (p_spares s))) (TA.elems (p_spares s)).

#[global] Instance packed_wf_dec s : Decision (packed_wf s).
Proof. unfold packed_wf. apply _. Defined.

(** The operations of a storage, for runs of any length. *)
Inductive StorageOp : Type :=
  | Acquire (id : Z)
  | Release (id : Z).

Definition op_id (op : StorageOp) : Z :=
  match op with Acquire id => id | Release id => id end.

Fixpoint p_run (ops : list StorageOp) (s : PackedStorage) : Res PackedStorage :=
  match ops with
  | [] => Ok s
  | Acquire id :: rest => '(_, s) ← p_acquireIndex s id; p_run rest s
  | Release id :: rest => s ← p_releaseIndex s id; p_run rest s
  end.

Fixpoint c_run (ops : list StorageOp) (s : CompactStorage) : Res CompactStorage :=
  match ops with
  | [] => Ok s
  | Acquire id :: rest => '(_, s) ← c_acquireIndex s id; c_run rest s
  | Release id :: rest => s ← c_releaseIndex s id; c_run rest s
  end.

(** A compact storage is full for [id] when no cell holds [id] and no cell
    is empty. *)
Definition c_full_for (s : CompactStorage) (id : Z) : Prop :=
  Forall (fun x => x ≠ id ∧ x ≠ -1) (TA.elems (c_index s)).

(** The binds of a binding, for runs of any length: a writable or a
    read-only bind of an entity at an index, or a reallocation of the
    storage, which only an elastic binding undergoes and which sets
    [binding.capacity]. *)
Inductive BindOp : Type :=
  | BindWrite (entityId : Z) (index : option Z)
  | BindRead (entityId : Z) (index : option Z)
  | Reallocate (capacity : Z).

(** The run keeps the views that the binds returned: the writable ones and
    the read-only ones, latest first.  A bind that throws returns no view
    and changes nothing that is observed. *)
Record BindState : Type := mkBindState {
  bs_binding : Binding;
  bs_heap : Heap;
  bs_writable : list ObjId;
  bs_readonly : list ObjId
}.

Definition bind_step (st : BindState) (op : BindOp) : BindState :=
  match op with
  | BindWrite entityId index =>
      match resetWritableInstance (bs_binding st) (bs_heap st) entityId index with
      | Ok (v, b, h) => mkBindState b h (v :: bs_writable st) (bs_readonly st)
      | Throw _ => st
      end
  | BindRead entityId index =>
      match resetReadonlyInstance (bs_binding st) (bs_heap st) entityId index with
      | Ok (v, b, h) => mkBindState b h (bs_writable st) (v :: bs_readonly st)
      | Throw _ => st
      end
  | Reallocate c =>
      if elastic (bs_binding st)
      then mkBindState (with_capacity (bs_binding st) c) (bs_heap st)
             (bs_writable st) (bs_readonly st)
      else st
  end.

Definition bind_run (ops : list BindOp) (st : BindState) : BindState :=
  foldl bind_step st ops.

Definition new_BindState (capacity : Z) (storage : ComponentStorage)
    (elastic : bool) : BindState :=
  let '(b, h) := new_Binding [] capacity storage elastic in
  mkBindState b h [] [].

(** What the heap of a binding looks like after any run: the two masters
    carry no [__invalid] and have no prototype, each current instance was
    created from its master, and every view that was returned is the
    current instance or has [__invalid] set to [true]. *)
Definition is_master (h : Heap) (o : ObjId) : Prop :=
  h !! o = Some (mkObj None None).

Definition made_from (h : Heap) (o master : ObjId) : Prop :=
  ∃ ob, h !! o = Some ob ∧ proto ob = Some master.

Definition marked_invalid (h : Heap) (o : ObjId) : Prop :=
  ∃ ob, h !! o = Some ob ∧ own_invalid ob = Some true.

Definition binding_ok (st : BindState) : Prop :=
  let b := bs_binding st in
  let h := bs_heap st in
  is_master h (readonlyMaster b) ∧ is_master h (writableMaster b)
  ∧ made_from h (readonlyInstance b) (readonlyMaster b)
  ∧ made_from h (writableInstance b) (writableMaster b)
  ∧ Forall (fun v => v = writableInstance b ∨ marked_invalid h v) (bs_writable st)
  ∧ Forall (fun v => v = readonlyInstance b ∨ marked_invalid h v) (bs_readonly st).

(** ** Further views of the storages *)

(** The slots that entities hold in a packed storage, in the order of the
    entity ids. *)
Definition held_slots (s : PackedStorage) : list Z :=
  filter (fun v => v ≠ -1) (TA.elems (p_index s)).

(** No slot is held twice, and no slot that is held is on the free list. *)
Definition exclusive (s : PackedStorage) : Prop :=
  NoDup (held_slots s ++ free_list s).

(** The representation invariant of a compact storage: it holds after
    construction with a positive capacity, and [acquireIndex] and
    [releaseIndex] on entity ids below [maxEntities] keep it.  The cells
    hold -1 or an entity id, and no entity id twice. *)
Definition compact_wf (s : CompactStorage) : Prop :=
  TA.ty (c_index s) = TA.Int32Array
  ∧ TA.length (c_index s) = c_capacity s
  ∧ 0 < c_capacity s
  ∧ 0 <= c_maxEntities s < 2 ^ 31
  ∧ Forall (fun x => -1 <= x < c_maxEntities s) (TA.elems (c_index s))
  ∧ NoDup (filter (fun x => x ≠ -1) (TA.elems (c_index s))).

#[global] Instance compact_wf_dec s : Decision (compact_wf s).
Proof. unfold compact_wf. apply _. Defined.

(** ** Singletons ([declareSingleton]) *)

(** The three [CHECK:] conditions test the options for truthiness: a
    capacity or an initial capacity of 0 counts as not given. *)
Definition declareSingleton (type : ComponentType) : Res ComponentType :=
  let o := default (mkOptions None None None false) (options type) in
  _ ← match o_storage o with
      | Some st =>
          if bool_decide (st ≠ compact)
          then Throw (CheckError "storage is incompatible with singletons")
          else Ok tt
      | None => Ok tt
      end;
  _ ← match o_capacity o with
      | Some c =>
          if bool_decide (c ≠ 0) && bool_decide (c ≠ 1)
          then Throw (CheckError "capacity is incompatible with singletons")
          else Ok tt
      | None => Ok tt
      end;
  _ ← match o_initialCapacity o with
      | Some c =>
          if bool_decide (c ≠ 0)
          then Throw (CheckError "initial capacity is incompatible with singletons")
          else Ok tt
      | None => Ok tt
      end;
  Ok (mkType (schema type)
        (Some (mkOptions (Some compact) (Some 1) (o_initialCapacity o)
                 (o_restrictedToMainThread o)))
        (has_bind type)).

(** ** The properties that registration sets on a component type *)

(** [type.id], [type.__binding] and what the closures [type.__bind],
    [type.__allocate] and [type.__free] capture; [has_bind] of the type
    tells whether the closures are set. *)
Record TypeProps : Type := mkProps {
  tp_type : ComponentType;
  tp_id : option Z;
  tp_binding : option Binding;
  tp_manager : option StorageManager
}.

(** A type that no world has registered. *)
Definition declared (type : ComponentType) : TypeProps :=
  mkProps type None None None.

(** [assimilateComponentType(typeId, type, shapeSpec, dispatcher)] with its
    two assignments, [type.id = typeId] and [type.__binding = binding]. *)
Definition assimilate (typeId : Z) (t : TypeProps) (dispatcher : DispatcherConfig)
    (process : option Process) (h : Heap) : Res (TypeProps * Heap) :=
  '(binding, h) ← assimilateComponentType (tp_type t) dispatcher process h;
  Ok (mkProps (tp_type t) (Some typeId) (Some binding) (tp_manager t), h).

Definition no_binding : Exn :=
  UserError "TypeError: Cannot read properties of undefined".

(** [defineAndAllocateComponentType(type)] with its assignments:
    [type.__binding!] is read, the storage manager is created and the
    closures are set. *)
Definition defineAndAllocate (t : TypeProps) (dispatcherMaxEntities : Z)
    : Res TypeProps :=
  match tp_binding t with
  | None => Throw no_binding
  | Some binding =>
      let rt := defineAndAllocateComponentType binding dispatcherMaxEntities in
      Ok (mkProps
            (mkType (schema (tp_type t)) (options (tp_type t)) true)
            (tp_id t) (Some (rt_binding rt)) (Some (rt_manager rt)))
  end.

Definition dissimilateComponentType (t : TypeProps) : TypeProps :=
  mkProps (mkType (schema (tp_type t)) (options (tp_type t)) false)
    None None None.

Definition not_defined : Exn :=
  CheckError "Component not defined; add to world defs".

Definition checkTypeDefined (t : TypeProps) : Res unit :=
  match tp_binding t with
  | None => Throw not_defined
  | Some _ => Ok tt
  end.

(** The invariant of the storage manager of a registered type. *)
Definition manager_wf (m : StorageManager) : Prop :=
  match m with
  | NoManager => True
  | PackedManager s => packed_wf s
  | CompactManager s => compact_wf s
  end.

(** The entity ids that the storage manager has a cell for. *)
Definition manager_ids (m : StorageManager) (id : Z) : Prop :=
  match m with
  | NoManager => True
  | PackedManager s => 0 <= id < p_maxEntities s
  | CompactManager s => 0 <= id < c_maxEntities s
  end.

(** ** Lanes ([class Lane]) *)

(** Lanes are objects: a lane is referred to by its position among the
    lane objects, and [system.lane] refers to the lane of a system. *)
Abbreviation LaneRef := nat (only parsing).

Record Lane : Type := mkLane { lane_id : Z; lane_systems : list SystemBox }.

Record LaneHeap : Type := mkLaneHeap {
  lane_objs : list Lane;
  system_lane : SystemBox -> option LaneRef
}.

(** [new Lane(id)] *)
Definition new_Lane (lh : LaneHeap) (id : Z) : LaneRef * LaneHeap :=
  (List.length (lane_objs lh),
   mkLaneHeap (lane_objs lh ++ [mkLane id []]) (system_lane lh)).

(** [this.add(...systems)] *)
Definition Lane_add (lh : LaneHeap) (this : LaneRef) (systems : list SystemBox)
    : LaneHeap :=
  mkLaneHeap
    (alter (fun l => mkLane (lane_id l) (lane_systems l ++ systems)) this
       (lane_objs lh))
    (fun system =>
       if bool_decide (system ∈ systems) then Some this else system_lane lh system).

(** The condition of [merge] under which this lane hands over to the other:
    [this.id === -1 || (other.id !== -1 && other.id < this.id)]. *)
Definition hands_over (l o : Lane) : bool :=
  bool_decide (lane_id l = -1)
  || (negb (bool_decide (lane_id o = -1)) && (lane_id o <? lane_id l)).

(** [this.merge(other)].  The method calls itself with the lanes swapped;
    the fuel bounds the depth of the calls, and [None] is a call that has
    not returned within it. *)
Fixpoint Lane_merge (fuel : nat) (lh : LaneHeap) (this other : LaneRef)
    : option (LaneRef * LaneHeap) :=
  match fuel with
  | O => None
  | S fuel' =>
      if bool_decide (this = other) then Some (this, lh)
      else
        match lane_objs lh !! this, lane_objs lh !! other with
        | Some l, Some o =>
            if hands_over l o then Lane_merge fuel' lh other this
            else
              let lh := Lane_add lh this (lane_systems o) in
              (* other.systems.length = 0 *)
              Some (this,
                    mkLaneHeap
                      (alter (fun l => mkLane (lane_id l) []) other (lane_objs lh))
                      (system_lane lh))
        | _, _ => None
        end
  end.

(** The lanes of a planner: [planner.lanes] and [planner.laneCount]. *)
Record PlannerLanes : Type := mkPlannerLanes {
  pl_heap : LaneHeap;
  pl_lanes : list LaneRef;
  pl_laneCount : Z
}.

Definition new_PlannerLanes (lh : LaneHeap) : PlannerLanes :=
  mkPlannerLanes lh [] 0.

Definition createLane (p : PlannerLanes) : LaneRef * PlannerLanes :=
  let '(lane, lh) := new_Lane (pl_heap p) (pl_laneCount p) in
  (lane, mkPlannerLanes lh (pl_lanes p ++ [lane]) (pl_laneCount p + 1)).

(** [get mainLane()] *)
Definition mainLane (p : PlannerLanes) : option LaneRef := pl_lanes p !! 0%nat.

(** [createLane()] called [n] times; the lanes created, in order. *)
Fixpoint createLanes (n : nat) (p : PlannerLanes) : list LaneRef * PlannerLanes :=
  match n with
  | O => ([], p)
  | S n' =>
      let '(lane, p) := createLane p in
      let '(lanes, p) := createLanes n' p in
      (lane :: lanes, p)
  end.

(** The edges that the entitlements ask for: for each component type with
    its readers, in the order of the table, for each reader, for each
    writer of the type, an edge from the writer to the reader of weight 1. *)
Definition entitlement_edges (readers writers : list (nat * list nat))
    : list (SystemBox * SystemBox * Z) :=
  flat_map
    (fun entry : nat * list nat =>
       flat_map
         (fun reader =>
            map (fun writer => (writer, reader, 1))
              (default [] (table_get writers entry.1)))
         entry.2)
    readers.

(** * Properties *)

(** * Typed arrays *)

(** Evaluates the closed powers and quotients of a goal. *)
Ltac eval_consts :=
  cbn [TA.BYTES_PER_ELEMENT];
  repeat match goal with
    | |- context [2 ^ ?e] =>
        let r := eval vm_compute in (2 ^ e) in change (2 ^ e) with r
    | |- context [Z.shiftl 1 ?e] =>
        let r := eval vm_compute in (Z.shiftl 1 e) in change (Z.shiftl 1 e) with r
    end;
  repeat match goal with
    | |- context [Z.pos ?p / 2] =>
        let r := eval vm_compute in (Z.pos p / 2) in change (Z.pos p / 2) with r
    end.

Section TypedArrays.
Implicit Types (a : TA.t) (t : TA.ArrayType) (i j v : Z).

Lemma wrap_in_range t v : in_range t (TA.wrap t v).
Proof.
  unfold in_range, TA.wrap. destruct t; eval_consts;
    match goal with
    | |- context [(?x `mod` ?m)] =>
        pose proof (Z.mod_pos_bound x m ltac:(lia))
    end; lia.
Qed.

Lemma wrap_id t v : in_range t v -> TA.wrap t v = v.
Proof.
  unfold in_range, TA.wrap. destruct t; eval_consts; intros H;
    rewrite Z.mod_small; lia.
Qed.

Lemma length_nonneg a : 0 <= TA.length a.
Proof. unfold TA.length. lia. Qed.

Lemma length_set a i v : TA.length (TA.set a i v) = TA.length a.
Proof.
  unfold TA.set, TA.length. case_decide; simpl; [|done].
  by rewrite length_insert.
Qed.

Lemma ty_set a i v : TA.ty (TA.set a i v) = TA.ty a.
Proof. unfold TA.set. by case_decide. Qed.

Lemma get_set_eq a i v :
  0 <= i < TA.length a -> TA.get (TA.set a i v) i = Some (TA.wrap (TA.ty a) v).
Proof.
  unfold TA.get, TA.set, TA.length. intros [H0 H1].
  rewrite !decide_True by done. simpl.
  apply list_lookup_insert_eq. lia.
Qed.

Lemma get_set_ne a i j v : i ≠ j -> TA.get (TA.set a i v) j = TA.get a j.
Proof.
  unfold TA.get, TA.set. intros Hne.
  case_decide; [|done]. case_decide; [|done]. simpl.
  apply list_lookup_insert_ne. lia.
Qed.

Lemma at_set_eq a i v :
  0 <= i < TA.length a -> TA.at_ (TA.set a i v) i = TA.wrap (TA.ty a) v.
Proof. intros H. unfold TA.at_. by rewrite get_set_eq. Qed.

Lemma at_set_ne a i j v : i ≠ j -> TA.at_ (TA.set a i v) j = TA.at_ a j.
Proof. intros H. unfold TA.at_. by rewrite get_set_ne. Qed.

Lemma get_Some_lt a i v : TA.get a i = Some v -> 0 <= i < TA.length a.
Proof.
  unfold TA.get, TA.length. case_decide; [|done].
  intros Hl%lookup_lt_Some. lia.
Qed.

Lemma get_is_Some a i : 0 <= i < TA.length a -> is_Some (TA.get a i).
Proof.
  unfold TA.get, TA.length. intros [H0 H1]. rewrite decide_True by done.
  apply lookup_lt_is_Some. lia.
Qed.

Lemma at_get a i v : TA.get a i = Some v -> TA.at_ a i = v.
Proof. unfold TA.at_. by intros ->. Qed.

Lemma get_elem_of a i v : TA.get a i = Some v -> v ∈ TA.elems a.
Proof.
  unfold TA.get. case_decide; [|done]. apply list_elem_of_lookup_2.
Qed.

(** The cells of a reallocated buffer. *)
Lemma register_length old len t filler :
  0 <= len -> TA.length (buffers_register old len t filler) = len.
Proof.
  intros H. unfold buffers_register, TA.length. simpl.
  rewrite length_resize. lia.
Qed.

Lemma register_ty old len t filler :
  TA.ty (buffers_register old len t filler) = t.
Proof. done. Qed.

Lemma register_get_old a len t filler i :
  0 <= i < len -> i < TA.length a ->
  TA.get (buffers_register (Some a) len t filler) i
  = TA.wrap t <$> TA.get a i.
Proof.
  unfold buffers_register, TA.get, TA.length. simpl. intros [H0 H1] H2.
  rewrite !decide_True by done.
  rewrite lookup_resize by (rewrite ?length_map; lia).
  by rewrite list_lookup_fmap.
Qed.

Lemma register_get_new old len t filler i :
  0 <= i < len ->
  match old with Some a => TA.length a | None => 0 end <= i ->
  TA.get (buffers_register old len t filler) i = Some (TA.wrap t filler).
Proof.
  unfold buffers_register, TA.get, TA.length. simpl. intros [H0 H1] H2.
  rewrite !decide_True by done.
  apply lookup_resize_new; [|lia].
  destruct old; simpl in *; rewrite ?length_map; lia.
Qed.

Lemma register_same a t filler :
  Forall (in_range t) (TA.elems a) ->
  buffers_register (Some a) (TA.length a) t filler = TA.mk t (TA.elems a).
Proof.
  intros H. unfold buffers_register, TA.length. f_equal.
  rewrite Nat2Z.id.
  assert (map (TA.wrap t) (TA.elems a) = TA.elems a) as ->.
  { induction H as [|x l Hx Hl IH]; simpl; [done|].
    by rewrite wrap_id, IH. }
  apply resize_all.
Qed.
End TypedArrays.

(** * Element types of a packed storage *)

Lemma BYTES_PER_ELEMENT_inj t1 t2 :
  TA.BYTES_PER_ELEMENT t1 = TA.BYTES_PER_ELEMENT t2 -> t1 = t2.
Proof. by destruct t1, t2. Qed.

Lemma ArrayType_of_le a c : a <= c -> 0 <= c -> ArrayType_of a c = ArrayType_of 0 c.
Proof. intros H1 H2. unfold ArrayType_of. by rewrite !Z.max_r by lia. Qed.

Lemma ArrayType_of_fits c v :
  0 <= c < 2 ^ 31 -> -1 <= v <= c -> in_range (ArrayType_of 0 c) v.
Proof.
  intros Hc Hv. unfold ArrayType_of. rewrite Z.max_r by lia.
  eval_consts. repeat case_match; unfold in_range; eval_consts; lia.
Qed.

Lemma ArrayType_of_mono c c' v :
  0 <= c <= c' -> in_range (ArrayType_of 0 c) v -> in_range (ArrayType_of 0 c') v.
Proof.
  intros Hc. unfold ArrayType_of. rewrite !Z.max_r by lia.
  eval_consts. repeat case_match; unfold in_range; eval_consts; lia.
Qed.

Lemma bytes_fit t t' : in_range t (TA.BYTES_PER_ELEMENT t').
Proof. unfold in_range. destruct t, t'; eval_consts; lia. Qed.

(** * Counting the cells that satisfy a predicate *)

Section Count.
Context {A : Type} (P : A -> Prop) `{!∀ x, Decision (P x)}.

Lemma count_insert (l : list A) (i : nat) (x y : A) :
  l !! i = Some x ->
  (List.length (filter P (<[i:=y]> l)) + (if decide (P x) then 1 else 0)
   = List.length (filter P l) + (if decide (P y) then 1 else 0))%nat.
Proof.
  revert i. induction l as [|z l IH]; intros [|i] Hi; try done.
  - simpl in Hi. injection Hi as ->. simpl. clear IH.
    rewrite !filter_cons. repeat case_decide; simpl; lia.
  - simpl in Hi. simpl. rewrite !filter_cons.
    specialize (IH i Hi). repeat case_decide; simpl; lia.
Qed.

Lemma count_lt_length (l : list A) (i : nat) (x : A) :
  l !! i = Some x -> ¬ P x ->
  (List.length (filter P l) < List.length l)%nat.
Proof.
  revert i. induction l as [|z l IH]; intros [|i] Hi Hx; try done.
  - simpl in Hi. injection Hi as ->. rewrite filter_cons_False by done.
    simpl. pose proof (length_filter P l). lia.
  - simpl in Hi. specialize (IH i Hi Hx). rewrite filter_cons.
    case_decide; simpl; lia.
Qed.
End Count.

(** * Packed storage *)

Lemma elems_set a i v :
  0 <= i ->
  TA.elems (TA.set a i v) = <[Z.to_nat i := TA.wrap (TA.ty a) v]> (TA.elems a).
Proof. intros H. unfold TA.set. by rewrite decide_True. Qed.

Lemma Forall_set (P : Z -> Prop) a i v :
  Forall P (TA.elems a) -> P (TA.wrap (TA.ty a) v) ->
  Forall P (TA.elems (TA.set a i v)).
Proof.
  intros Hl Hv. unfold TA.set. case_decide; [|done]. simpl.
  by apply Forall_insert.
Qed.

Lemma Forall_get (P : Z -> Prop) a i v :
  Forall P (TA.elems a) -> TA.get a i = Some v -> P v.
Proof.
  intros Hl Hg. apply get_elem_of in Hg.
  rewrite Forall_forall in Hl. by apply Hl.
Qed.

(** The free list, cell by cell. *)
Lemma free_list_lookup s (k : nat) :
  free_list s !! k
  = if decide (Z.of_nat k < numSpares s)
    then TA.get (p_spares s) (4 + Z.of_nat k) else None.
Proof.
  unfold free_list, TA.get. case_decide.
  - rewrite lookup_take_lt by lia. rewrite lookup_drop.
    rewrite decide_True by lia. f_equal. lia.
  - apply lookup_take_ge. lia.
Qed.

Lemma free_list_cells (P : Z -> Prop) s :
  Forall P (free_list s) <->
  (∀ k v, 0 <= k < numSpares s -> TA.get (p_spares s) (4 + k) = Some v -> P v).
Proof.
  rewrite Forall_lookup. split.
  - intros H k v Hk Hv. apply (H (Z.to_nat k)).
    rewrite free_list_lookup, decide_True by lia.
    by rewrite Z2Nat.id by lia.
  - intros H k v. rewrite free_list_lookup. case_decide; [|done].
    apply H. lia.
Qed.

(** The number of allocated entities after a store into [index]. *)
Lemma allocated_set s id (old new : Z) index' :
  TA.get (p_index s) id = Some old ->
  index' = TA.set (p_index s) id new ->
  in_range (TA.ty (p_index s)) new ->
  allocated (mkPacked (p_maxEntities s) (p_capacity s) (p_elastic s) index'
               (p_spares s))
  + (if decide (old ≠ -1) then 1 else 0)
  = allocated s + (if decide (new ≠ -1) then 1 else 0).
Proof.
  intros Hg -> Hr. unfold allocated. simpl.
  pose proof (get_Some_lt _ _ _ Hg) as Hlt.
  rewrite elems_set by lia. rewrite wrap_id by done.
  unfold TA.get in Hg. rewrite decide_True in Hg by lia.
  pose proof (count_insert (fun v => v ≠ -1) _ _ _ new Hg) as Hc.
  repeat case_decide; lia.
Qed.

Lemma allocated_lt s id :
  TA.get (p_index s) id = Some (-1) -> allocated s < TA.length (p_index s).
Proof.
  intros Hg. unfold allocated, TA.length.
  pose proof (get_Some_lt _ _ _ Hg) as Hlt.
  unfold TA.get in Hg. rewrite decide_True in Hg by lia.
  pose proof (count_lt_length (fun v => v ≠ -1) _ _ _ Hg) as Hc.
  assert (¬ (-1 ≠ -1)) as Hn by (intros ?; done).
  specialize (Hc Hn). lia.
Qed.

Lemma allocated_nonneg s : 0 <= allocated s.
Proof. unfold allocated. lia. Qed.

Ltac wf_names H :=
  destruct H as (Hmax & Hil & Hsl & Hti & Hts & Hby & Hc2 & Hcap & Hnx & Hnm
                 & Hns & Hcnt & Hiv & Hfl & Hsr).

(** A value between -1 and the capacity is stored as it is. *)
Lemma wf_fits_spares s v :
  packed_wf s -> -1 <= v <= p_capacity s -> TA.wrap (TA.ty (p_spares s)) v = v.
Proof.
  intros Hwf Hv. wf_names Hwf. apply wrap_id. rewrite Hts.
  apply ArrayType_of_fits; lia.
Qed.

Lemma wf_fits_index s v :
  packed_wf s -> -1 <= v <= p_capacity s -> TA.wrap (TA.ty (p_index s)) v = v.
Proof.
  intros Hwf Hv. wf_names Hwf. apply wrap_id. rewrite Hti.
  apply ArrayType_of_fits; lia.
Qed.

(** The allocation of the next unused slot. *)
Lemma fresh_step s id :
  packed_wf s -> TA.get (p_index s) id = Some (-1) ->
  numSpares s = 0 -> nextIndex s < p_capacity s ->
  let s' := mkPacked (p_maxEntities s) (p_capacity s) (p_elastic s)
              (TA.set (p_index s) id (nextIndex s))
              (TA.set (p_spares s) 1 (nextIndex s + 1)) in
  packed_wf s' ∧ nextIndex s' = nextIndex s + 1 ∧ numSpares s' = 0
  ∧ TA.get (p_index s') id = Some (nextIndex s).
Proof.
  intros Hwf Hg Hn0 Hlt s'.
  pose proof (wf_fits_spares s (nextIndex s + 1) Hwf) as Hw1.
  pose proof (wf_fits_index s (nextIndex s) Hwf) as Hw2.
  pose proof (allocated_lt s id Hg) as Hal.
  pose proof (get_Some_lt _ _ _ Hg) as Hid.
  pose proof (allocated_set s id (-1) (nextIndex s) _ Hg eq_refl) as Hcount.
  wf_names Hwf.
  assert (nextIndex s' = nextIndex s + 1) as Hnext.
  { unfold nextIndex, s'. simpl. rewrite at_set_eq by lia. apply Hw1.
    unfold nextIndex in *. lia. }
  assert (numSpares s' = 0) as Hnum.
  { unfold numSpares, s'. simpl. rewrite at_set_ne by lia. done. }
  split; [|split; [done|split; [done|]]].
  - unfold packed_wf. rewrite Hnext, Hnum.
    repeat apply conj;
      try (unfold s'; simpl;
           rewrite ?length_set, ?ty_set, ?at_set_ne by lia; (done || lia)).
    + assert (in_range (TA.ty (p_index s)) (nextIndex s)) as Hr.
      { rewrite Hti. apply ArrayType_of_fits; lia. }
      specialize (Hcount Hr). unfold allocated in *. simpl in *.
      repeat case_decide; lia.
    + apply Forall_set.
      * eapply Forall_impl; [exact Hiv|]. intros x Hx. cbv beta in *. lia.
      * rewrite Hw2 by lia. lia.
    + apply free_list_cells. intros k v Hk. lia.
    + apply Forall_set; [done|]. apply wrap_in_range.
  - unfold s'. simpl. rewrite get_set_eq by lia. f_equal. apply Hw2. lia.
Qed.

(** The allocation of the slot released last. *)
Lemma pop_step s id :
  packed_wf s -> TA.get (p_index s) id = Some (-1) -> 0 < numSpares s ->
  ∃ slot,
    TA.get (p_spares s) (numSpares s - 1 + 4) = Some slot
    ∧ 0 <= slot < nextIndex s
    ∧ TA.get (TA.set (p_spares s) 3 (numSpares s - 1)) (numSpares s - 1 + 4)
      = Some slot
    ∧ let s' := mkPacked (p_maxEntities s) (p_capacity s) (p_elastic s)
                  (TA.set (p_index s) id slot)
                  (TA.set (p_spares s) 3 (numSpares s - 1)) in
      packed_wf s' ∧ nextIndex s' = nextIndex s
      ∧ numSpares s' = numSpares s - 1
      ∧ TA.get (p_index s') id = Some slot.
Proof.
  intros Hwf Hg Hpos.
  pose proof (wf_fits_spares s (numSpares s - 1) Hwf) as Hw1.
  pose proof (get_Some_lt _ _ _ Hg) as Hid.
  pose proof (allocated_nonneg s) as Hal0.
  pose proof Hwf as Hwf'. wf_names Hwf'.
  destruct (get_is_Some (p_spares s) (numSpares s - 1 + 4)) as [slot Hslot];
    [lia|].
  assert (0 <= slot < nextIndex s) as Hrange.
  { rewrite free_list_cells in Hfl. apply (Hfl (numSpares s - 1)); [lia|].
    rewrite <- Hslot. f_equal. lia. }
  pose proof (wf_fits_index s slot Hwf) as Hw2.
  pose proof (allocated_set s id (-1) slot _ Hg eq_refl) as Hcount.
  exists slot. split; [done|]. split; [done|]. split.
  { rewrite get_set_ne by lia. done. }
  intros s'.
  assert (nextIndex s' = nextIndex s) as Hnext.
  { unfold nextIndex, s'. simpl. by rewrite at_set_ne by lia. }
  assert (numSpares s' = numSpares s - 1) as Hnum.
  { unfold numSpares at 1, s'. simpl. rewrite at_set_eq by lia. apply Hw1. lia. }
  split; [|split; [done|split; [done|]]].
  - unfold packed_wf. rewrite Hnext, Hnum.
    repeat apply conj;
      try (unfold s'; simpl;
           rewrite ?length_set, ?ty_set, ?at_set_ne by lia; (done || lia)).
    + assert (in_range (TA.ty (p_index s)) slot) as Hr.
      { rewrite Hti. apply ArrayType_of_fits; lia. }
      specialize (Hcount Hr). unfold allocated in *. simpl in *.
      repeat case_decide; lia.
    + apply Forall_set; [done|]. rewrite Hw2 by lia. lia.
    + apply free_list_cells. rewrite Hnum. intros k v Hk.
      unfold s'. simpl. rewrite get_set_ne by lia.
      rewrite free_list_cells in Hfl. apply Hfl. lia.
    + apply Forall_set; [done|]. apply wrap_in_range.
  - unfold s'. simpl. rewrite get_set_eq by lia. f_equal. apply Hw2. lia.
Qed.

(** Reading depends on the cells only. *)
Lemma get_retype a t i : TA.get (TA.mk t (TA.elems a)) i = TA.get a i.
Proof. done. Qed.

Lemma at_retype a t i : TA.at_ (TA.mk t (TA.elems a)) i = TA.at_ a i.
Proof. done. Qed.

Lemma length_retype a t : TA.length (TA.mk t (TA.elems a)) = TA.length a.
Proof. done. Qed.

Ltac proj_simpl :=
  cbn [p_maxEntities p_capacity p_elastic p_index p_spares].

(** The reallocation of an elastic storage to a larger capacity. *)
Lemma grow_step s c' :
  packed_wf s -> p_capacity s < c' < 2 ^ 31 ->
  let s1 := p_growCapacity
              (mkPacked (p_maxEntities s) c' (p_elastic s) (p_index s)
                 (p_spares s)) in
  packed_wf s1 ∧ p_capacity s1 = c' ∧ TA.at_ (p_spares s1) 2 = c'
  ∧ nextIndex s1 = nextIndex s ∧ numSpares s1 = numSpares s
  ∧ TA.elems (p_index s1) = TA.elems (p_index s)
  ∧ p_elastic s1 = p_elastic s ∧ p_maxEntities s1 = p_maxEntities s.
Proof.
  intros Hwf Hc'. pose proof Hwf as Hwf'. wf_names Hwf'.
  pose proof (allocated_nonneg s) as Hal0.
  cbv zeta. unfold p_growCapacity, p_ArrayType. proj_simpl.
  rewrite Hc2, ArrayType_of_le by lia.
  set (AT := ArrayType_of 0 c').
  assert (TA.wrap AT c' = c') as Hwc.
  { apply wrap_id, ArrayType_of_fits; lia. }
  assert (Forall (in_range AT) (TA.elems (p_spares s))) as Hsr'.
  { eapply Forall_impl; [exact Hsr|]. intros v Hv. rewrite Hts in Hv.
    eapply ArrayType_of_mono; [|exact Hv]. lia. }
  assert (Forall (in_range AT) (TA.elems (p_index s))) as Hir'.
  { eapply Forall_impl; [exact Hiv|]. intros v Hv. cbv beta in Hv.
    apply ArrayType_of_fits; lia. }
  destruct (TA.BYTES_PER_ELEMENT AT =? TA.at_ (p_spares s) 0) eqn:Hb;
    cbn [negb]; cbv zeta.
  - (* the element size stays *)
    apply Z.eqb_eq in Hb. rewrite Hby in Hb.
    apply BYTES_PER_ELEMENT_inj in Hb.
    match goal with |- packed_wf ?x ∧ _ => set (s1 := x) end.
    assert (nextIndex s1 = nextIndex s) as Hnext.
    { unfold nextIndex, s1. simpl. by rewrite at_set_ne by lia. }
    assert (numSpares s1 = numSpares s) as Hnum.
    { unfold numSpares, s1. simpl. by rewrite at_set_ne by lia. }
    assert (TA.at_ (p_spares s1) 2 = c') as H2.
    { unfold s1. simpl. rewrite at_set_eq by lia. by rewrite <- Hb. }
    split; [|by repeat apply conj].
    unfold packed_wf. rewrite Hnext, Hnum, H2.
    repeat apply conj;
      try (unfold s1; cbn [p_maxEntities p_capacity p_elastic p_index p_spares];
           rewrite ?length_set, ?ty_set, ?at_set_ne by lia;
           first [done | lia | (unfold AT in *; congruence)]).
    + apply free_list_cells. rewrite Hnum. intros k v Hk. unfold s1. proj_simpl.
      rewrite get_set_ne by lia. rewrite free_list_cells in Hfl. by apply Hfl.
    + unfold s1. proj_simpl. rewrite ty_set.
      apply Forall_set; [done|apply wrap_in_range].
  - (* the element size changes *)
    assert (buffers_register (Some (p_index s)) (p_maxEntities s) AT (-1)
            = TA.mk AT (TA.elems (p_index s))) as ->.
    { rewrite <- Hil. by apply register_same. }
    rewrite register_same by done.
    unfold updateSpares. rewrite at_retype, Hc2, Z.max_l by lia.
    rewrite ArrayType_of_le by lia. fold AT.
    set (spares' := TA.set (TA.set (TA.mk AT (TA.elems (p_spares s))) 2 c') 0
                      (TA.BYTES_PER_ELEMENT AT)).
    simpl.
    assert (TA.length spares' = TA.length (p_spares s)) as Hlen.
    { unfold spares'. by rewrite !length_set. }
    assert (forall i, i ≠ 0 -> i ≠ 2 -> TA.get spares' i = TA.get (p_spares s) i)
      as Hcells.
    { intros i H0 H2. unfold spares'. rewrite !get_set_ne by lia. done. }
    assert (TA.at_ spares' 0 = TA.BYTES_PER_ELEMENT AT) as H0.
    { unfold spares'. rewrite at_set_eq by (rewrite length_set; simpl;
        change (TA.length (TA.mk AT (TA.elems (p_spares s))))
          with (TA.length (p_spares s)); lia).
      rewrite ty_set. simpl. apply wrap_id, bytes_fit. }
    assert (TA.at_ spares' 2 = c') as H2.
    { unfold spares'. rewrite at_set_ne by lia.
      rewrite at_set_eq by (change (TA.length (TA.mk AT (TA.elems (p_spares s))))
          with (TA.length (p_spares s)); lia).
      done. }
    match goal with |- packed_wf ?x ∧ _ => set (s1 := x) end.
    assert (nextIndex s1 = nextIndex s) as Hnext.
    { unfold nextIndex, TA.at_, s1. simpl. by rewrite Hcells by lia. }
    assert (numSpares s1 = numSpares s) as Hnum.
    { unfold numSpares, TA.at_, s1. simpl. by rewrite Hcells by lia. }
    assert (TA.ty spares' = AT) as Hty by (unfold spares'; by rewrite !ty_set).
    split; [|repeat apply conj; first [exact H2|exact Hnext|exact Hnum|reflexivity]].
    unfold packed_wf. rewrite Hnext, Hnum.
    repeat apply conj;
      try (unfold s1; cbn [p_maxEntities p_capacity p_elastic p_index p_spares];
           rewrite ?Hlen, ?H0, ?H2, ?Hty; first [done | lia]).
    + apply free_list_cells. rewrite Hnum. intros k v Hk. unfold s1. proj_simpl.
      rewrite Hcells by lia. rewrite free_list_cells in Hfl. by apply Hfl.
    + unfold s1. proj_simpl. rewrite Hty. unfold spares'.
      apply Forall_set; [|rewrite ty_set; apply wrap_in_range].
      apply Forall_set; [done|apply wrap_in_range].
Qed.

(** * The free list as a stack *)

Lemma free_list_length s :
  0 <= numSpares s <= TA.length (p_spares s) - 4 ->
  Z.of_nat (List.length (free_list s)) = numSpares s.
Proof.
  intros H. unfold free_list, TA.length in *.
  rewrite length_take, length_drop. lia.
Qed.

Lemma free_list_same s s' :
  numSpares s' = numSpares s ->
  (∀ k, 0 <= k < numSpares s ->
        TA.get (p_spares s') (4 + k) = TA.get (p_spares s) (4 + k)) ->
  free_list s' = free_list s.
Proof.
  intros Hn Hc. apply list_eq. intros k. rewrite !free_list_lookup, Hn.
  case_decide; [|done]. apply Hc. lia.
Qed.

Lemma free_list_push s s' slot :
  0 <= numSpares s <= TA.length (p_spares s) - 4 ->
  numSpares s' = numSpares s + 1 ->
  (∀ k, 0 <= k < numSpares s ->
        TA.get (p_spares s') (4 + k) = TA.get (p_spares s) (4 + k)) ->
  TA.get (p_spares s') (4 + numSpares s) = Some slot ->
  free_list s' = free_list s ++ [slot].
Proof.
  intros Hr Hn Hc Ht. pose proof (free_list_length s Hr) as Hlen.
  apply list_eq. intros k. rewrite free_list_lookup, Hn.
  destruct (decide (Z.of_nat k < numSpares s)) as [Hk|Hk].
  - rewrite decide_True by lia. rewrite lookup_app_l by lia.
    rewrite free_list_lookup, decide_True by done. apply Hc. lia.
  - rewrite lookup_app_r by lia.
    destruct (decide (Z.of_nat k = numSpares s)) as [He|He].
    + rewrite decide_True by lia. rewrite He, Ht.
      replace (k - List.length (free_list s))%nat with 0%nat by lia. done.
    + rewrite decide_False by lia.
      destruct (k - List.length (free_list s))%nat as [|j] eqn:Hj; [lia|done].
Qed.

Lemma free_list_pop s s' l slot :
  0 <= numSpares s <= TA.length (p_spares s) - 4 ->
  free_list s = l ++ [slot] ->
  numSpares s' = numSpares s - 1 ->
  (∀ k, 0 <= k < numSpares s - 1 ->
        TA.get (p_spares s') (4 + k) = TA.get (p_spares s) (4 + k)) ->
  free_list s' = l
  ∧ TA.get (p_spares s) (numSpares s - 1 + 4) = Some slot.
Proof.
  intros Hr Hl Hn Hc. pose proof (free_list_length s Hr) as Hlen.
  rewrite Hl, length_app in Hlen. simpl in Hlen.
  split.
  - apply list_eq. intros k. rewrite free_list_lookup, Hn.
    case_decide as Hk.
    + rewrite Hc by lia.
      pose proof (free_list_lookup s k) as Hk'.
      rewrite decide_True in Hk' by lia. rewrite <- Hk', Hl.
      by rewrite lookup_app_l by lia.
    + symmetry. apply lookup_ge_None. lia.
  - pose proof (free_list_lookup s (List.length l)) as Hk'.
    rewrite decide_True in Hk' by lia.
    replace (numSpares s - 1 + 4) with (4 + Z.of_nat (List.length l)) by lia.
    rewrite <- Hk', Hl. by rewrite list_lookup_middle.
Qed.

Lemma free_list_nil s :
  0 <= numSpares s <= TA.length (p_spares s) - 4 ->
  free_list s = [] <-> numSpares s = 0.
Proof.
  intros Hr. pose proof (free_list_length s Hr) as Hlen. split.
  - intros H. rewrite H in Hlen. simpl in Hlen. lia.
  - intros H. apply length_zero_iff_nil. lia.
Qed.

(** * [acquireIndex] on a packed storage, case by case *)

Lemma acquire_pop s id l slot :
  packed_wf s -> TA.get (p_index s) id = Some (-1) ->
  free_list s = l ++ [slot] ->
  ∃ s', p_acquireIndex s id = Ok (Some slot, s')
        ∧ packed_wf s' ∧ free_list s' = l
        ∧ nextIndex s' = nextIndex s ∧ p_capacity s' = p_capacity s
        ∧ TA.get (p_index s') id = Some slot.
Proof.
  intros Hwf Hg Hl. pose proof Hwf as Hwf'. wf_names Hwf'.
  pose proof (free_list_length s Hns) as Hlen.
  rewrite Hl, length_app in Hlen. simpl in Hlen.
  destruct (pop_step s id Hwf Hg ltac:(lia))
    as (slot' & Hslot & Hrange & Hget & Hwf1 & Hnext & Hnum & Hidx).
  set (s' := mkPacked (p_maxEntities s) (p_capacity s) (p_elastic s)
               (TA.set (p_index s) id slot')
               (TA.set (p_spares s) 3 (numSpares s - 1))) in *.
  destruct (free_list_pop s s' l slot Hns Hl Hnum) as [Hfree Htop].
  { intros k Hk. unfold s'. proj_simpl. by rewrite get_set_ne by lia. }
  assert (slot' = slot) as -> by congruence.
  exists s'. split; [|done].
  unfold p_acquireIndex. rewrite Hg, bool_decide_eq_true_2 by done.
  fold (numSpares s).
  destruct (0 <? numSpares s) eqn:Hpos; [|lia].
  by rewrite Hget.
Qed.

Lemma acquire_fresh s id :
  packed_wf s -> TA.get (p_index s) id = Some (-1) ->
  free_list s = [] -> nextIndex s < p_capacity s ->
  ∃ s', p_acquireIndex s id = Ok (Some (nextIndex s), s')
        ∧ packed_wf s' ∧ free_list s' = []
        ∧ nextIndex s' = nextIndex s + 1 ∧ p_capacity s' = p_capacity s
        ∧ TA.get (p_index s') id = Some (nextIndex s).
Proof.
  intros Hwf Hg Hl Hlt. pose proof Hwf as Hwf'. wf_names Hwf'.
  apply free_list_nil in Hl; [|done].
  destruct (fresh_step s id Hwf Hg Hl Hlt) as (Hwf1 & Hnext & Hnum & Hidx).
  eexists. split; [|split; [exact Hwf1|]].
  - unfold p_acquireIndex. rewrite Hg, bool_decide_eq_true_2 by done.
    fold (numSpares s). rewrite Hl. simpl.
    fold (nextIndex s). rewrite Hc2.
    destruct (nextIndex s =? p_capacity s) eqn:He; [lia|]. done.
  - split; [|by repeat apply conj].
    apply free_list_nil; [|done]. destruct Hwf1 as (_&_&_&_&_&_&_&_&_&_&?&_). done.
Qed.

Lemma acquire_grow s id :
  packed_wf s -> TA.get (p_index s) id = Some (-1) ->
  free_list s = [] -> nextIndex s = p_capacity s -> p_elastic s = true ->
  ∃ s', p_acquireIndex s id = Ok (Some (nextIndex s), s')
        ∧ packed_wf s' ∧ free_list s' = []
        ∧ nextIndex s' = nextIndex s + 1
        ∧ p_capacity s' = Z.min (p_maxEntities s) (p_capacity s * 2)
        ∧ p_capacity s < p_capacity s'
        ∧ TA.at_ (p_spares s') 2 = p_capacity s'
        ∧ TA.get (p_index s') id = Some (nextIndex s).
Proof.
  intros Hwf Hg Hl Heq Hel. pose proof Hwf as Hwf'. wf_names Hwf'.
  apply free_list_nil in Hl; [|done].
  pose proof (allocated_lt s id Hg) as Hal.
  set (c' := Z.min (p_maxEntities s) (p_capacity s * 2)).
  assert (p_capacity s < c' < 2 ^ 31) as Hc' by (unfold c'; lia).
  destruct (grow_step s c' Hwf Hc')
    as (Hwf1 & Hcap1 & Hat1 & Hnext1 & Hnum1 & Hel1 & Helastic1 & Hmax1).
  set (s1 := p_growCapacity
               (mkPacked (p_maxEntities s) c' (p_elastic s) (p_index s)
                  (p_spares s))) in *.
  assert (TA.get (p_index s1) id = Some (-1)) as Hg1.
  { unfold TA.get in *. by rewrite Hel1. }
  destruct (fresh_step s1 id Hwf1 Hg1 ltac:(lia) ltac:(lia))
    as (Hwf2 & Hnext2 & Hnum2 & Hidx2).
  eexists. split; [|split; [exact Hwf2|]].
  - unfold p_acquireIndex. rewrite Hg, bool_decide_eq_true_2 by done.
    fold (numSpares s). rewrite Hl. simpl.
    fold (nextIndex s). rewrite Hc2, Heq, Z.eqb_refl.
    replace (negb (p_elastic s)) with false by (by rewrite Hel).
    destruct (p_capacity s =? p_maxEntities s) eqn:He; [lia|].
    fold c'. fold s1. simpl. fold (nextIndex s1). by rewrite Hnext1, Heq.
  - split.
    { apply free_list_nil; [|done].
      destruct Hwf2 as (_&_&_&_&_&_&_&_&_&_&?&_). done. }
    proj_simpl. rewrite Hnext2, Hnext1, ?Hmax1, ?Hcap1.
    repeat apply conj; try done; try lia.
    + by rewrite at_set_ne by lia.
    + by rewrite <- Hnext1.
Qed.

(** * [releaseIndex] on a packed storage *)

Lemma allocated_pos s id slot :
  TA.get (p_index s) id = Some slot -> slot ≠ -1 -> 0 < allocated s.
Proof.
  intros Hg Hne. apply get_elem_of in Hg. unfold allocated.
  assert (slot ∈ filter (fun v => v ≠ -1) (TA.elems (p_index s))) as Hin.
  { by apply list_elem_of_filter. }
  destruct (filter _ _); [by apply elem_of_nil in Hin|]. simpl. lia.
Qed.

(** The push of a slot on a free list that has room. *)
Lemma release_tail s id slot :
  packed_wf s -> TA.get (p_index s) id = Some slot -> slot ≠ -1 ->
  numSpares s < TA.length (p_spares s) - 4 ->
  let s' := mkPacked (p_maxEntities s) (p_capacity s) (p_elastic s)
              (TA.set (p_index s) id (-1))
              (TA.set (TA.set (p_spares s) 3 (numSpares s + 1))
                 (numSpares s + 4) slot) in
  packed_wf s' ∧ free_list s' = free_list s ++ [slot]
  ∧ nextIndex s' = nextIndex s ∧ TA.get (p_index s') id = Some (-1).
Proof.
  intros Hwf Hg Hne Hroom s'.
  pose proof (allocated_pos s id slot Hg Hne) as Hpos.
  pose proof (get_Some_lt _ _ _ Hg) as Hid.
  pose proof (wf_fits_spares s (numSpares s + 1) Hwf) as Hw1.
  pose proof (wf_fits_spares s slot Hwf) as Hw2.
  pose proof (wf_fits_index s (-1) Hwf) as Hw3.
  pose proof (allocated_set s id slot (-1) _ Hg eq_refl) as Hcount.
  pose proof Hwf as Hwf'. wf_names Hwf'.
  assert (-1 <= slot < nextIndex s) as Hslot by (by apply (Forall_get _ _ _ _ Hiv Hg)).
  assert (nextIndex s' = nextIndex s) as Hnext.
  { unfold nextIndex, s'. proj_simpl. by rewrite !at_set_ne by lia. }
  assert (numSpares s' = numSpares s + 1) as Hnum.
  { unfold numSpares at 1, s'. proj_simpl. rewrite at_set_ne by lia.
    rewrite at_set_eq by lia. apply Hw1. lia. }
  assert (free_list s' = free_list s ++ [slot]) as Hfree.
  { apply free_list_push; [lia|done| |].
    - intros k Hk. unfold s'. proj_simpl. by rewrite !get_set_ne by lia.
    - unfold s'. proj_simpl.
      replace (4 + numSpares s) with (numSpares s + 4) by lia.
      rewrite get_set_eq by (rewrite length_set; lia).
      rewrite ty_set, Hw2 by lia. done. }
  split; [|split; [done|split; [done|]]].
  - unfold packed_wf. rewrite Hnext, Hnum, Hfree.
    repeat apply conj;
      try (unfold s'; proj_simpl;
           rewrite ?length_set, ?ty_set, ?at_set_ne by lia; (done || lia)).
    + assert (in_range (TA.ty (p_index s)) (-1)) as Hr.
      { rewrite Hti. apply ArrayType_of_fits; lia. }
      specialize (Hcount Hr). unfold allocated in *. simpl in *.
      repeat case_decide; lia.
    + unfold s'. proj_simpl. apply Forall_set; [done|]. rewrite Hw3 by lia. lia.
    + apply Forall_app. split; [done|]. apply Forall_singleton. lia.
    + unfold s'. proj_simpl. rewrite !ty_set.
      apply Forall_set; [|rewrite ty_set; apply wrap_in_range].
      apply Forall_set; [done|apply wrap_in_range].
  - unfold s'. proj_simpl. rewrite get_set_eq by lia. f_equal. apply Hw3. lia.
Qed.

Lemma wrap_cell a i v :
  Forall (in_range (TA.ty a)) (TA.elems a) -> TA.get a i = Some v ->
  TA.wrap (TA.ty a) v = v.
Proof. intros Hall Hg. apply wrap_id. by apply (Forall_get _ _ _ _ Hall Hg). Qed.

(** The reallocation of a full free list. *)
Lemma growSpares_step s :
  packed_wf s -> numSpares s = TA.length (p_spares s) - 4 ->
  numSpares s < p_maxEntities s ->
  let s1 := p_growSpares s in
  packed_wf s1 ∧ free_list s1 = free_list s
  ∧ numSpares s1 < TA.length (p_spares s1) - 4
  ∧ numSpares s1 = numSpares s ∧ nextIndex s1 = nextIndex s
  ∧ p_index s1 = p_index s ∧ p_capacity s1 = p_capacity s
  ∧ p_elastic s1 = p_elastic s ∧ p_maxEntities s1 = p_maxEntities s.
Proof.
  intros Hwf Hfull Hlt. pose proof Hwf as Hwf'. wf_names Hwf'.
  cbv zeta. unfold p_growSpares, p_ArrayType.
  rewrite Hc2, ArrayType_of_le, <- Hts by lia.
  set (len' := 4 + Z.min (p_maxEntities s) ((TA.length (p_spares s) - 4) * 2)).
  assert (TA.length (p_spares s) < len') as Hlen' by (unfold len'; lia).
  set (registered := buffers_register (Some (p_spares s)) len' (TA.ty (p_spares s)) 0).
  assert (∀ i v, TA.get (p_spares s) i = Some v -> TA.get registered i = Some v)
    as Hold.
  { intros i v Hi. pose proof (get_Some_lt _ _ _ Hi).
    unfold registered. rewrite register_get_old by lia. rewrite Hi. simpl.
    f_equal. by apply (wrap_cell (p_spares s) i). }
  assert (∀ i, 0 <= i < TA.length (p_spares s) ->
               TA.get registered i = TA.get (p_spares s) i) as Hsame.
  { intros i Hi. destruct (get_is_Some (p_spares s) i Hi) as [v Hv].
    rewrite Hv. by apply Hold. }
  assert (TA.length registered = len') as Hrl.
  { unfold registered. apply register_length. lia. }
  unfold updateSpares.
  assert (TA.at_ registered 2 = p_capacity s) as Hr2.
  { unfold TA.at_. rewrite Hsame by lia. exact Hc2. }
  rewrite Hr2, Z.max_id, ArrayType_of_le, <- Hts by lia.
  set (spares' := TA.set (TA.set registered 2 (p_capacity s)) 0
                    (TA.BYTES_PER_ELEMENT (TA.ty (p_spares s)))).
  assert (TA.ty spares' = TA.ty (p_spares s)) as Hty.
  { unfold spares'. by rewrite !ty_set. }
  assert (TA.length spares' = len') as Hsl'.
  { unfold spares'. by rewrite !length_set. }
  assert (∀ i, 0 <= i < TA.length (p_spares s) ->
               TA.get spares' i = TA.get (p_spares s) i) as Hcells.
  { intros i Hi. unfold spares'.
    destruct (decide (i = 0)) as [->|H0].
    { rewrite get_set_eq by (rewrite length_set; lia).
      rewrite ty_set. change (TA.ty registered) with (TA.ty (p_spares s)).
      rewrite wrap_id by apply bytes_fit.
      destruct (get_is_Some (p_spares s) 0 ltac:(lia)) as [v Hv].
      rewrite Hv. f_equal. unfold TA.at_ in Hby. by rewrite Hv in Hby. }
    rewrite get_set_ne by lia.
    destruct (decide (i = 2)) as [->|H2].
    { rewrite get_set_eq by lia.
      change (TA.ty registered) with (TA.ty (p_spares s)).
      rewrite (wf_fits_spares s) by (done || lia).
      destruct (get_is_Some (p_spares s) 2 ltac:(lia)) as [v Hv].
      rewrite Hv. f_equal. unfold TA.at_ in Hc2. by rewrite Hv in Hc2. }
    rewrite get_set_ne by lia. by apply Hsame. }
  set (s1 := mkPacked (p_maxEntities s) (p_capacity s) (p_elastic s)
               (p_index s) spares').
  assert (nextIndex s1 = nextIndex s) as Hnext.
  { unfold nextIndex, TA.at_, s1. proj_simpl. by rewrite Hcells by lia. }
  assert (numSpares s1 = numSpares s) as Hnum.
  { unfold numSpares, TA.at_, s1. proj_simpl. by rewrite Hcells by lia. }
  assert (free_list s1 = free_list s) as Hfree.
  { apply free_list_same; [done|]. intros k Hk. unfold s1. proj_simpl.
    apply Hcells. lia. }
  split; [|repeat apply conj; try done;
            rewrite Hnum; unfold s1; proj_simpl; rewrite Hsl'; lia].
  unfold packed_wf. rewrite Hnext, Hnum, Hfree.
  repeat apply conj;
    try (unfold s1; proj_simpl; rewrite ?Hsl', ?Hty; first [done | lia]).
  - unfold s1. proj_simpl. unfold TA.at_. rewrite Hcells by lia. exact Hby.
  - unfold s1. proj_simpl. unfold TA.at_. rewrite Hcells by lia. exact Hc2.
  - unfold s1. proj_simpl. rewrite Hty. unfold spares'.
    apply Forall_set; [|rewrite ty_set; apply wrap_in_range].
    apply Forall_set; [|apply wrap_in_range].
    unfold registered, buffers_register. simpl.
    apply Forall_resize; [apply wrap_in_range|].
    apply Forall_fmap. apply Forall_forall. intros x _. apply wrap_in_range.
Qed.

Lemma release_push s id slot :
  packed_wf s -> TA.get (p_index s) id = Some slot -> slot ≠ -1 ->
  ∃ s', p_releaseIndex s id = Ok s'
        ∧ packed_wf s' ∧ free_list s' = free_list s ++ [slot]
        ∧ nextIndex s' = nextIndex s ∧ p_capacity s' = p_capacity s
        ∧ p_elastic s' = p_elastic s ∧ p_maxEntities s' = p_maxEntities s
        ∧ TA.get (p_index s') id = Some (-1).
Proof.
  intros Hwf Hg Hne.
  pose proof (allocated_pos s id slot Hg Hne) as Hpos.
  pose proof Hwf as Hwf'. wf_names Hwf'.
  unfold p_releaseIndex.
  rewrite bool_decide_eq_false_2 by (rewrite Hg; congruence).
  fold (numSpares s).
  destruct (numSpares s =? TA.length (p_spares s) - 4) eqn:Hfull.
  - apply Z.eqb_eq in Hfull.
    destruct (growSpares_step s Hwf Hfull ltac:(lia))
      as (Hwf1 & Hfree1 & Hroom1 & Hnum1 & Hnext1 & Hidx1 & Hcap1 & Hel1 & Hmax1).
    set (s1 := p_growSpares s) in *.
    destruct (release_tail s1 id slot Hwf1 ltac:(by rewrite Hidx1) Hne Hroom1)
      as (Hwf2 & Hfree2 & Hnext2 & Hidx2).
    eexists. split.
    { fold (numSpares s1).
      replace (TA.get (p_index s1) id) with (Some slot) by (by rewrite Hidx1).
      change (TA.to_number (Some slot)) with slot. reflexivity. }
    split; [exact Hwf2|]. rewrite Hfree2, Hfree1, Hnext2, Hnext1.
    repeat apply conj; try done.
  - apply Z.eqb_neq in Hfull.
    destruct (release_tail s id slot Hwf Hg Hne ltac:(lia))
      as (Hwf2 & Hfree2 & Hnext2 & Hidx2).
    eexists. split.
    { fold (numSpares s). rewrite Hg.
      change (TA.to_number (Some slot)) with slot. reflexivity. }
    split; [exact Hwf2|]. rewrite Hfree2, Hnext2.
    repeat apply conj; try done.
Qed.

(** * The invariant holds after construction and is kept *)

Lemma filter_replicate_False {A} (P : A -> Prop) `{!∀ x, Decision (P x)} n x :
  ¬ P x -> filter P (replicate n x) = [].
Proof.
  intros Hx. induction n as [|n IH]; [done|]. simpl.
  by rewrite filter_cons_False.
Qed.

Lemma packed_wf_new maxEntities capacity elastic :
  0 <= maxEntities < 2 ^ 31 -> 0 < capacity < 2 ^ 31 ->
  packed_wf (new_PackedStorage maxEntities capacity elastic)
  ∧ p_capacity (new_PackedStorage maxEntities capacity elastic) = capacity
  ∧ p_elastic (new_PackedStorage maxEntities capacity elastic) = elastic
  ∧ p_maxEntities (new_PackedStorage maxEntities capacity elastic) = maxEntities
  ∧ nextIndex (new_PackedStorage maxEntities capacity elastic) = 0
  ∧ free_list (new_PackedStorage maxEntities capacity elastic) = [].
Proof.
  intros Hmax Hcap. unfold new_PackedStorage.
  set (AT := ArrayType_of 0 capacity).
  assert (TA.wrap AT capacity = capacity) as Hwc.
  { apply wrap_id, ArrayType_of_fits; lia. }
  assert (TA.wrap AT 0 = 0) as Hw0.
  { apply wrap_id, ArrayType_of_fits; lia. }
  assert (TA.wrap AT (-1) = -1) as Hw1.
  { apply wrap_id, ArrayType_of_fits; lia. }
  set (sp0 := buffers_register None (4 + 8) AT 0).
  assert (TA.length sp0 = 12) as Hl0 by (by apply register_length).
  assert (∀ i, 0 <= i < 12 -> TA.get sp0 i = Some 0) as Hg0.
  { intros i Hi. unfold sp0. rewrite register_get_new by lia. by rewrite Hw0. }
  unfold updateSpares.
  assert (TA.at_ sp0 2 = 0) as -> by (unfold TA.at_; by rewrite Hg0 by lia).
  rewrite Z.max_l by lia. fold AT.
  set (sp1 := TA.set (TA.set sp0 2 capacity) 0 (TA.BYTES_PER_ELEMENT AT)).
  assert (TA.length sp1 = 12) as Hl1 by (unfold sp1; by rewrite !length_set).
  assert (TA.ty sp1 = AT) as Ht1 by (unfold sp1; by rewrite !ty_set).
  assert (TA.at_ sp1 0 = TA.BYTES_PER_ELEMENT AT) as H10.
  { unfold sp1. rewrite at_set_eq by (rewrite length_set; lia).
    rewrite ty_set. apply wrap_id, bytes_fit. }
  assert (TA.at_ sp1 2 = capacity) as H12.
  { unfold sp1. rewrite at_set_ne, at_set_eq by lia. exact Hwc. }
  assert (∀ i, 0 <= i < 12 -> i ≠ 0 -> i ≠ 2 -> TA.get sp1 i = Some 0) as Hg1.
  { intros i Hi ? ?. unfold sp1. rewrite !get_set_ne by lia. by apply Hg0. }
  cbv zeta. rewrite H12, H10.
  rewrite (ArrayType_of_le capacity capacity) by lia. fold AT.
  rewrite Z.eqb_refl. cbn [negb].
  set (s := mkPacked _ _ _ _ _).
  assert (nextIndex s = 0) as Hnext.
  { unfold nextIndex, TA.at_, s. proj_simpl.
    rewrite get_set_ne, Hg1 by lia. done. }
  assert (numSpares s = 0) as Hnum.
  { unfold numSpares, TA.at_, s. proj_simpl.
    rewrite get_set_ne, Hg1 by lia. done. }
  assert (TA.elems (p_index s) = replicate (Z.to_nat maxEntities) (-1)) as Hie.
  { unfold s, buffers_register. proj_simpl. cbn [TA.elems].
    by rewrite Hw1, resize_nil. }
  assert (free_list s = []) as Hfree.
  { apply free_list_nil; [|done]. rewrite Hnum. unfold s. proj_simpl.
    rewrite length_set. lia. }
  split; [|by repeat apply conj].
  unfold packed_wf. rewrite Hnext, Hnum, Hfree.
  repeat apply conj;
    try (unfold s; proj_simpl;
         rewrite ?length_set, ?ty_set, ?at_set_ne, ?register_length by lia;
         first [done | lia]).
  - unfold allocated. rewrite Hie.
    rewrite filter_replicate_False by (intros ?; done). done.
  - rewrite Hie. apply Forall_replicate. lia.
  - unfold s. proj_simpl. rewrite ty_set, Ht1.
    apply Forall_set; [|rewrite Ht1; apply wrap_in_range].
    unfold sp1. apply Forall_set; [|rewrite ty_set; apply wrap_in_range].
    apply Forall_set; [|apply wrap_in_range].
    unfold sp0, buffers_register. cbn [TA.elems].
    apply Forall_resize; [apply wrap_in_range|apply Forall_nil_2].
Qed.

Lemma acquire_wf s id r s' :
  packed_wf s -> p_acquireIndex s id = Ok (r, s') -> packed_wf s'.
Proof.
  intros Hwf Hrun. pose proof Hwf as Hwf'. wf_names Hwf'.
  destruct (decide (TA.get (p_index s) id = Some (-1))) as [Hg|Hg].
  - destruct (decide (numSpares s = 0)) as [Hn|Hn].
    + pose proof (proj2 (free_list_nil s Hns) Hn) as Hnil.
      destruct (decide (nextIndex s = p_capacity s)) as [He|He].
      * destruct (p_elastic s) eqn:Hel.
        -- destruct (acquire_grow s id Hwf Hg Hnil He Hel) as (s2 & Hr & Hwf2 & _).
           congruence.
        -- unfold p_acquireIndex in Hrun.
           rewrite bool_decide_eq_true_2 in Hrun by done.
           fold (numSpares s) (nextIndex s) in Hrun.
           rewrite Hn, Hc2, He, Z.eqb_refl, Hel in Hrun. done.
      * destruct (acquire_fresh s id Hwf Hg Hnil ltac:(lia)) as (s2 & Hr & Hwf2 & _).
        congruence.
    + pose proof (free_list_length s Hns) as Hlen.
      destruct (free_list s) as [|x l0] eqn:Hfl0 using rev_ind; [simpl in Hlen; lia|].
      destruct (acquire_pop s id _ _ Hwf Hg Hfl0) as (s2 & Hr & Hwf2 & _).
      congruence.
  - unfold p_acquireIndex in Hrun.
    rewrite bool_decide_eq_false_2 in Hrun by done. congruence.
Qed.

Lemma acquire_keeps s id r s' :
  p_acquireIndex s id = Ok (r, s') ->
  p_maxEntities s' = p_maxEntities s ∧ p_elastic s' = p_elastic s
  ∧ (p_elastic s = false -> p_capacity s' = p_capacity s).
Proof.
  unfold p_acquireIndex. case_bool_decide; [|by intros [= <- <-]].
  destruct (0 <? TA.at_ (p_spares s) 3); [by intros [= <- <-]|].
  destruct (TA.at_ (p_spares s) 1 =? TA.at_ (p_spares s) 2).
  - destruct (p_elastic s) eqn:Hel; simpl; [|done].
    destruct (p_capacity s =? p_maxEntities s); [done|]. simpl.
    intros [= <- <-]. proj_simpl. unfold p_growCapacity. proj_simpl.
    unfold updateSpares. destruct (negb _); by proj_simpl.
  - simpl. by intros [= <- <-].
Qed.

Lemma p_run_wf ops s s' :
  packed_wf s -> Forall (fun op => 0 <= op_id op < p_maxEntities s) ops ->
  p_run ops s = Ok s' ->
  packed_wf s' ∧ p_maxEntities s' = p_maxEntities s
  ∧ p_elastic s' = p_elastic s
  ∧ (p_elastic s = false -> p_capacity s' = p_capacity s).
Proof.
  revert s. induction ops as [|op ops IH]; intros s Hwf Hids Hrun.
  - simpl in Hrun. injection Hrun as <-. done.
  - apply Forall_cons in Hids as [Hid Hids]. destruct op as [id|id]; simpl in *.
    + destruct (p_acquireIndex s id) as [[r s1]|] eqn:Hstep; [|done].
      simpl in Hrun.
      pose proof (acquire_wf _ _ _ _ Hwf Hstep) as Hwf1.
      destruct (acquire_keeps _ _ _ _ Hstep) as (Hm & He & Hc).
      destruct (IH s1 Hwf1 ltac:(by rewrite Hm) Hrun) as (? & ? & ? & Hc').
      split; [done|]. split; [congruence|]. split; [congruence|].
      intros Hf. rewrite Hc' by congruence. by apply Hc.
    + destruct (p_releaseIndex s id) as [s1|] eqn:Hstep; [|done].
      simpl in Hrun. pose proof Hwf as Hwf'. wf_names Hwf'.
      destruct (get_is_Some (p_index s) id ltac:(lia)) as [slot Hslot].
      destruct (decide (slot = -1)) as [->|Hne].
      { unfold p_releaseIndex in Hstep.
        by rewrite bool_decide_eq_true_2 in Hstep. }
      destruct (release_push s id slot Hwf Hslot Hne)
        as (s2 & Hr & Hwf2 & _ & _ & Hc & He & Hm & _).
      assert (s2 = s1) as -> by congruence.
      destruct (IH s1 Hwf2 ltac:(by rewrite Hm) Hrun) as (? & ? & ? & Hc').
      split; [done|]. split; [congruence|]. split; [congruence|].
      intros Hf. rewrite Hc' by congruence. exact Hc.
Qed.

(** * Compact storage *)

Lemma findIndex_from_found cells k id :
  id ∈ cells ->
  k <= findIndex_from cells k id < k + Z.of_nat (List.length cells)
  ∧ cells !! Z.to_nat (findIndex_from cells k id - k) = Some id.
Proof.
  revert k. induction cells as [|x rest IH]; intros k Hin.
  - by apply elem_of_nil in Hin.
  - simpl. destruct (x =? id) eqn:He.
    + apply Z.eqb_eq in He. subst x. rewrite Z.sub_diag. simpl. split; [lia|done].
    + apply Z.eqb_neq in He. apply elem_of_cons in Hin as [->|Hin]; [done|].
      destruct (IH (k + 1) Hin) as [Hr Hl]. split; [lia|].
      replace (Z.to_nat (findIndex_from rest (k + 1) id - k))
        with (S (Z.to_nat (findIndex_from rest (k + 1) id - (k + 1)))) by lia.
      done.
Qed.

Lemma acquire_scan_found cells k id firstEmpty :
  id ∈ cells ->
  acquire_scan cells k id firstEmpty = inl (findIndex_from cells k id).
Proof.
  revert k firstEmpty. induction cells as [|x rest IH]; intros k fe Hin.
  - by apply elem_of_nil in Hin.
  - simpl. destruct (x =? id) eqn:He; [done|].
    apply Z.eqb_neq in He. apply elem_of_cons in Hin as [->|Hin]; [done|].
    by apply IH.
Qed.

Lemma acquire_scan_full cells k id :
  Forall (fun x => x ≠ id ∧ x ≠ -1) cells ->
  acquire_scan cells k id None = inr None.
Proof.
  revert k. induction cells as [|x rest IH]; intros k Hall; [done|].
  apply Forall_cons in Hall as [[Hid Hempty] Hall]. simpl.
  destruct (x =? id) eqn:He; [apply Z.eqb_eq in He; done|].
  destruct (x =? -1) eqn:He'; [apply Z.eqb_eq in He'; done|].
  by apply IH.
Qed.

Lemma c_acquire_keeps s id i s' :
  c_elastic s = false -> c_acquireIndex s id = Ok (i, s') ->
  c_elastic s' = false ∧ c_capacity s' = c_capacity s
  ∧ TA.length (c_index s') = TA.length (c_index s).
Proof.
  intros Hel. unfold c_acquireIndex.
  destruct (acquire_scan _ _ _ _) as [j|[fe|]].
  - by intros [= <- <-].
  - intros [= <- <-]. simpl. by rewrite length_set.
  - by rewrite Hel.
Qed.

Lemma c_release_keeps s id s' :
  c_releaseIndex s id = Ok s' ->
  c_elastic s' = c_elastic s ∧ c_capacity s' = c_capacity s
  ∧ TA.length (c_index s') = TA.length (c_index s).
Proof.
  unfold c_releaseIndex. destruct (_ =? -1); [done|].
  intros [= <-]. simpl. by rewrite length_set.
Qed.

Lemma c_run_keeps ops s s' :
  c_elastic s = false -> c_run ops s = Ok s' ->
  c_capacity s' = c_capacity s
  ∧ TA.length (c_index s') = TA.length (c_index s).
Proof.
  revert s. induction ops as [|op ops IH]; intros s Hel Hrun.
  - simpl in Hrun. by injection Hrun as <-.
  - destruct op as [id|id]; simpl in Hrun.
    + destruct (c_acquireIndex s id) as [[i s1]|] eqn:Hstep; [|done].
      destruct (c_acquire_keeps _ _ _ _ Hel Hstep) as (He & Hc & Hl).
      destruct (IH s1 He Hrun) as [Hc' Hl']. split; congruence.
    + destruct (c_releaseIndex s id) as [s1|] eqn:Hstep; [|done].
      destruct (c_release_keeps _ _ _ Hstep) as (He & Hc & Hl).
      destruct (IH s1 ltac:(congruence) Hrun) as [Hc' Hl']. split; congruence.
Qed.

(** * The claims on the storages *)

(** C4. Packed slot allocation.  In a packed storage that satisfies its
    invariant, acquiring a slot for an entity that has none
    - pops the slot at the end of the free list, which is the slot
      released last, when the free list is not empty;
    - otherwise assigns the next unused slot, [nextIndex];
    - and when moreover the slots up to the capacity are all in use and
      the binding is elastic, first sets the capacity to its double capped
      at [maxEntities], which is larger, and reallocates.
    Releasing the slot of an entity appends it to the free list, so the
    free list is a stack. *)
Theorem packed_slot_allocation (s : PackedStorage) (id : Z) :
  packed_wf s -> TA.get (p_index s) id = Some (-1) ->
  (∀ l slot, free_list s = l ++ [slot] ->
     ∃ s', p_acquireIndex s id = Ok (Some slot, s')
           ∧ free_list s' = l ∧ nextIndex s' = nextIndex s
           ∧ p_capacity s' = p_capacity s
           ∧ TA.get (p_index s') id = Some slot)
  ∧ (free_list s = [] -> nextIndex s < p_capacity s ->
     ∃ s', p_acquireIndex s id = Ok (Some (nextIndex s), s')
           ∧ free_list s' = [] ∧ nextIndex s' = nextIndex s + 1
           ∧ p_capacity s' = p_capacity s
           ∧ TA.get (p_index s') id = Some (nextIndex s))
  ∧ (free_list s = [] -> nextIndex s = p_capacity s -> p_elastic s = true ->
     ∃ s', p_acquireIndex s id = Ok (Some (nextIndex s), s')
           ∧ free_list s' = [] ∧ nextIndex s' = nextIndex s + 1
           ∧ p_capacity s' = Z.min (p_maxEntities s) (p_capacity s * 2)
           ∧ p_capacity s < p_capacity s'
           ∧ TA.at_ (p_spares s') 2 = p_capacity s'
           ∧ TA.get (p_index s') id = Some (nextIndex s))
  ∧ (∀ id0 slot, TA.get (p_index s) id0 = Some slot -> slot ≠ -1 ->
     ∃ s', p_releaseIndex s id0 = Ok s'
           ∧ free_list s' = free_list s ++ [slot]
           ∧ TA.get (p_index s') id0 = Some (-1)).
Proof.
  intros Hwf Hg. repeat apply conj.
  - intros l slot Hl.
    destruct (acquire_pop s id l slot Hwf Hg Hl) as (s' & Hr & _ & H).
    by exists s'.
  - intros Hl Hlt.
    destruct (acquire_fresh s id Hwf Hg Hl Hlt) as (s' & Hr & _ & H).
    by exists s'.
  - intros Hl He Hel.
    destruct (acquire_grow s id Hwf Hg Hl He Hel) as (s' & Hr & _ & H).
    by exists s'.
  - intros id0 slot Hs Hne.
    destruct (release_push s id0 slot Hwf Hs Hne)
      as (s' & Hr & _ & Hf & _ & _ & _ & _ & Hi).
    by exists s'.
Qed.

Lemma packed_slot_allocation_witness :
  let spare := mkPacked 4 4 true (TA.mk TA.Int8Array [-1; -1; 2; -1])
                 (TA.mk TA.Int8Array [1; 3; 4; 2; 1; 0; 0; 0; 0; 0; 0; 0]) in
  let fresh := mkPacked 4 4 true (TA.mk TA.Int8Array [0; -1; -1; -1])
                 (TA.mk TA.Int8Array [1; 1; 4; 0; 0; 0; 0; 0; 0; 0; 0; 0]) in
  let full := mkPacked 4 2 true (TA.mk TA.Int8Array [0; 1; -1; -1])
                (TA.mk TA.Int8Array [1; 2; 2; 0; 0; 0; 0; 0; 0; 0; 0; 0]) in
  (∃ s', p_acquireIndex spare 3 = Ok (Some 0, s') ∧ free_list s' = [1])
  ∧ (∃ s', p_acquireIndex fresh 3 = Ok (Some 1, s') ∧ nextIndex s' = 2)
  ∧ (∃ s', p_acquireIndex full 3 = Ok (Some 2, s') ∧ p_capacity s' = 4)
  ∧ (∃ s', p_releaseIndex spare 2 = Ok s' ∧ free_list s' = [1; 0; 2]).
Proof.
  intros spare fresh full.
  assert (packed_wf spare) as Hspare
    by (apply (bool_decide_unpack _); by vm_compute).
  assert (packed_wf fresh) as Hfresh
    by (apply (bool_decide_unpack _); by vm_compute).
  assert (packed_wf full) as Hfull
    by (apply (bool_decide_unpack _); by vm_compute).
  repeat apply conj.
  - destruct (packed_slot_allocation spare 3 Hspare eq_refl) as (Hpop & _).
    destruct (Hpop [1] 0 eq_refl) as (s' & Hr & Hf & _).
    by exists s'.
  - destruct (packed_slot_allocation fresh 3 Hfresh eq_refl) as (_ & Hnext & _).
    destruct (Hnext eq_refl ltac:(by vm_compute)) as (s' & Hr & _ & Hn & _).
    by exists s'.
  - destruct (packed_slot_allocation full 3 Hfull eq_refl) as (_ & _ & Hgrow & _).
    destruct (Hgrow eq_refl eq_refl eq_refl) as (s' & Hr & _ & _ & Hc & _).
    by exists s'.
  - destruct (packed_slot_allocation spare 3 Hspare eq_refl) as (_ & _ & _ & Hrel).
    destruct (Hrel 2 2 eq_refl ltac:(done)) as (s' & Hr & Hf & _).
    by exists s'.
Defined.

(** C5. Fixed capacity.  In a packed or compact storage whose binding is
    not elastic, acquiring a slot for an entity that has none when all
    slots are in use throws the [CheckError] "Storage exhausted", and
    whatever the storage goes through its capacity stays the configured
    one: the slots handed out stay below it, and the index of a compact
    storage keeps its length. *)
Theorem fixed_capacity_exhausted :
  (∀ s id, packed_wf s -> p_elastic s = false ->
     TA.get (p_index s) id = Some (-1) ->
     free_list s = [] -> nextIndex s = p_capacity s ->
     p_acquireIndex s id = Throw storage_exhausted)
  ∧ (∀ s id, c_elastic s = false -> c_full_for s id ->
       c_acquireIndex s id = Throw storage_exhausted)
  ∧ (∀ ops s s', packed_wf s -> p_elastic s = false ->
       Forall (fun op => 0 <= op_id op < p_maxEntities s) ops ->
       p_run ops s = Ok s' ->
       p_capacity s' = p_capacity s ∧ nextIndex s' <= p_capacity s)
  ∧ (∀ ops s s', c_elastic s = false -> c_run ops s = Ok s' ->
       c_capacity s' = c_capacity s
       ∧ TA.length (c_index s') = TA.length (c_index s)).
Proof.
  repeat apply conj.
  - intros s id Hwf Hel Hg Hl He.
    destruct Hwf as (_&_&_&_&_&_&Hc2&_&_&_&Hns&_).
    apply free_list_nil in Hl; [|done].
    unfold p_acquireIndex. rewrite bool_decide_eq_true_2 by done.
    fold (numSpares s) (nextIndex s).
    by rewrite Hl, Hc2, He, Z.eqb_refl, Hel.
  - intros s id Hel Hfull. unfold c_acquireIndex.
    rewrite acquire_scan_full by done. by rewrite Hel.
  - intros ops s s' Hwf Hel Hids Hrun.
    destruct (p_run_wf ops s s' Hwf Hids Hrun) as (Hwf' & _ & _ & Hc).
    specialize (Hc Hel). split; [done|].
    destruct Hwf' as (_&_&_&_&_&_&_&_&Hn&_). lia.
  - intros ops s s' Hel Hrun. by apply (c_run_keeps ops).
Qed.

Lemma fixed_capacity_exhausted_witness :
  p_acquireIndex
    (mkPacked 4 2 false (TA.mk TA.Int8Array [0; 1; -1; -1])
       (TA.mk TA.Int8Array [1; 2; 2; 0; 0; 0; 0; 0; 0; 0; 0; 0])) 2
  = Throw storage_exhausted
  ∧ c_acquireIndex (mkCompact 4 2 false (TA.mk TA.Int32Array [3; 0])) 1
    = Throw storage_exhausted
  ∧ (∃ s', p_run [Acquire 0; Acquire 1; Release 0; Acquire 3]
             (new_PackedStorage 4 2 false) = Ok s' ∧ p_capacity s' = 2)
  ∧ (∃ s', c_run [Acquire 0; Acquire 1; Release 0; Acquire 3]
             (new_CompactStorage 4 2 false) = Ok s' ∧ c_capacity s' = 2).
Proof.
  destruct fixed_capacity_exhausted as (Hp & Hc & Hpr & Hcr).
  repeat apply conj.
  - apply Hp; [apply (bool_decide_unpack _); by vm_compute|done..].
  - apply Hc; [done|]. unfold c_full_for. simpl.
    repeat apply Forall_cons_2; try apply Forall_nil_2; split; done.
  - destruct (p_run [Acquire 0; Acquire 1; Release 0; Acquire 3]
                (new_PackedStorage 4 2 false)) as [s'|e] eqn:Hrun;
      [|vm_compute in Hrun; discriminate].
    exists s'. split; [done|].
    refine (proj1 (Hpr _ (new_PackedStorage 4 2 false) s' _ eq_refl _ Hrun)).
    + apply (bool_decide_unpack _). by vm_compute.
    + repeat apply Forall_cons_2; try apply Forall_nil_2; simpl; lia.
  - destruct (c_run [Acquire 0; Acquire 1; Release 0; Acquire 3]
                (new_CompactStorage 4 2 false)) as [s'|e] eqn:Hrun;
      [|vm_compute in Hrun; discriminate].
    exists s'. split; [done|].
    exact (proj1 (Hcr _ (new_CompactStorage 4 2 false) s' eq_refl Hrun)).
Defined.

(** C10. [acquireIndex] is idempotent.  For an entity that holds a slot,
    [PackedStorage.acquireIndex] and [CompactStorage.acquireIndex] return
    that slot and leave the storage as it is: free list, next-slot counter,
    index table and capacity. *)
Theorem acquireIndex_idempotent :
  (∀ s id slot, TA.get (p_index s) id = Some slot -> slot ≠ -1 ->
     p_acquireIndex s id = Ok (Some slot, s))
  ∧ (∀ s id, id ∈ TA.elems (c_index s) ->
       TA.get (c_index s) (c_findIndex s id) = Some id
       ∧ c_acquireIndex s id = Ok (c_findIndex s id, s)).
Proof.
  split.
  - intros s id slot Hg Hne. unfold p_acquireIndex.
    rewrite bool_decide_eq_false_2 by (rewrite Hg; congruence).
    by rewrite Hg.
  - intros s id Hin.
    destruct (findIndex_from_found _ 0 id Hin) as [Hr Hl].
    split.
    + unfold TA.get, c_findIndex. rewrite decide_True by lia.
      by rewrite Z.sub_0_r in Hl.
    + unfold c_acquireIndex. by rewrite acquire_scan_found.
Qed.

Lemma acquireIndex_idempotent_witness :
  p_acquireIndex
    (mkPacked 4 2 false (TA.mk TA.Int8Array [0; 1; -1; -1])
       (TA.mk TA.Int8Array [1; 2; 2; 0; 0; 0; 0; 0; 0; 0; 0; 0])) 1
  = Ok (Some 1,
        mkPacked 4 2 false (TA.mk TA.Int8Array [0; 1; -1; -1])
          (TA.mk TA.Int8Array [1; 2; 2; 0; 0; 0; 0; 0; 0; 0; 0; 0]))
  ∧ c_acquireIndex (mkCompact 4 2 false (TA.mk TA.Int32Array [3; 0])) 0
    = Ok (1, mkCompact 4 2 false (TA.mk TA.Int32Array [3; 0])).
Proof.
  destruct acquireIndex_idempotent as [Hp Hc]. split.
  - by apply Hp.
  - apply (Hc (mkCompact 4 2 false (TA.mk TA.Int32Array [3; 0])) 0).
    simpl. apply elem_of_cons. right. apply elem_of_cons. by left.
Defined.

(** * Views of a binding *)

Section Views.
Implicit Types (h : Heap) (o p : ObjId) (b : Binding).

Lemma set_invalid_length h o flag :
  List.length (set_invalid h o flag) = List.length h.
Proof.
  unfold set_invalid. destruct (h !! o); [|done]. by rewrite length_insert.
Qed.

Lemma set_invalid_other h o p flag :
  o ≠ p -> set_invalid h o flag !! p = h !! p.
Proof.
  intros Hne. unfold set_invalid. destruct (h !! o); [|done].
  by rewrite list_lookup_insert_ne.
Qed.

Lemma set_invalid_proto h o p flag master :
  made_from h p master -> made_from (set_invalid h o flag) p master.
Proof.
  intros (ob & Hp & Hproto). destruct (decide (o = p)) as [->|Hne].
  - unfold set_invalid. rewrite Hp. eexists. split.
    + apply list_lookup_insert_eq. by eapply lookup_lt_Some.
    + done.
  - exists ob. by rewrite set_invalid_other.
Qed.

Lemma set_invalid_marks h o :
  is_Some (h !! o) -> marked_invalid (set_invalid h o true) o.
Proof.
  intros [ob Hob]. unfold set_invalid. rewrite Hob. eexists. split.
  - apply list_lookup_insert_eq. by eapply lookup_lt_Some.
  - done.
Qed.

Lemma set_invalid_keeps_marked h o p :
  marked_invalid h p -> marked_invalid (set_invalid h o true) p.
Proof.
  intros (ob & Hp & Hm). destruct (decide (o = p)) as [->|Hne].
  - apply set_invalid_marks. by exists ob.
  - exists ob. by rewrite set_invalid_other.
Qed.

Lemma set_invalid_master h o flag master m :
  made_from h o m -> is_master h master ->
  is_master (set_invalid h o flag) master.
Proof.
  intros (ob & Ho & Hproto) Hm. unfold is_master.
  rewrite set_invalid_other; [done|].
  intros ->. unfold is_master in Hm. rewrite Ho in Hm.
  injection Hm as ->. done.
Qed.

Lemma alloc_lookup_old h ob p x :
  h !! p = Some x -> (heap_alloc h ob).2 !! p = Some x.
Proof. intros Hp. simpl. by apply lookup_app_l_Some. Qed.

Lemma alloc_lookup_new h ob : (heap_alloc h ob).2 !! (heap_alloc h ob).1 = Some ob.
Proof. simpl. by rewrite list_lookup_middle. Qed.

Lemma marked_invalid_alloc h ob p :
  marked_invalid h p -> marked_invalid (heap_alloc h ob).2 p.
Proof. intros (x & Hp & Hm). exists x. split; [by apply alloc_lookup_old|done]. Qed.

Lemma made_from_alloc h ob p master :
  made_from h p master -> made_from (heap_alloc h ob).2 p master.
Proof. intros (x & Hp & Hm). exists x. split; [by apply alloc_lookup_old|done]. Qed.

(** A view with [__invalid] set is not valid. *)
Lemma marked_invalid_not_valid h o : marked_invalid h o -> valid_view h o = false.
Proof.
  intros (ob & Ho & Hm). unfold valid_view, get_invalid. simpl.
  by rewrite Ho, Hm.
Qed.

(** A view just created from a master is valid. *)
Lemma fresh_valid h master :
  is_master h master ->
  valid_view (heap_alloc h (mkObj (Some master) None)).2
    (heap_alloc h (mkObj (Some master) None)).1 = true.
Proof.
  intros Hm. unfold valid_view, get_invalid.
  assert (is_Some (h !! master)) as Hlt%lookup_lt_is_Some by (by eexists).
  cbn [heap_alloc fst snd]. rewrite length_app. simpl List.length.
  replace (S (List.length h + 1))%nat with (S (S (List.length h))) by lia.
  cbn [get_invalid_fuel].
  rewrite list_lookup_middle by done. cbn [own_invalid proto].
  rewrite lookup_app_l by lia. unfold is_master in Hm. by rewrite Hm.
Qed.
End Views.

(** Each step of a run keeps [binding_ok]. *)
Lemma reset_writable_ok st entityId index v b h :
  binding_ok st ->
  resetWritableInstance (bs_binding st) (bs_heap st) entityId index = Ok (v, b, h) ->
  binding_ok (mkBindState b h (v :: bs_writable st) (bs_readonly st)).
Proof.
  intros (Hrm & Hwm & Hri & Hwi & Hws & Hrs). unfold resetWritableInstance.
  case_bool_decide; [done|]. cbn [elastic capacity with_writable writableInstance writableMaster].
  destruct (elastic (bs_binding st) || (1 <? capacity (bs_binding st))).
  - set (h1 := set_invalid (bs_heap st) (writableInstance (bs_binding st)) true).
    intros [= <- <- <-]. unfold binding_ok. simpl.
    assert (marked_invalid h1 (writableInstance (bs_binding st))) as Hold.
    { apply set_invalid_marks. destruct Hwi as (ob & Ho & _). by eexists. }
    repeat apply conj.
    + apply lookup_app_l_Some. by eapply set_invalid_master.
    + apply lookup_app_l_Some. by eapply set_invalid_master.
    + apply (made_from_alloc h1). by apply set_invalid_proto.
    + eexists. split; [apply list_lookup_middle; done|done].
    + apply Forall_cons. split; [by left|].
      eapply Forall_impl; [exact Hws|]. intros x [->|Hx]; right.
      * by apply (marked_invalid_alloc h1).
      * apply (marked_invalid_alloc h1). by apply set_invalid_keeps_marked.
    + eapply Forall_impl; [exact Hrs|]. intros x [->|Hx]; [by left|right].
      apply (marked_invalid_alloc h1). by apply set_invalid_keeps_marked.
  - intros [= <- <- <-]. unfold binding_ok. simpl.
    repeat apply conj; try done. apply Forall_cons. split; [by left|done].
Qed.

Lemma reset_readonly_ok st entityId index v b h :
  binding_ok st ->
  resetReadonlyInstance (bs_binding st) (bs_heap st) entityId index = Ok (v, b, h) ->
  binding_ok (mkBindState b h (bs_writable st) (v :: bs_readonly st)).
Proof.
  intros (Hrm & Hwm & Hri & Hwi & Hws & Hrs). unfold resetReadonlyInstance.
  case_bool_decide; [done|]. cbn [elastic capacity with_readonly readonlyInstance readonlyMaster].
  destruct (elastic (bs_binding st) || (1 <? capacity (bs_binding st))).
  - set (h1 := set_invalid (bs_heap st) (readonlyInstance (bs_binding st)) true).
    intros [= <- <- <-]. unfold binding_ok. simpl.
    assert (marked_invalid h1 (readonlyInstance (bs_binding st))) as Hold.
    { apply set_invalid_marks. destruct Hri as (ob & Ho & _). by eexists. }
    repeat apply conj.
    + apply lookup_app_l_Some. by eapply set_invalid_master.
    + apply lookup_app_l_Some. by eapply set_invalid_master.
    + eexists. split; [apply list_lookup_middle; done|done].
    + apply (made_from_alloc h1). by apply set_invalid_proto.
    + eapply Forall_impl; [exact Hws|]. intros x [->|Hx]; [by left|right].
      apply (marked_invalid_alloc h1). by apply set_invalid_keeps_marked.
    + apply Forall_cons. split; [by left|].
      eapply Forall_impl; [exact Hrs|]. intros x [->|Hx]; right.
      * by apply (marked_invalid_alloc h1).
      * apply (marked_invalid_alloc h1). by apply set_invalid_keeps_marked.
  - intros [= <- <- <-]. unfold binding_ok. simpl.
    repeat apply conj; try done. apply Forall_cons. split; [by left|done].
Qed.

Lemma bind_step_ok st op : binding_ok st -> binding_ok (bind_step st op).
Proof.
  intros Hok. destruct op as [entityId index|entityId index|c]; simpl.
  - destruct (resetWritableInstance _ _ _ _) as [[[v b] h]|] eqn:Hr; [|done].
    by eapply reset_writable_ok.
  - destruct (resetReadonlyInstance _ _ _ _) as [[[v b] h]|] eqn:Hr; [|done].
    by eapply reset_readonly_ok.
  - destruct (elastic (bs_binding st)); [|done]. exact Hok.
Qed.

Lemma bind_run_ok ops st : binding_ok st -> binding_ok (bind_run ops st).
Proof.
  revert st. induction ops as [|op ops IH]; intros st Hok; [done|].
  simpl. apply IH. by apply bind_step_ok.
Qed.

Lemma new_BindState_ok capacity storage elastic :
  binding_ok (new_BindState capacity storage elastic).
Proof.
  unfold binding_ok, new_BindState, new_Binding. simpl.
  repeat apply conj; try done; eexists; split; done.
Qed.

(** A fixed binding of capacity 1 never replaces its instances. *)
Lemma fixed_one_step st op :
  elastic (bs_binding st) = false -> capacity (bs_binding st) = 1 ->
  let st' := bind_step st op in
  elastic (bs_binding st') = false ∧ capacity (bs_binding st') = 1
  ∧ bs_heap st' = bs_heap st
  ∧ writableInstance (bs_binding st') = writableInstance (bs_binding st)
  ∧ readonlyInstance (bs_binding st') = readonlyInstance (bs_binding st)
  ∧ (∀ v, v ∈ bs_writable st' ->
          v ∈ bs_writable st ∨ v = writableInstance (bs_binding st))
  ∧ (∀ v, v ∈ bs_readonly st' ->
          v ∈ bs_readonly st ∨ v = readonlyInstance (bs_binding st)).
Proof.
  intros Hel Hcap. destruct op as [entityId index|entityId index|c]; simpl.
  - unfold resetWritableInstance. case_bool_decide; simpl.
    { repeat apply conj; try done; intros v Hv; by left. }
    rewrite Hel, Hcap. simpl.
    repeat apply conj; try done.
    + intros v [-> |Hv]%elem_of_cons; [by right|by left].
    + intros v Hv. by left.
  - unfold resetReadonlyInstance. case_bool_decide; simpl.
    { repeat apply conj; try done; intros v Hv; by left. }
    rewrite Hel, Hcap. simpl.
    repeat apply conj; try done.
    + intros v Hv. by left.
    + intros v [-> |Hv]%elem_of_cons; [by right|by left].
  - rewrite Hel. repeat apply conj; try done; intros v Hv; by left.
Qed.

Lemma fixed_one_run ops st :
  elastic (bs_binding st) = false -> capacity (bs_binding st) = 1 ->
  let st' := bind_run ops st in
  bs_heap st' = bs_heap st
  ∧ writableInstance (bs_binding st') = writableInstance (bs_binding st)
  ∧ readonlyInstance (bs_binding st') = readonlyInstance (bs_binding st)
  ∧ (∀ v, v ∈ bs_writable st' ->
          v ∈ bs_writable st ∨ v = writableInstance (bs_binding st))
  ∧ (∀ v, v ∈ bs_readonly st' ->
          v ∈ bs_readonly st ∨ v = readonlyInstance (bs_binding st)).
Proof.
  revert st. induction ops as [|op ops IH]; intros st Hel Hcap.
  - simpl. repeat apply conj; try done; intros v Hv; by left.
  - destruct (fixed_one_step st op Hel Hcap)
      as (Hel1 & Hcap1 & Hh1 & Hw1 & Hr1 & Hws1 & Hrs1).
    destruct (IH (bind_step st op) Hel1 Hcap1) as (Hh & Hw & Hr & Hws & Hrs).
    simpl. repeat apply conj; try congruence.
    + intros v Hv. destruct (Hws v Hv) as [Hv'| ->]; [by apply Hws1|].
      right. done.
    + intros v Hv. destruct (Hrs v Hv) as [Hv'| ->]; [by apply Hrs1|].
      right. done.
Qed.

(** C6. Views of a binding.  After any run of binds and reallocations of a
    binding,
    - every writable view that was returned and is still valid is the
      current writable instance, so at most one is valid; likewise for the
      read-only views;
    - if the binding is elastic (the only bindings whose storage
      reallocates) or has a capacity above 1, the next bind marks the
      current instance [__invalid] and returns a fresh valid instance in
      its place;
    - if the binding is fixed with capacity 1, every view that was returned
      is the one instance the binding was created with, and it is valid. *)
Theorem view_invalidation (capacity0 : Z) (storage0 : ComponentStorage)
    (elastic0 : bool) (ops : list BindOp) :
  let st := bind_run ops (new_BindState capacity0 storage0 elastic0) in
  let b := bs_binding st in
  let h := bs_heap st in
  (∀ v, v ∈ bs_writable st -> valid_view h v = true -> v = writableInstance b)
  ∧ (∀ v, v ∈ bs_readonly st -> valid_view h v = true -> v = readonlyInstance b)
  ∧ (∀ entityId index,
       elastic b = true ∨ 1 < capacity b -> index ≠ Some (-1) ->
       ∃ v b' h',
         resetWritableInstance b h entityId index = Ok (v, b', h')
         ∧ writableInstance b' = v ∧ v ≠ writableInstance b
         ∧ valid_view h' (writableInstance b) = false
         ∧ valid_view h' v = true)
  ∧ (∀ entityId index,
       elastic b = true ∨ 1 < capacity b -> index ≠ Some (-1) ->
       ∃ v b' h',
         resetReadonlyInstance b h entityId index = Ok (v, b', h')
         ∧ readonlyInstance b' = v ∧ v ≠ readonlyInstance b
         ∧ valid_view h' (readonlyInstance b) = false
         ∧ valid_view h' v = true)
  ∧ (elastic0 = false -> capacity0 = 1 ->
       (∀ v, v ∈ bs_writable st ->
             v = writableInstance b ∧ valid_view h v = true
             ∧ v = writableInstance (bs_binding (new_BindState 1 storage0 false)))
       ∧ (∀ v, v ∈ bs_readonly st ->
             v = readonlyInstance b ∧ valid_view h v = true
             ∧ v = readonlyInstance (bs_binding (new_BindState 1 storage0 false)))).
Proof.
  intros st b h.
  pose proof (bind_run_ok ops _ (new_BindState_ok capacity0 storage0 elastic0))
    as Hok.
  fold st in Hok. destruct Hok as (Hrm & Hwm & Hri & Hwi & Hws & Hrs).
  fold b h in Hrm, Hwm, Hri, Hwi, Hws, Hrs.
  repeat apply conj.
  - intros v Hv Hvalid. rewrite Forall_forall in Hws.
    destruct (Hws v Hv) as [-> |Hm]; [done|].
    apply marked_invalid_not_valid in Hm. congruence.
  - intros v Hv Hvalid. rewrite Forall_forall in Hrs.
    destruct (Hrs v Hv) as [-> |Hm]; [done|].
    apply marked_invalid_not_valid in Hm. congruence.
  - intros entityId index Hcond Hidx. unfold resetWritableInstance.
    rewrite bool_decide_eq_false_2 by done.
    cbn [elastic capacity with_writable writableInstance writableMaster].
    assert (elastic b || (1 <? capacity b) = true) as ->.
    { destruct Hcond as [-> |Hc]; [done|].
      apply orb_true_iff. right. by apply Z.ltb_lt. }
    set (h1 := set_invalid h (writableInstance b) true).
    eexists _, _, _. split; [reflexivity|].
    destruct Hwi as (ob & Ho & Hp).
    assert (marked_invalid h1 (writableInstance b)) as Hold.
    { apply set_invalid_marks. by eexists. }
    apply lookup_lt_Some in Ho as Hlt.
    repeat apply conj.
    + done.
    + simpl. unfold h1. rewrite set_invalid_length. lia.
    + apply marked_invalid_not_valid. by apply (marked_invalid_alloc h1).
    + apply (fresh_valid h1). eapply set_invalid_master; [|exact Hwm].
      by exists ob.
  - intros entityId index Hcond Hidx. unfold resetReadonlyInstance.
    rewrite bool_decide_eq_false_2 by done.
    cbn [elastic capacity with_readonly readonlyInstance readonlyMaster].
    assert (elastic b || (1 <? capacity b) = true) as ->.
    { destruct Hcond as [-> |Hc]; [done|].
      apply orb_true_iff. right. by apply Z.ltb_lt. }
    set (h1 := set_invalid h (readonlyInstance b) true).
    eexists _, _, _. split; [reflexivity|].
    destruct Hri as (ob & Ho & Hp).
    assert (marked_invalid h1 (readonlyInstance b)) as Hold.
    { apply set_invalid_marks. by eexists. }
    apply lookup_lt_Some in Ho as Hlt.
    repeat apply conj.
    + done.
    + simpl. unfold h1. rewrite set_invalid_length. lia.
    + apply marked_invalid_not_valid. by apply (marked_invalid_alloc h1).
    + apply (fresh_valid h1). eapply set_invalid_master; [|exact Hrm].
      by exists ob.
  - intros He Hc. subst elastic0 capacity0.
    destruct (fixed_one_run ops (new_BindState 1 storage0 false) eq_refl eq_refl)
      as (Hh & Hw & Hr & Hvw & Hvr).
    fold st in Hh, Hw, Hr, Hvw, Hvr. fold b in Hw, Hr. fold h in Hh.
    split.
    + intros v Hv.
      destruct (Hvw v Hv) as [Hin| ->]; [by apply elem_of_nil in Hin|].
      by rewrite Hh, Hw.
    + intros v Hv.
      destruct (Hvr v Hv) as [Hin| ->]; [by apply elem_of_nil in Hin|].
      by rewrite Hh, Hr.
Qed.

Lemma view_invalidation_witness :
  let st := bind_run [BindWrite 5 (Some 0); Reallocate 16; BindWrite 6 (Some 1)]
              (new_BindState 8 packed true) in
  (∀ v, v ∈ bs_writable st -> valid_view (bs_heap st) v = true -> v = 5%nat)
  ∧ (∃ v b' h',
       resetWritableInstance (bs_binding st) (bs_heap st) 7 (Some 2)
       = Ok (v, b', h')
       ∧ valid_view h' 5%nat = false ∧ valid_view h' v = true)
  ∧ (∀ v, v ∈ bs_writable
               (bind_run [BindWrite 5 (Some 0); BindWrite 6 (Some 0)]
                  (new_BindState 1 compact false)) -> v = 3%nat).
Proof.
  intros st.
  pose proof (view_invalidation 8 packed true
                [BindWrite 5 (Some 0); Reallocate 16; BindWrite 6 (Some 1)])
    as (Hw & _ & Hnext & _).
  pose proof (view_invalidation 1 compact false
                [BindWrite 5 (Some 0); BindWrite 6 (Some 0)])
    as (_ & _ & _ & _ & Hfixed).
  repeat apply conj.
  - exact Hw.
  - destruct (Hnext 7 (Some 2) (or_introl eq_refl) ltac:(done))
      as (v & b' & h' & Hr & _ & _ & Hold & Hnew).
    by exists v, b', h'.
  - intros v Hv. destruct (Hfixed eq_refl eq_refl) as [Hfw _].
    by destruct (Hfw v Hv) as (_ & _ & ->).
Defined.

(** * Registration *)

Lemma gatherFields_tag type :
  schema type = None ∨ schema type = Some [] -> gatherFields type = Ok [].
Proof. intros [H|H]; unfold gatherFields; by rewrite H. Qed.

Lemma assimilate_tag_storage type dispatcher process h b h' :
  gatherFields type = Ok [] ->
  assimilateComponentType type dispatcher process h = Ok (b, h') ->
  storage b = sparse ∧ elastic b = bool_decide (maxEntities dispatcher = 0).
Proof.
  intros Hf. unfold assimilateComponentType. rewrite Hf. simpl.
  unfold selected_storage. simpl.
  destruct (opt_capacity type); simpl; [done|].
  destruct (opt_restricted type && true); simpl; [done|].
  destruct (not_test_mode process && has_bind type); simpl; [done|].
  unfold new_Binding. simpl. intros [= <- <-]. simpl. split; [done|].
  destruct (maxEntities dispatcher =? 0) eqn:He.
  - apply Z.eqb_eq in He. by rewrite bool_decide_eq_true_2.
  - apply Z.eqb_neq in He. by rewrite bool_decide_eq_false_2.
Qed.

(** C8. Tag components.  For a component type whose schema declares no
    field, whatever its options, the world's default storage and the
    environment are,
    - the storage that registration selects is sparse, and a registration
      that succeeds makes a binding with sparse storage;
    - registration succeeds when the type sets no capacity, is not
      restricted to the main thread and is not in use in another world;
    - the allocated type has no storage manager and no [__free], and its
      [__allocate] binds the entity id itself as index without acquiring a
      slot. *)
Theorem tag_components_sparse (type : ComponentType)
    (dispatcher : DispatcherConfig) (process : option Process) (h : Heap) :
  schema type = None ∨ schema type = Some [] ->
  gatherFields type = Ok []
  ∧ selected_storage [] type dispatcher = sparse
  ∧ (opt_capacity type = None -> opt_restricted type = false ->
     not_test_mode process && has_bind type = false ->
     is_Ok (assimilateComponentType type dispatcher process h) = true)
  ∧ (∀ b h', assimilateComponentType type dispatcher process h = Ok (b, h') ->
       storage b = sparse
       ∧ rt_manager (defineAndAllocateComponentType b (maxEntities dispatcher))
         = NoManager
       ∧ type_free (defineAndAllocateComponentType b (maxEntities dispatcher))
         = None
       ∧ ∀ heap id v rt' heap',
           type_allocate
             (defineAndAllocateComponentType b (maxEntities dispatcher)) heap id
           = Ok (v, rt', heap') ->
           rt_manager rt' = NoManager
           ∧ writableIndex (rt_binding rt') = Some id
           ∧ writableEntityId (rt_binding rt') = id).
Proof.
  intros Htag. pose proof (gatherFields_tag type Htag) as Hf.
  repeat apply conj; try done.
  - intros Hc Hr Hb. unfold assimilateComponentType.
    rewrite Hf. simpl. rewrite Hc, Hr, Hb. done.
  - intros b h' Hreg.
    destruct (assimilate_tag_storage _ _ _ _ _ _ Hf Hreg) as [Hs _].
    assert (defineAndAllocateComponentType b (maxEntities dispatcher)
            = mkRuntime b NoManager) as ->.
    { unfold defineAndAllocateComponentType. by rewrite Hs. }
    repeat apply conj; try done.
    intros heap id v rt' heap'. unfold type_allocate. simpl.
    unfold resetWritableInstance. case_bool_decide; [done|].
    destruct (_ || _); simpl; intros [= <- <- <-]; done.
Qed.

Lemma tag_components_sparse_witness :
  let tag := mkType None (Some (mkOptions (Some packed) None (Some 4) false))
               false in
  let world := mkConfig compact 100 in
  ∃ b h', assimilateComponentType tag world None [] = Ok (b, h')
          ∧ storage b = sparse
          ∧ rt_manager (defineAndAllocateComponentType b 100) = NoManager.
Proof.
  intros tag world.
  destruct (tag_components_sparse tag world None [] (or_introl eq_refl))
    as (_ & _ & Hok & Hreg).
  specialize (Hok eq_refl eq_refl eq_refl).
  destruct (assimilateComponentType tag world None []) as [[b h']|e] eqn:Hr;
    [|discriminate Hok].
  exists b, h'. split; [done|].
  destruct (Hreg b h' eq_refl) as (Hs & Hm & _). done.
Defined.

(** * The world *)

Lemma not_test_mode_false process :
  not_test_mode process = false <->
  ∃ pr, process = Some pr ∧ NODE_ENV pr = Some "test"%string.
Proof.
  unfold not_test_mode. destruct process as [pr|]; [|split; [done|by intros (?&?&?)]].
  split.
  - intros H. exists pr. split; [done|].
    apply negb_false_iff in H. by apply bool_decide_eq_true_1 in H.
  - intros (pr' & [= <-] & He). by rewrite bool_decide_eq_true_2.
Qed.

Section WorldFacts.
Context {Dispatcher Callback Components : Type}.
Variable dispatcher_state : Dispatcher -> State.
Variable dispatcher_executeFunction : Dispatcher -> Callback -> Res Dispatcher.
Variable dispatcher_createEntity : Dispatcher -> Components -> Res Dispatcher.

(** C9. The guard of [build] and [createEntity].  Whenever the state of
    the dispatcher is not [setup] and the process does not run in test
    mode, [World.build] and [World.createEntity] throw the [CheckError]
    "This method cannot be called after the world has started executing";
    in the [setup] state, and in test mode ([process] is defined and
    [NODE_ENV] is "test") in any state, both calls go on to the
    dispatcher. *)
Theorem build_and_createEntity_guard (process : option Process)
    (w : Dispatcher) (callback : Callback) (initialComponents : Components) :
  let build :=
    World_build dispatcher_state dispatcher_executeFunction process w
      callback in
  let createEntity :=
    World_createEntity dispatcher_state dispatcher_createEntity process w
      initialComponents in
  (dispatcher_state w ≠ setup -> not_test_mode process = true ->
     build = Throw started_executing
     ∧ createEntity = Throw started_executing)
  ∧ (dispatcher_state w = setup ->
     build = dispatcher_executeFunction w callback
     ∧ createEntity = dispatcher_createEntity w initialComponents)
  ∧ ((∃ pr, process = Some pr ∧ NODE_ENV pr = Some "test"%string) ->
     build = dispatcher_executeFunction w callback
     ∧ createEntity = dispatcher_createEntity w initialComponents).
Proof.
  cbv zeta. unfold World_build, World_createEntity, check_setup.
  repeat apply conj.
  - intros Hs Ht. rewrite bool_decide_eq_false_2, Ht by done. done.
  - intros Hs. rewrite bool_decide_eq_true_2 by done. done.
  - intros Ht%not_test_mode_false. rewrite Ht, andb_false_r. done.
Qed.
End WorldFacts.

Lemma build_and_createEntity_guard_witness :
  World_build (fun st : State => st) (fun st (_ : unit) => Ok st)
    (Some (mkProcess (Some "development"%string))) running tt
  = Throw started_executing
  ∧ World_createEntity (fun st : State => st) (fun st (_ : unit) => Ok st)
      None quiescent tt
    = Throw started_executing
  ∧ World_build (fun st : State => st) (fun st (_ : unit) => Ok st)
      (Some (mkProcess (Some "development"%string))) setup tt
    = Ok setup
  ∧ World_createEntity (fun st : State => st) (fun st (_ : unit) => Ok st)
      (Some (mkProcess (Some "test"%string))) running tt
    = Ok running.
Proof.
  repeat apply conj.
  - refine (proj1 (proj1 (build_and_createEntity_guard (fun st : State => st)
      (fun st (_ : unit) => Ok st) (fun st (_ : unit) => Ok st)
      (Some (mkProcess (Some "development"%string))) running tt tt) _ _));
      done.
  - refine (proj2 (proj1 (build_and_createEntity_guard (fun st : State => st)
      (fun st (_ : unit) => Ok st) (fun st (_ : unit) => Ok st)
      None quiescent tt tt) _ _)); done.
  - refine (proj1 (proj1 (proj2 (build_and_createEntity_guard
      (fun st : State => st) (fun st (_ : unit) => Ok st)
      (fun st (_ : unit) => Ok st)
      (Some (mkProcess (Some "development"%string))) setup tt tt)) _)); done.
  - refine (proj2 (proj2 (proj2 (build_and_createEntity_guard
      (fun st : State => st) (fun st (_ : unit) => Ok st)
      (fun st (_ : unit) => Ok st)
      (Some (mkProcess (Some "test"%string))) running tt tt)) _)).
    by eexists.
Defined.

(** * The topological order *)

Lemma strictly_before_cons_head (u v : nat) (l : list nat) :
  v ∈ l -> strictly_before u v (u :: l).
Proof.
  intros (j & Hj)%list_elem_of_lookup. exists 0%nat, (S j). repeat split; [done|lia].
Qed.

Lemma strictly_before_cons_tail (x u v : nat) (l : list nat) :
  strictly_before u v l -> strictly_before u v (x :: l).
Proof.
  intros (i & j & Hi & Hj & Hlt). exists (S i), (S j). repeat split; [done..|lia].
Qed.

Lemma is_source_spec es remaining v :
  is_source es remaining v = true ->
  ∀ u w, (u, v, w) ∈ es -> u ∉ remaining.
Proof.
  unfold is_source. rewrite forallb_forall. intros Hall u w Hin Hu.
  apply list_elem_of_In in Hin. specialize (Hall _ Hin). simpl in Hall.
  apply negb_true_iff, bool_decide_eq_false_1 in Hall. by apply Hall.
Qed.

Lemma find_source es remaining v :
  List.find (is_source es remaining) remaining = Some v ->
  v ∈ remaining ∧ is_source es remaining v = true.
Proof.
  intros [Hin Hs]%find_some. split; [by apply list_elem_of_In|done].
Qed.

Lemma sort_from_step fuel es remaining :
  remaining ≠ [] ->
  sort_from (S fuel) es remaining
  = match List.find (is_source es remaining) remaining with
    | None => None
    | Some v =>
        rest ← sort_from fuel es (filter (fun u => u ≠ v) remaining);
        Some (v :: rest)
    end.
Proof. by destruct remaining. Qed.

(** The order that [sort_from] returns lists exactly the remaining
    vertices, once each, and respects every edge between two of them. *)
Lemma sort_from_sound fuel es remaining order :
  sort_from fuel es remaining = Some order ->
  (∀ x, x ∈ order <-> x ∈ remaining)
  ∧ NoDup order
  ∧ ∀ u v w, (u, v, w) ∈ es -> u ∈ remaining -> v ∈ remaining ->
             strictly_before u v order.
Proof.
  revert remaining order. induction fuel as [|fuel IH]; intros remaining order.
  - destruct remaining; [|done]. simpl. intros [= <-].
    split; [done|]. split; [apply NoDup_nil_2|].
    intros u v w _ Hu. by apply elem_of_nil in Hu.
  - destruct (decide (remaining = [])) as [->|Hne].
    { simpl. intros [= <-]. split; [done|]. split; [apply NoDup_nil_2|].
      intros u v w _ Hu. by apply elem_of_nil in Hu. }
    rewrite sort_from_step by done.
    destruct (List.find _ _) as [v0|] eqn:Hfind; [|done].
    destruct (sort_from fuel es _) as [rest|] eqn:Hrest; [|done].
    simpl. intros [= <-].
    destruct (find_source _ _ _ Hfind) as [Hv0 Hsrc].
    destruct (IH _ _ Hrest) as (Hmem & Hnd & Hedges).
    assert (∀ x, x ∈ rest <-> x ∈ remaining ∧ x ≠ v0) as Hmem'.
    { intros x. rewrite Hmem, list_elem_of_filter. tauto. }
    split; [|split].
    + intros x. rewrite elem_of_cons, Hmem'. split.
      * intros [->|[Hx _]]; done.
      * intros Hx. destruct (decide (x = v0)); [by left|by right].
    + apply NoDup_cons. split; [|done]. intros Hin. by apply Hmem' in Hin as [_ ?].
    + intros u v w He Hu Hv.
      assert (v ≠ v0) as Hvne.
      { intros ->. by apply (is_source_spec _ _ _ Hsrc u w). }
      destruct (decide (u = v0)) as [->|Hune].
      * apply strictly_before_cons_head. by apply Hmem'.
      * apply strictly_before_cons_tail. apply (Hedges u v w He).
        -- apply list_elem_of_filter. by split.
        -- apply list_elem_of_filter. by split.
Qed.

(** * The edges that the planner adds *)

Lemma addEdge_vertices g u v w : vertices (addEdge g u v w) = vertices g.
Proof. done. Qed.

Lemma add_writers_of_spec ws reader g :
  vertices (add_writers_of ws reader g) = vertices g
  ∧ edges (add_writers_of ws reader g)
    = edges g ++ map (fun writer => (writer, reader, 1)) ws.
Proof.
  unfold add_writers_of. revert g. induction ws as [|w ws IH]; intros g.
  - simpl. by rewrite app_nil_r.
  - simpl. destruct (IH (addEdge g w reader 1)) as [Hv He].
    rewrite Hv, He. simpl. by rewrite <- app_assoc.
Qed.

Lemma add_readers_of_spec writers c systems g g' :
  add_readers_of writers c systems g = Ok g' ->
  vertices g' = vertices g
  ∧ (∀ e, e ∈ edges g -> e ∈ edges g')
  ∧ (∀ e, e ∈ edges g' -> e ∈ edges g ∨ e.2 = 1)
  ∧ ∀ reader ws writer,
      reader ∈ systems -> table_get writers c = Some ws -> writer ∈ ws ->
      (writer, reader, 1) ∈ edges g'.
Proof.
  revert g. induction systems as [|r rest IH]; intros g.
  - simpl. intros [= <-]. repeat split; try done; [by left|].
    intros reader ws writer Hin. by apply elem_of_nil in Hin.
  - simpl. destruct (table_get writers c) as [ws0|] eqn:Hget; [|done].
    intros Hrun. destruct (IH _ Hrun) as (Hv & Hsub & Hnew & Hadd).
    destruct (add_writers_of_spec ws0 r g) as [Hv0 He0].
    repeat split.
    + congruence.
    + intros e He. apply Hsub. rewrite He0. apply elem_of_app. by left.
    + intros e He. destruct (Hnew e He) as [He'|He']; [|by right].
      rewrite He0 in He'. apply elem_of_app in He' as [He'|He']; [by left|].
      right. apply list_elem_of_fmap in He' as (w & -> & _). done.
    + intros reader ws writer Hin [= <-] Hw.
      apply elem_of_cons in Hin as [->|Hin].
      * apply Hsub. rewrite He0. apply elem_of_app. right.
        apply list_elem_of_fmap. by exists writer.
      * by apply (Hadd reader ws0 writer).
Qed.

Lemma add_entries_spec writers entries g g' :
  add_entries writers entries g = Ok g' ->
  vertices g' = vertices g
  ∧ (∀ e, e ∈ edges g -> e ∈ edges g')
  ∧ (∀ e, e ∈ edges g' -> e ∈ edges g ∨ e.2 = 1)
  ∧ ∀ c systems reader ws writer,
      (c, systems) ∈ entries -> reader ∈ systems ->
      table_get writers c = Some ws -> writer ∈ ws ->
      (writer, reader, 1) ∈ edges g'.
Proof.
  revert g. induction entries as [|[c0 systems0] rest IH]; intros g.
  - simpl. intros [= <-]. repeat split; try done; [by left|].
    intros c systems reader ws writer Hin. by apply elem_of_nil in Hin.
  - simpl. destruct (add_readers_of writers c0 systems0 g) as [g1|] eqn:H1; [|done].
    simpl. intros Hrun.
    destruct (add_readers_of_spec _ _ _ _ _ H1) as (Hv1 & Hsub1 & Hnew1 & Hadd1).
    destruct (IH _ Hrun) as (Hv & Hsub & Hnew & Hadd).
    repeat split.
    + congruence.
    + intros e He. by apply Hsub, Hsub1.
    + intros e He. destruct (Hnew e He) as [He'|He']; [|by right].
      by apply Hnew1.
    + intros c systems reader ws writer Hin Hr Hget Hw.
      apply elem_of_cons in Hin as [[= -> ->]|Hin].
      * apply Hsub. by apply (Hadd1 reader ws writer).
      * by apply (Hadd c systems reader ws writer).
Qed.

Lemma make_plans_lookup p groups plans (i : nat) group plan :
  make_plans p groups = Ok plans ->
  groups !! i = Some group -> plans !! i = Some plan ->
  new_SimplePlan p group = Ok plan.
Proof.
  revert plans i. induction groups as [|g0 rest IH]; intros plans i; [done|].
  simpl. destruct (new_SimplePlan p g0) as [plan0|] eqn:H0; [|done]. simpl.
  destruct (make_plans p rest) as [plans0|] eqn:Hrest; [|done]. simpl.
  intros [= <-]. destruct i as [|i]; simpl.
  - by intros [= <-] [= <-].
  - intros Hg Hp. by apply (IH plans0 i).
Qed.

Lemma gives_way_false es e :
  (∀ e', e' ∈ es -> e'.1.1 = e.1.2 -> e'.1.2 = e.1.1 -> e'.2 <= e.2) ->
  gives_way es e = false.
Proof.
  intros Hall. unfold gives_way. apply not_true_iff_false.
  intros (e' & Hin & Hd)%existsb_exists.
  apply bool_decide_eq_true_1 in Hd as (H1 & H2 & H3).
  apply list_elem_of_In in Hin. specialize (Hall e' Hin H1 H2). lia.
Qed.

(** What [organize] resolves: the plan of a group lists the systems of the
    group, each once, and keeps every edge in force of the subgraph that the
    group induces on the graph with the entitlement edges added. *)
Lemma organize_sound (p : Planner) (groups : list (list nat))
    (plans : list SimplePlan) (i : nat) group plan :
  organize p groups = Ok plans ->
  groups !! i = Some group -> plans !! i = Some plan ->
  ∃ g, add_entries (writers p) (readers p) (graph p) = Ok g
    ∧ (∀ x, x ∈ plan_systems plan <-> x ∈ vertices (graph p) ∧ x ∈ group)
    ∧ NoDup (plan_systems plan)
    ∧ ∀ u v weight, (u, v, weight) ∈ in_force (induceSubgraph g group) ->
        u ∈ vertices (graph p) -> v ∈ vertices (graph p) ->
        u ∈ group -> v ∈ group ->
        strictly_before u v (plan_systems plan).
Proof.
  unfold organize, addComponentEntitlementDependencies.
  destruct (add_entries (writers p) (readers p) (graph p)) as [g|] eqn:Hadd;
    [|done].
  simpl. unfold seal. destruct (topologicallySortedVertices g); [|done]. simpl.
  intros Hplans Hg Hp. exists g. split; [done|].
  pose proof (make_plans_lookup _ _ _ _ _ _ Hplans Hg Hp) as Hplan.
  unfold new_SimplePlan in Hplan. simpl in Hplan.
  destruct (topologicallySortedVertices _) as [order|] eqn:Hsort; [|done].
  injection Hplan as <-. simpl.
  destruct (add_entries_spec _ _ _ _ Hadd) as (Hv & _).
  destruct (sort_from_sound _ _ _ _ Hsort) as (Hmem & Hnd & Hord).
  simpl in Hmem, Hord.
  split; [|split; [done|]].
  - intros x. rewrite Hmem, list_elem_of_filter, Hv. tauto.
  - intros u v weight He Hu Hv' Hug Hvg. apply (Hord u v weight He).
    + apply list_elem_of_filter. split; [done|]. by rewrite Hv.
    + apply list_elem_of_filter. split; [done|]. by rewrite Hv.
Qed.

(** The edge of an entitlement stays in force in the subgraph of a group
    unless an explicit constraint goes the other way. *)
Lemma entitlement_in_force (p : Planner) g group c systems ws writer reader :
  add_entries (writers p) (readers p) (graph p) = Ok g ->
  (c, systems) ∈ readers p -> table_get (writers p) c = Some ws ->
  writer ∈ ws -> reader ∈ systems ->
  writer ∈ group -> reader ∈ group ->
  no_constraint_before p reader writer ->
  (writer, reader, 1) ∈ in_force (induceSubgraph g group).
Proof.
  intros Hadd Hc Hws Hw Hr Hwg Hrg Hno.
  destruct (add_entries_spec _ _ _ _ Hadd) as (_ & _ & Hnew & Hedges).
  unfold in_force. apply list_elem_of_filter. split.
  - apply gives_way_false. intros [[u v] weight] He' Hu Hv'. simpl in *.
    subst u v. apply list_elem_of_filter in He' as [_ He'].
    destruct (Hnew _ He') as [Hold|Hone]; simpl in *; [|lia].
    by apply Hno.
  - simpl. apply list_elem_of_filter. split; [done|].
    by apply (Hedges c systems reader ws writer).
Qed.



(** Without explicit constraints every writer comes before every reader. *)
Lemma writers_first_unconstrained p groups plans :
  edges (graph p) = [] -> organize p groups = Ok plans ->
  writers_first p groups plans.
Proof.
  intros Hnone Hrun i group plan Hg Hp c systems ws writer reader
    Hc Hws Hw Hr Hwv Hrv Hwg Hrg.
  destruct (organize_sound p groups plans i group plan Hrun Hg Hp)
    as (g & Hadd & _ & _ & Hord).
  apply (Hord writer reader 1); try done.
  apply (entitlement_in_force p g group c systems ws); try done.
  intros weight Hin. rewrite Hnone in Hin. by apply elem_of_nil in Hin.
Qed.


(** * The execution of a plan *)

Section ExecuteFacts.
Context {World : Type}.
Variable system_execute : nat -> Z -> Z -> World -> Res World.
Variable dispatcher_flush : World -> Res World.

Lemma traced_execute_eq s time delta w tr :
  traced_execute system_execute s time delta (w, tr)
  = (w1 ← system_execute s time delta w; Ok (w1, tr ++ [SystemExecuted s])).
Proof. done. Qed.

Lemma traced_flush_eq w tr :
  traced_flush dispatcher_flush (w, tr)
  = (w1 ← dispatcher_flush w; Ok (w1, tr ++ [Flushed])).
Proof. done. Qed.

(** What a complete run records: each system, then a flush. *)
Lemma traced_loop systems time delta w tr w' tr' :
  execute_loop (traced_execute system_execute) (traced_flush dispatcher_flush)
    systems time delta (w, tr) = Ok (w', tr') ->
  tr' = tr ++ flat_map (fun s => [SystemExecuted s; Flushed]) systems
  ∧ execute_loop system_execute dispatcher_flush systems time delta w = Ok w'.
Proof.
  revert w tr. induction systems as [|s rest IH]; intros w tr.
  - simpl. intros [= <- <-]. by rewrite app_nil_r.
  - cbn [execute_loop flat_map]. rewrite traced_execute_eq.
    destruct (system_execute s time delta w) as [w1|] eqn:H1; [|done].
    cbn [mbind Res_bind]. rewrite traced_flush_eq.
    destruct (dispatcher_flush w1) as [w2|] eqn:H2; [|done].
    cbn [mbind Res_bind].
    intros Hrun. destruct (IH _ _ Hrun) as [-> Hplain].
    split; [|done]. rewrite <- !app_assoc. done.
Qed.

(** Recording does not change the run. *)
Lemma plain_loop systems time delta w tr w' :
  execute_loop system_execute dispatcher_flush systems time delta w = Ok w' ->
  execute_loop (traced_execute system_execute) (traced_flush dispatcher_flush)
    systems time delta (w, tr)
  = Ok (w', tr ++ flat_map (fun s => [SystemExecuted s; Flushed]) systems).
Proof.
  revert w tr. induction systems as [|s rest IH]; intros w tr.
  - simpl. intros [= <-]. by rewrite app_nil_r.
  - cbn [execute_loop flat_map]. rewrite traced_execute_eq.
    destruct (system_execute s time delta w) as [w1|] eqn:H1; [|done].
    cbn [mbind Res_bind]. rewrite traced_flush_eq.
    destruct (dispatcher_flush w1) as [w2|] eqn:H2; [|done].
    cbn [mbind Res_bind].
    intros Hrun. rewrite (IH _ _ Hrun). rewrite <- !app_assoc. done.
Qed.
End ExecuteFacts.

Section DeferredFacts.
Context {Effect : Type}.
Variable enqueued_by : nat -> Z -> Z -> list Effect -> list Effect.

(** A run that starts with nothing pending enters every system with
    nothing pending, and what a system enqueued is applied when the next
    one is entered. *)
Lemma deferred_loop systems time delta (w : Deferred Effect) :
  pending w = [] ->
  ∃ w' es,
    execute_loop (deferred_execute enqueued_by) deferred_flush
      systems time delta w = Ok w'
    ∧ entered w' = entered w ++ es
    ∧ pending w' = []
    ∧ es.*1.*1 = systems
    ∧ Forall (fun e => e.2 = []) es
    ∧ (∀ e, head es = Some e -> e.1.2 = applied w)
    ∧ (∀ (k : nat) e1 e2, es !! k = Some e1 -> es !! S k = Some e2 ->
         e2.1.2 = e1.1.2 ++ enqueued_by e1.1.1 time delta e1.1.2).
Proof.
  revert w. induction systems as [|s rest IH]; intros w Hp.
  - exists w, []. simpl. rewrite app_nil_r. repeat split; try done.
  - simpl. unfold deferred_execute at 1, deferred_flush at 1. simpl.
    set (w1 := mkDeferred _ _ _).
    destruct (IH w1 eq_refl) as (w' & es & Hrun & Hent & Hpend & Hsys & Hall
                                & Hhead & Hnext).
    exists w', ((s, applied w, pending w) :: es).
    split; [done|]. split.
    { rewrite Hent. unfold w1. simpl. by rewrite <- app_assoc. }
    split; [done|]. split; [rewrite !fmap_cons; by f_equal|]. split.
    { apply Forall_cons. by split. }
    split; [by intros e [= <-]|].
    intros k e1 e2. destruct k as [|k]; simpl.
    + intros [= <-] H2. simpl. rewrite (Hhead e2).
      * unfold w1. simpl. by rewrite Hp, app_nil_l.
      * by destruct es.
    + apply Hnext.
Qed.
End DeferredFacts.

(** C2. Execution order and flush discipline.  [SimplePlan.execute] runs
    the systems of the plan one at a time in the order of the plan, and the
    dispatcher flushes right after each of them and before the next: for
    any system behaviour and any flush, a run that completes records
    exactly "system, flush" for each system in plan order, and recording
    does not change the run.  With deferred effects, every system is
    entered with no effect pending, and the effects a system enqueued are
    applied when the next system is entered. *)
Theorem execute_order_and_flush {World Effect : Type}
    (system_execute : nat -> Z -> Z -> World -> Res World)
    (dispatcher_flush : World -> Res World)
    (enqueued_by : nat -> Z -> Z -> list Effect -> list Effect)
    (plan : SimplePlan) (time delta : Z) :
  (∀ w tr w' tr',
     SimplePlan_execute (traced_execute system_execute)
       (traced_flush dispatcher_flush) plan time delta (w, tr) = Ok (w', tr') ->
     tr' = tr ++ flat_map (fun s => [SystemExecuted s; Flushed]) (plan_systems plan))
  ∧ (∀ w w',
       SimplePlan_execute system_execute dispatcher_flush plan time delta w
       = Ok w' ->
       SimplePlan_execute (traced_execute system_execute)
         (traced_flush dispatcher_flush) plan time delta (w, [])
       = Ok (w', flat_map (fun s => [SystemExecuted s; Flushed]) (plan_systems plan)))
  ∧ (∀ w : Deferred Effect, pending w = [] -> entered w = [] ->
       ∃ w',
         SimplePlan_execute (deferred_execute enqueued_by) deferred_flush
           plan time delta w = Ok w'
         ∧ pending w' = []
         ∧ (entered w').*1.*1 = plan_systems plan
         ∧ Forall (fun e => e.2 = []) (entered w')
         ∧ ∀ (k : nat) e1 e2,
             entered w' !! k = Some e1 -> entered w' !! S k = Some e2 ->
             e2.1.2 = e1.1.2 ++ enqueued_by e1.1.1 time delta e1.1.2).
Proof.
  unfold SimplePlan_execute. repeat apply conj.
  - intros w tr w' tr' Hrun. by destruct (traced_loop _ _ _ _ _ _ _ _ _ Hrun).
  - intros w w' Hrun. by apply (plain_loop _ _ _ _ _ _ []).
  - intros w Hp He.
    destruct (deferred_loop enqueued_by (plan_systems plan) time delta w Hp)
      as (w' & es & Hrun & Hent & Hpend & Hsys & Hall & _ & Hnext).
    rewrite He in Hent. simpl in Hent. subst es. by exists w'.
Qed.

Lemma execute_order_and_flush_witness :
  SimplePlan_execute
    (traced_execute (fun s (_ _ : Z) (w : Z) => Ok (w * 10 + Z.of_nat s)))
    (traced_flush (fun w : Z => Ok (w + 1)))
    (mkPlan [3; 0; 1]%nat) 0 0 (0, [])
  = Ok (412,
        [SystemExecuted 3; Flushed; SystemExecuted 0; Flushed;
         SystemExecuted 1; Flushed]).
Proof.
  refine (proj1 (proj2 (execute_order_and_flush
    (fun s (_ _ : Z) (w : Z) => Ok (w * 10 + Z.of_nat s))
    (fun w : Z => Ok (w + 1)) (fun _ _ _ (_ : list unit) => [])
    (mkPlan [3; 0; 1]%nat) 0 0)) 0 412 _).
  reflexivity.
Defined.

(** * The resurrection scenario *)



(** * Coroutines *)

(** A pass that ends within some fuel gives the same engine with more. *)
Lemma pass_stable fuel fuel' t processed e :
  pass_ends fuel t processed e = true -> (fuel <= fuel')%nat ->
  pass fuel' t processed e = pass fuel t processed e.
Proof.
  revert fuel' processed e. induction fuel as [|fuel IH];
    intros fuel' processed e Hend Hle; [done|].
  destruct fuel' as [|fuel']; [lia|]. simpl in *.
  case_bool_decide; [|done]. apply IH; [done|lia].
Qed.

Lemma nested_counters fuel t :
  (3 <= fuel)%nat -> t = timing_of_spec ∨ t = timing_of_tests ->
  counters_after_two_frames fuel t = (2, 7).
Proof.
  intros Hfuel Ht. unfold counters_after_two_frames, execute_frame, create.
  destruct Ht as [-> | ->]; cbn [advance_on_initialize timing_of_spec timing_of_tests].
  - rewrite (pass_stable 3 fuel _ _ (StartNestedCoroutine_initialize _))
      by (done || by vm_compute).
    rewrite (pass_stable 3 fuel _ _ (pass 3 _ _ _)) by (done || by vm_compute).
    rewrite (pass_stable 3 fuel _ _ (pass 3 _ _ (pass 3 _ _ _)))
      by (done || by vm_compute).
    by vm_compute.
  - rewrite (pass_stable 3 fuel _ _ (StartNestedCoroutine_initialize _))
      by (done || by vm_compute).
    rewrite (pass_stable 3 fuel _ _ (pass 3 _ _ _)) by (done || by vm_compute).
    by vm_compute.
Qed.



(** * Packed storage: what a run never does *)

Lemma growSpares_index s : p_index (p_growSpares s) = p_index s.
Proof. unfold p_growSpares, updateSpares. done. Qed.

Lemma get_elems a b i : TA.elems a = TA.elems b -> TA.get a i = TA.get b i.
Proof. unfold TA.get. by intros ->. Qed.

Lemma acquire_frame s id r s' j :
  packed_wf s -> p_acquireIndex s id = Ok (r, s') -> j ≠ id ->
  TA.get (p_index s') j = TA.get (p_index s) j.
Proof.
  intros Hwf Hrun Hne. pose proof Hwf as Hwf'. wf_names Hwf'.
  unfold p_acquireIndex in Hrun.
  case_bool_decide as Hg; [|by injection Hrun as <- <-].
  destruct (0 <? TA.at_ (p_spares s) 3) eqn:Hpos.
  { injection Hrun as <- <-. proj_simpl. by rewrite get_set_ne. }
  destruct (TA.at_ (p_spares s) 1 =? TA.at_ (p_spares s) 2) eqn:Hfull.
  - destruct (p_elastic s) eqn:Hel; simpl in Hrun; [|done].
    destruct (p_capacity s =? p_maxEntities s) eqn:Hcm; [done|].
    simpl in Hrun. injection Hrun as <- <-. proj_simpl.
    rewrite get_set_ne by done.
    pose proof (allocated_lt s id Hg) as Hal.
    fold (numSpares s) in Hpos. fold (nextIndex s) in Hfull.
    assert (p_capacity s < Z.min (p_maxEntities s) (p_capacity s * 2) < 2 ^ 31)
      as Hc' by lia.
    destruct (grow_step s _ Hwf Hc') as (_ & _ & _ & _ & _ & Hel1 & _).
    rewrite Hel in Hel1. by apply get_elems.
  - simpl in Hrun. injection Hrun as <- <-. proj_simpl. by rewrite get_set_ne.
Qed.

Lemma release_frame s id s' j :
  p_releaseIndex s id = Ok s' -> j ≠ id ->
  TA.get (p_index s') j = TA.get (p_index s) j.
Proof.
  unfold p_releaseIndex. case_bool_decide; [done|].
  intros [= <-] Hne. proj_simpl. rewrite get_set_ne by done.
  destruct (_ =? _); [by rewrite growSpares_index|done].
Qed.

Section FilterInsert.
Context {A : Type} (P : A -> Prop) `{!∀ x, Decision (P x)}.

Lemma filter_insert_perm (l : list A) (i : nat) (x y : A) :
  l !! i = Some x ->
  (if decide (P x) then [x] else []) ++ filter P (<[i:=y]> l)
  ≡ₚ (if decide (P y) then [y] else []) ++ filter P l.
Proof.
  revert i. induction l as [|a l IH]; intros [|i] Hi; try done.
  - simpl in Hi. injection Hi as ->. simpl.
    rewrite !filter_cons. repeat case_decide; simpl; try done.
    apply perm_swap.
  - simpl in Hi. simpl. rewrite !filter_cons.
    specialize (IH i Hi). destruct (decide (P a)); [|done].
    rewrite <- !Permutation_middle. by f_equiv.
Qed.

Lemma NoDup_filter_lookup (l : list A) (i j : nat) (x : A) :
  NoDup (filter P l) -> l !! i = Some x -> l !! j = Some x -> P x -> i = j.
Proof.
  revert i j. induction l as [|a l IH]; intros i j Hnd Hi Hj Hx; [done|].
  rewrite filter_cons in Hnd.
  assert (∀ k, l !! k = Some x -> x ∈ filter P l) as Hin.
  { intros k Hk. apply list_elem_of_filter. split; [done|].
    by apply list_elem_of_lookup_2 in Hk. }
  destruct i as [|i], j as [|j]; simpl in *; try done.
  - injection Hi as ->. rewrite decide_True in Hnd by done.
    apply NoDup_cons in Hnd as [Hnot _]. destruct Hnot. by apply (Hin j).
  - injection Hj as ->. rewrite decide_True in Hnd by done.
    apply NoDup_cons in Hnd as [Hnot _]. destruct Hnot. by apply (Hin i).
  - f_equal. apply IH; try done.
    destruct (decide (P a)); [by apply NoDup_cons in Hnd as [_ ?]|done].
Qed.
End FilterInsert.

(** The cells of the index after the cell of [id] has been given [v]. *)
Lemma index_update s s' id v :
  TA.length (p_index s') = TA.length (p_index s) ->
  0 <= id < TA.length (p_index s) ->
  (∀ j, j ≠ id -> TA.get (p_index s') j = TA.get (p_index s) j) ->
  TA.get (p_index s') id = Some v ->
  TA.elems (p_index s') = <[Z.to_nat id := v]> (TA.elems (p_index s)).
Proof.
  intros Hlen Hid Hframe Hv. apply list_eq. intros k.
  destruct (decide (k = Z.to_nat id)) as [->|Hk].
  - rewrite list_lookup_insert_eq by (unfold TA.length in Hid; lia).
    unfold TA.get in Hv. by rewrite decide_True in Hv by lia.
  - rewrite list_lookup_insert_ne by done.
    specialize (Hframe (Z.of_nat k) ltac:(lia)). unfold TA.get in Hframe.
    rewrite !decide_True, Nat2Z.id in Hframe by lia. done.
Qed.

Lemma held_update s s' id old v :
  TA.get (p_index s) id = Some old ->
  TA.elems (p_index s') = <[Z.to_nat id := v]> (TA.elems (p_index s)) ->
  (if decide (old ≠ -1) then [old] else []) ++ held_slots s'
  ≡ₚ (if decide (v ≠ -1) then [v] else []) ++ held_slots s.
Proof.
  intros Hold Hel. unfold held_slots. rewrite Hel.
  pose proof (filter_insert_perm (fun v : Z => v ≠ -1) (TA.elems (p_index s))
                (Z.to_nat id) old v) as Hp.
  apply Hp. unfold TA.get in Hold. by destruct (decide (0 <= id)).
Qed.

Lemma acquire_exclusive s id r s' :
  packed_wf s -> exclusive s -> p_acquireIndex s id = Ok (r, s') ->
  exclusive s'.
Proof.
  intros Hwf Hex Hrun. pose proof Hwf as Hwf'. wf_names Hwf'.
  destruct (decide (TA.get (p_index s) id = Some (-1))) as [Hg|Hg]; cycle 1.
  { unfold p_acquireIndex in Hrun.
    rewrite bool_decide_eq_false_2 in Hrun by done. congruence. }
  pose proof (acquire_wf _ _ _ _ Hwf Hrun) as Hwf2.
  pose proof (acquire_keeps _ _ _ _ Hrun) as (Hmax2 & _).
  assert (TA.length (p_index s') = TA.length (p_index s)) as Hlen.
  { destruct Hwf2 as (_ & Hil2 & _). congruence. }
  pose proof (get_Some_lt _ _ _ Hg) as Hid.
  assert (∀ v, TA.get (p_index s') id = Some v -> v ≠ -1 ->
            held_slots s' ≡ₚ v :: held_slots s) as Hheld.
  { intros v Hv Hne.
    pose proof (index_update s s' id v Hlen Hid
                  (fun j Hj => acquire_frame s id r s' j Hwf Hrun Hj) Hv) as Hel.
    pose proof (held_update s s' id (-1) v Hg Hel) as Hp.
    rewrite decide_False in Hp by lia. by rewrite decide_True in Hp by done. }
  unfold exclusive in *.
  destruct (free_list s) as [|slot l _] eqn:Hfree using rev_ind.
  - assert (∃ s2, p_acquireIndex s id = Ok (Some (nextIndex s), s2)
                  ∧ free_list s2 = []
                  ∧ TA.get (p_index s2) id = Some (nextIndex s))
      as (s2 & Hr & Hf2 & Hg2).
    { destruct (decide (nextIndex s = p_capacity s)) as [He|He].
      - destruct (p_elastic s) eqn:Hel.
        + destruct (acquire_grow s id Hwf Hg Hfree He Hel)
            as (s2 & Hr & _ & Hf2 & _ & _ & _ & _ & Hg2). by exists s2.
        + unfold p_acquireIndex in Hrun.
          rewrite bool_decide_eq_true_2 in Hrun by done.
          apply free_list_nil in Hfree; [|done].
          fold (numSpares s) (nextIndex s) in Hrun.
          rewrite Hfree, Hc2, He, Z.eqb_refl, Hel in Hrun. done.
      - destruct (acquire_fresh s id Hwf Hg Hfree ltac:(lia))
          as (s2 & Hr & _ & Hf2 & _ & _ & Hg2). by exists s2. }
    rewrite Hrun in Hr. injection Hr as -> <-.
    rewrite Hf2, app_nil_r. rewrite app_nil_r in Hex.
    rewrite (Hheld _ Hg2 ltac:(lia)). apply NoDup_cons. split; [|done].
    intros Hin. apply list_elem_of_filter in Hin as [_ Hin].
    rewrite Forall_forall in Hiv. specialize (Hiv _ Hin). lia.
  - destruct (acquire_pop s id l slot Hwf Hg Hfree)
      as (s2 & Hr & _ & Hf2 & _ & _ & Hg2).
    rewrite Hrun in Hr. injection Hr as -> <-.
    apply Forall_app in Hfl as [_ Hslot].
    rewrite Forall_singleton in Hslot.
    rewrite Hf2, (Hheld _ Hg2 ltac:(lia)).
    rewrite (Permutation_app_comm l [slot]) in Hex. simpl in Hex.
    rewrite <- Permutation_middle in Hex. exact Hex.
Qed.

Lemma release_exclusive s id s' :
  packed_wf s -> exclusive s -> 0 <= id < p_maxEntities s ->
  p_releaseIndex s id = Ok s' -> exclusive s'.
Proof.
  intros Hwf Hex Hid Hrun. pose proof Hwf as Hwf'. wf_names Hwf'.
  destruct (get_is_Some (p_index s) id ltac:(lia)) as [slot Hslot].
  assert (slot ≠ -1) as Hne.
  { intros ->. unfold p_releaseIndex in Hrun.
    by rewrite bool_decide_eq_true_2 in Hrun by done. }
  destruct (release_push s id slot Hwf Hslot Hne)
    as (s2 & Hr & Hwf2 & Hf2 & _ & _ & _ & Hmax2 & Hg2).
  rewrite Hrun in Hr. injection Hr as <-.
  assert (TA.length (p_index s') = TA.length (p_index s)) as Hlen.
  { destruct Hwf2 as (_ & Hil2 & _). congruence. }
  pose proof (index_update s s' id (-1) Hlen ltac:(lia)
                (fun j Hj => release_frame s id s' j Hrun Hj) Hg2) as Hel.
  pose proof (held_update s s' id slot (-1) Hslot Hel) as Hp.
  rewrite decide_True in Hp by done. rewrite decide_False in Hp by lia.
  simpl in Hp. unfold exclusive in *. rewrite Hf2.
  rewrite <- Hp in Hex. simpl in Hex.
  rewrite (Permutation_app_comm (free_list s) [slot]). simpl.
  by rewrite <- Permutation_middle.
Qed.

Lemma p_run_exclusive ops s s' :
  packed_wf s -> exclusive s ->
  Forall (fun op => 0 <= op_id op < p_maxEntities s) ops ->
  p_run ops s = Ok s' -> exclusive s'.
Proof.
  revert s. induction ops as [|op ops IH]; intros s Hwf Hex Hids Hrun.
  - simpl in Hrun. by injection Hrun as <-.
  - apply Forall_cons in Hids as [Hid Hids]. destruct op as [id|id]; simpl in *.
    + destruct (p_acquireIndex s id) as [[r s1]|] eqn:Hstep; [|done].
      simpl in Hrun.
      pose proof (acquire_keeps _ _ _ _ Hstep) as (Hm & _).
      apply (IH s1); try done.
      * by apply (acquire_wf s id r).
      * by apply (acquire_exclusive s id r).
      * by rewrite Hm.
    + destruct (p_releaseIndex s id) as [s1|] eqn:Hstep; [|done].
      simpl in Hrun.
      destruct (get_is_Some (p_index s) id) as [slot Hslot].
      { destruct Hwf as (_ & Hil & _). lia. }
      assert (slot ≠ -1) as Hne.
      { intros ->. unfold p_releaseIndex in Hstep.
        by rewrite bool_decide_eq_true_2 in Hstep by done. }
      destruct (release_push s id slot Hwf Hslot Hne)
        as (s2 & Hr & Hwf2 & _ & _ & _ & _ & Hm & _).
      assert (s2 = s1) as -> by congruence.
      apply (IH s1); try done.
      * by apply (release_exclusive s id).
      * by rewrite Hm.
Qed.

Lemma new_exclusive maxEntities capacity elastic :
  0 <= maxEntities < 2 ^ 31 -> 0 < capacity < 2 ^ 31 ->
  exclusive (new_PackedStorage maxEntities capacity elastic).
Proof.
  intros Hm Hc.
  destruct (packed_wf_new maxEntities capacity elastic Hm Hc)
    as (Hwf & _ & _ & _ & Hnext & Hfree).
  unfold exclusive. rewrite Hfree, app_nil_r.
  destruct Hwf as (_&_&_&_&_&_&_&_&_&_&_&_& Hiv &_).
  rewrite Hnext in Hiv. unfold held_slots.
  induction Hiv as [|v l Hv _ IH]; [apply NoDup_nil_2|].
  rewrite filter_cons_False by lia. exact IH.
Qed.

(** * Further properties of the packed storage *)



(** X2. The one way [PackedStorage.acquireIndex] fails.  In a packed
    storage that satisfies its invariant [acquireIndex] throws only the
    [CheckError] "Storage exhausted", and only when the binding is fixed,
    the entity holds no slot, the free list is empty and every slot up to
    the capacity has been handed out; the [InternalError] of growing beyond
    [maxEntities] is never thrown, and an elastic storage never fails. *)
Theorem packed_acquire_only_exhausts (s : PackedStorage) (id : Z) (e : Exn) :
  packed_wf s -> p_acquireIndex s id = Throw e ->
  e = storage_exhausted ∧ p_elastic s = false
  ∧ TA.get (p_index s) id = Some (-1)
  ∧ free_list s = [] ∧ nextIndex s = p_capacity s.
Proof.
  intros Hwf Hrun. pose proof Hwf as Hwf'. wf_names Hwf'.
  destruct (decide (TA.get (p_index s) id = Some (-1))) as [Hg|Hg]; cycle 1.
  { unfold p_acquireIndex in Hrun.
    by rewrite bool_decide_eq_false_2 in Hrun by done. }
  destruct (free_list s) as [|slot l _] eqn:Hfree using rev_ind; cycle 1.
  { destruct (acquire_pop s id l slot Hwf Hg Hfree) as (s2 & Hr & _).
    congruence. }
  destruct (decide (nextIndex s = p_capacity s)) as [He|He]; cycle 1.
  { destruct (acquire_fresh s id Hwf Hg Hfree ltac:(lia)) as (s2 & Hr & _).
    congruence. }
  destruct (p_elastic s) eqn:Hel.
  { destruct (acquire_grow s id Hwf Hg Hfree He Hel) as (s2 & Hr & _).
    congruence. }
  repeat apply conj; try done.
  unfold p_acquireIndex in Hrun.
  rewrite bool_decide_eq_true_2 in Hrun by done.
  apply free_list_nil in Hfree; [|done].
  fold (numSpares s) (nextIndex s) in Hrun.
  rewrite Hfree, Hc2, He, Z.eqb_refl, Hel in Hrun. simpl in Hrun. congruence.
Qed.

Lemma packed_acquire_only_exhausts_witness :
  let full := mkPacked 4 2 false (TA.mk TA.Int8Array [0; 1; -1; -1])
                (TA.mk TA.Int8Array [1; 2; 2; 0; 0; 0; 0; 0; 0; 0; 0; 0]) in
  p_acquireIndex full 2 = Throw storage_exhausted
  ∧ p_elastic full = false ∧ free_list full = [].
Proof.
  intros full.
  assert (p_acquireIndex full 2 = Throw storage_exhausted) as Hrun
    by (by vm_compute).
  destruct (packed_acquire_only_exhausts full 2 _
              ltac:(apply (bool_decide_unpack _); by vm_compute) Hrun)
    as (_ & Hel & _ & Hfree & _).
  done.
Defined.

(** X3. Other entities keep their slots.  A successful [acquireIndex] or
    [releaseIndex] for one entity leaves the index cell of every other
    entity as it was, also when the storage grows and the index is
    reallocated with a wider element type. *)
Theorem packed_other_entities_kept (s : PackedStorage) (id j : Z) :
  packed_wf s -> j ≠ id ->
  (∀ r s', p_acquireIndex s id = Ok (r, s') ->
           TA.get (p_index s') j = TA.get (p_index s) j)
  ∧ (∀ s', p_releaseIndex s id = Ok s' ->
           TA.get (p_index s') j = TA.get (p_index s) j).
Proof.
  intros Hwf Hne. split.
  - intros r s' Hrun. by apply (acquire_frame s id r).
  - intros s' Hrun. by apply (release_frame s id).
Qed.

Lemma packed_other_entities_kept_witness :
  let full := mkPacked 4 2 true (TA.mk TA.Int8Array [0; 1; -1; -1])
                (TA.mk TA.Int8Array [1; 2; 2; 0; 0; 0; 0; 0; 0; 0; 0; 0]) in
  ∃ s', p_acquireIndex full 3 = Ok (Some 2, s')
        ∧ p_capacity s' = 4
        ∧ TA.get (p_index s') 1 = TA.get (p_index full) 1.
Proof.
  intros full.
  destruct (p_acquireIndex full 3) as [[r s']|e] eqn:Hacq;
    [|vm_compute in Hacq; discriminate].
  assert (TA.get (p_index s') 1 = TA.get (p_index full) 1) as Hkept.
  { refine (proj1 (packed_other_entities_kept full 3 1 _ ltac:(lia)) r s' Hacq).
    apply (bool_decide_unpack _). by vm_compute. }
  exists s'. vm_compute in Hacq. injection Hacq as <- <-.
  split; [done|]. split; [done|]. exact Hkept.
Defined.

Lemma get_out_of_range a i : ¬ (0 <= i < TA.length a) -> TA.get a i = None.
Proof.
  intros Hi. unfold TA.get. case_decide; [|done].
  apply lookup_ge_None. unfold TA.length in Hi. lia.
Qed.

Lemma set_out_of_range a i v : ¬ (0 <= i < TA.length a) -> TA.set a i v = a.
Proof.
  intros Hi. unfold TA.set. case_decide; [|done].
  rewrite list_insert_ge by (unfold TA.length in Hi; lia). by destruct a.
Qed.

(** X4. Entity ids out of range.  The index has one cell per entity id
    below [maxEntities].  For an id outside of it [acquireIndex] returns
    [undefined] and leaves the storage as it is, and [releaseIndex] does not
    throw and leaves the index as it is. *)
Theorem packed_out_of_range (s : PackedStorage) (id : Z) :
  TA.length (p_index s) = p_maxEntities s ->
  ¬ (0 <= id < p_maxEntities s) ->
  p_acquireIndex s id = Ok (None, s)
  ∧ ∃ s', p_releaseIndex s id = Ok s' ∧ p_index s' = p_index s.
Proof.
  intros Hlen Hid. rewrite <- Hlen in Hid.
  pose proof (get_out_of_range _ _ Hid) as Hg. split.
  - unfold p_acquireIndex. by rewrite Hg, bool_decide_eq_false_2.
  - unfold p_releaseIndex. rewrite bool_decide_eq_false_2 by by rewrite Hg.
    eexists. split; [done|]. proj_simpl.
    destruct (_ =? _).
    + rewrite growSpares_index. by apply set_out_of_range.
    + by apply set_out_of_range.
Qed.

Lemma packed_out_of_range_witness :
  let s := new_PackedStorage 4 2 true in
  p_acquireIndex s 4 = Ok (None, s)
  ∧ ∃ s', p_releaseIndex s (-1) = Ok s' ∧ p_index s' = p_index s.
Proof.
  intros s. split.
  - apply (packed_out_of_range s 4); [by vm_compute|]. vm_compute. intros [_ H].
    discriminate.
  - apply (packed_out_of_range s (-1)); [by vm_compute|]. intros [H _]. lia.
Defined.

(** X5. A double release is detected.  After [releaseIndex] succeeded for
    an entity id below [maxEntities], a second [releaseIndex] for it throws
    the [InternalError] "not allocated". *)
Theorem packed_double_release (s s' : PackedStorage) (id : Z) :
  packed_wf s -> 0 <= id < p_maxEntities s ->
  p_releaseIndex s id = Ok s' ->
  p_releaseIndex s' id = Throw not_allocated.
Proof.
  intros Hwf Hid Hrun.
  destruct (get_is_Some (p_index s) id) as [slot Hslot].
  { destruct Hwf as (_ & Hil & _). lia. }
  assert (slot ≠ -1) as Hne.
  { intros ->. unfold p_releaseIndex in Hrun.
    by rewrite bool_decide_eq_true_2 in Hrun by done. }
  destruct (release_push s id slot Hwf Hslot Hne)
    as (s2 & Hr & _ & _ & _ & _ & _ & _ & Hg2).
  assert (s2 = s') as -> by congruence.
  unfold p_releaseIndex. by rewrite bool_decide_eq_true_2.
Qed.

Lemma packed_double_release_witness :
  let s := mkPacked 4 2 false (TA.mk TA.Int8Array [0; 1; -1; -1])
             (TA.mk TA.Int8Array [1; 2; 2; 0; 0; 0; 0; 0; 0; 0; 0; 0]) in
  ∃ s', p_releaseIndex s 1 = Ok s' ∧ p_releaseIndex s' 1 = Throw not_allocated.
Proof.
  intros s.
  destruct (p_releaseIndex s 1) as [s'|e] eqn:Hrun;
    [|vm_compute in Hrun; discriminate].
  exists s'. split; [done|].
  apply (packed_double_release s s' 1); [|simpl; lia|exact Hrun].
  apply (bool_decide_unpack _). by vm_compute.
Defined.

(** X6. The slot released last is handed out next.  After [releaseIndex]
    for an entity that holds a slot, [acquireIndex] for an entity without a
    slot, the same or another one, returns that very slot, and the free
    list, the next unused slot and the capacity are as they were before the
    release. *)
Theorem packed_release_then_acquire (s : PackedStorage) (id id' slot : Z) :
  packed_wf s -> TA.get (p_index s) id = Some slot -> slot ≠ -1 ->
  id' = id ∨ TA.get (p_index s) id' = Some (-1) ->
  ∃ s1 s2, p_releaseIndex s id = Ok s1
           ∧ p_acquireIndex s1 id' = Ok (Some slot, s2)
           ∧ free_list s2 = free_list s ∧ nextIndex s2 = nextIndex s
           ∧ p_capacity s2 = p_capacity s
           ∧ TA.get (p_index s2) id' = Some slot.
Proof.
  intros Hwf Hslot Hne Hid'.
  destruct (release_push s id slot Hwf Hslot Hne)
    as (s1 & Hr & Hwf1 & Hf1 & Hn1 & Hc1 & _ & _ & Hg1).
  assert (TA.get (p_index s1) id' = Some (-1)) as Hg'.
  { destruct (decide (id' = id)) as [->|Hd]; [done|].
    destruct Hid' as [?|Hg']; [done|].
    by rewrite (release_frame s id s1 id' Hr Hd). }
  destruct (acquire_pop s1 id' (free_list s) slot Hwf1 Hg' Hf1)
    as (s2 & Hr2 & _ & Hf2 & Hn2 & Hc2' & Hg2).
  exists s1, s2. repeat apply conj; try done; congruence.
Qed.

Lemma packed_release_then_acquire_witness :
  let s := mkPacked 4 4 true (TA.mk TA.Int8Array [0; 1; 2; -1])
             (TA.mk TA.Int8Array [1; 3; 4; 0; 0; 0; 0; 0; 0; 0; 0; 0]) in
  ∃ s1 s2, p_releaseIndex s 1 = Ok s1
           ∧ p_acquireIndex s1 3 = Ok (Some 1, s2)
           ∧ free_list s2 = free_list s.
Proof.
  intros s.
  destruct (packed_release_then_acquire s 1 3 1) as (s1 & s2 & H1 & H2 & H3 & _).
  - apply (bool_decide_unpack _). by vm_compute.
  - reflexivity.
  - lia.
  - right. reflexivity.
  - by exists s1, s2.
Defined.

Lemma acquire_monotone s id r s' :
  packed_wf s -> p_acquireIndex s id = Ok (r, s') ->
  p_capacity s <= p_capacity s' <= Z.max (p_capacity s) (p_maxEntities s)
  ∧ nextIndex s <= nextIndex s'.
Proof.
  intros Hwf Hrun. pose proof Hwf as Hwf'. wf_names Hwf'.
  destruct (decide (TA.get (p_index s) id = Some (-1))) as [Hg|Hg]; cycle 1.
  { unfold p_acquireIndex in Hrun.
    rewrite bool_decide_eq_false_2 in Hrun by done.
    injection Hrun as <- <-. lia. }
  destruct (free_list s) as [|slot l _] eqn:Hfree using rev_ind; cycle 1.
  { destruct (acquire_pop s id l slot Hwf Hg Hfree)
      as (s2 & Hr & _ & _ & Hn & Hc & _).
    assert (s2 = s') as -> by congruence. lia. }
  destruct (decide (nextIndex s = p_capacity s)) as [He|He]; cycle 1.
  { destruct (acquire_fresh s id Hwf Hg Hfree ltac:(lia))
      as (s2 & Hr & _ & _ & Hn & Hc & _).
    assert (s2 = s') as -> by congruence. lia. }
  destruct (p_elastic s) eqn:Hel.
  - destruct (acquire_grow s id Hwf Hg Hfree He Hel)
      as (s2 & Hr & _ & _ & Hn & Hc & Hlt & _).
    assert (s2 = s') as -> by congruence. lia.
  - unfold p_acquireIndex in Hrun.
    rewrite bool_decide_eq_true_2 in Hrun by done.
    apply free_list_nil in Hfree; [|done].
    fold (numSpares s) (nextIndex s) in Hrun.
    rewrite Hfree, Hc2, He, Z.eqb_refl, Hel in Hrun. done.
Qed.



(** X8. The element type always fits the capacity.  In a packed storage
    made by the constructor and taken through any run of [acquireIndex] and
    [releaseIndex] on entity ids below [maxEntities], also across growth,
    the index and the spares both have the element type that the
    [ArrayType] getter computes, [Int8Array] below a capacity of 128,
    [Int16Array] below 32768 and [Int32Array] from there on; [spares[0]]
    holds its size in bytes; and every slot number up to the capacity is
    stored without being truncated, as is every cell of the index. *)
Theorem packed_element_type (maxEntities capacity : Z) (elastic : bool)
    (ops : list StorageOp) (s : PackedStorage) :
  0 <= maxEntities < 2 ^ 31 -> 0 < capacity < 2 ^ 31 ->
  Forall (fun op => 0 <= op_id op < maxEntities) ops ->
  p_run ops (new_PackedStorage maxEntities capacity elastic) = Ok s ->
  TA.ty (p_index s) = p_ArrayType s ∧ TA.ty (p_spares s) = p_ArrayType s
  ∧ p_ArrayType s
    = (if p_capacity s <? 128 then TA.Int8Array
       else if p_capacity s <? 32768 then TA.Int16Array else TA.Int32Array)
  ∧ TA.at_ (p_spares s) 0 = TA.BYTES_PER_ELEMENT (p_ArrayType s)
  ∧ (∀ v, -1 <= v <= p_capacity s -> TA.wrap (p_ArrayType s) v = v)
  ∧ (∀ id slot, TA.get (p_index s) id = Some slot ->
       TA.wrap (p_ArrayType s) slot = slot).
Proof.
  intros Hm Hc Hids Hrun.
  destruct (packed_wf_new maxEntities capacity elastic Hm Hc)
    as (Hwf0 & _ & _ & Hmax0 & _).
  rewrite <- Hmax0 in Hids.
  destruct (p_run_wf _ _ _ Hwf0 Hids Hrun) as (Hwf & _).
  pose proof Hwf as Hwf'. wf_names Hwf'.
  assert (p_ArrayType s = ArrayType_of 0 (p_capacity s)) as Hty.
  { unfold p_ArrayType. rewrite Hc2. apply ArrayType_of_le; lia. }
  rewrite Hty. split; [done|]. split; [done|]. split.
  { unfold ArrayType_of. rewrite Z.max_r by lia. done. }
  split; [by rewrite Hby, Hts|]. split.
  - intros v Hv. rewrite <- Hti. by apply wf_fits_index.
  - intros id slot Hs. rewrite <- Hti. apply wf_fits_index; [done|].
    pose proof (Forall_get _ _ _ _ Hiv Hs) as Hr. simpl in Hr. lia.
Qed.

Lemma packed_element_type_witness :
  ∃ s, p_run [Acquire 0; Acquire 1; Acquire 2]
         (new_PackedStorage 4 2 true) = Ok s
       ∧ TA.ty (p_index s) = p_ArrayType s
       ∧ TA.at_ (p_spares s) 0 = TA.BYTES_PER_ELEMENT (p_ArrayType s).
Proof.
  destruct (p_run [Acquire 0; Acquire 1; Acquire 2]
              (new_PackedStorage 4 2 true)) as [s|e] eqn:Hrun;
    [|vm_compute in Hrun; discriminate].
  exists s. split; [done|].
  assert (0 <= 4 < 2 ^ 31) as H1 by (split; [lia|by vm_compute]).
  assert (0 < 2 < 2 ^ 31) as H2 by (split; [lia|by vm_compute]).
  assert (Forall (fun op => 0 <= op_id op < 4)
            [Acquire 0; Acquire 1; Acquire 2]) as H3.
  { repeat apply Forall_cons_2; try apply Forall_nil_2; simpl; lia. }
  destruct (packed_element_type 4 2 true _ s H1 H2 H3 Hrun)
    as (Hi & _ & _ & Hb & _).
  split; [exact Hi|exact Hb].
Defined.

(** * Compact storage: the scans *)

Lemma findIndex_from_none cells k id :
  id ∉ cells -> findIndex_from cells k id = -1.
Proof.
  revert k. induction cells as [|x rest IH]; intros k Hin; [done|].
  apply not_elem_of_cons in Hin as [Hne Hin]. simpl.
  destruct (x =? id) eqn:He; [apply Z.eqb_eq in He; done|]. by apply IH.
Qed.

Lemma findIndex_from_first cells k id (i : nat) :
  cells !! i = Some id -> (∀ j : nat, (j < i)%nat -> cells !! j ≠ Some id) ->
  findIndex_from cells k id = k + Z.of_nat i.
Proof.
  revert k i. induction cells as [|x rest IH]; intros k i Hi Hleast; [done|].
  simpl. destruct i as [|i].
  - simpl in Hi. injection Hi as ->. rewrite Z.eqb_refl. lia.
  - destruct (x =? id) eqn:He.
    + apply Z.eqb_eq in He. subst x. by destruct (Hleast 0%nat ltac:(lia)).
    + rewrite (IH (k + 1) i); [lia|done|].
      intros j Hj. apply (Hleast (S j)). lia.
Qed.

Lemma findIndex_from_least cells k id (j : nat) :
  id ∈ cells -> k + Z.of_nat j < findIndex_from cells k id ->
  cells !! j ≠ Some id.
Proof.
  revert k j. induction cells as [|x rest IH]; intros k j Hin Hlt.
  - by apply elem_of_nil in Hin.
  - simpl in Hlt. destruct (x =? id) eqn:He; [lia|].
    apply Z.eqb_neq in He. apply elem_of_cons in Hin as [->|Hin]; [done|].
    destruct j as [|j]; simpl; [congruence|].
    apply (IH (k + 1)); [done|lia].
Qed.

Lemma acquire_scan_absent cells k id firstEmpty :
  id ∉ cells ->
  acquire_scan cells k id firstEmpty
  = inr (match firstEmpty with
         | Some e => Some e
         | None => if decide (-1 ∈ cells)
                   then Some (findIndex_from cells k (-1)) else None
         end).
Proof.
  revert k firstEmpty. induction cells as [|x rest IH]; intros k fe Hin.
  - destruct fe; [done|]. cbn [acquire_scan].
    destruct (decide (-1 ∈ @nil Z)) as [H|H]; [by apply elem_of_nil in H|done].
  - apply not_elem_of_cons in Hin as [Hne Hin]. simpl.
    destruct (x =? id) eqn:He; [apply Z.eqb_eq in He; done|].
    rewrite (IH _ _ Hin). destruct fe as [e|]; [done|].
    destruct (x =? -1) eqn:He'.
    + apply Z.eqb_eq in He'. subst x.
      by rewrite decide_True by (apply elem_of_cons; by left).
    + apply Z.eqb_neq in He'. destruct (decide (-1 ∈ rest)) as [Hr|Hr].
      * by rewrite decide_True by (apply elem_of_cons; by right).
      * rewrite decide_False; [done|].
        intros [?|?]%elem_of_cons; congruence.
Qed.

Lemma map_wrap_id t l : Forall (in_range t) l -> map (TA.wrap t) l = l.
Proof.
  induction 1 as [|x l Hx _ IH]; [done|]. simpl.
  by rewrite wrap_id, IH.
Qed.

Lemma in_range_Int32 v : - 2 ^ 31 <= v < 2 ^ 31 -> in_range TA.Int32Array v.
Proof. unfold in_range. simpl. done. Qed.

Lemma findIndex_from_insert_other cells k (i : nat) old v id' :
  cells !! i = Some old -> old ≠ id' -> v ≠ id' ->
  findIndex_from (<[i:=v]> cells) k id' = findIndex_from cells k id'.
Proof.
  revert k i. induction cells as [|x rest IH]; intros k i Hi Hold Hv; [done|].
  destruct i as [|i]; simpl in *.
  - injection Hi as ->.
    destruct (v =? id') eqn:H1; [apply Z.eqb_eq in H1; done|].
    destruct (old =? id') eqn:H2; [apply Z.eqb_eq in H2; done|]. done.
  - destruct (x =? id'); [done|]. by apply IH.
Qed.

Lemma findIndex_from_app_l cells rest k id' :
  id' ∉ rest ->
  findIndex_from (cells ++ rest) k id' = findIndex_from cells k id'.
Proof.
  intros Hr. revert k. induction cells as [|x cells IH]; intros k; simpl.
  - by rewrite findIndex_from_none.
  - destruct (x =? id'); [done|]. apply IH.
Qed.

(** * Compact storage: [acquireIndex] and [releaseIndex], case by case *)

Lemma c_acquire_found s id :
  id ∈ TA.elems (c_index s) -> c_acquireIndex s id = Ok (c_findIndex s id, s).
Proof.
  intros Hin. unfold c_acquireIndex. by rewrite (acquire_scan_found _ _ _ _ Hin).
Qed.

Lemma set_Int32 a i v :
  TA.ty a = TA.Int32Array -> 0 <= i -> - 2 ^ 31 <= v < 2 ^ 31 ->
  TA.set a i v = TA.mk TA.Int32Array (<[Z.to_nat i := v]> (TA.elems a)).
Proof.
  intros Hty Hi Hv. unfold TA.set. rewrite decide_True by done.
  rewrite Hty, wrap_id; [done|]. by apply in_range_Int32.
Qed.

Lemma c_acquire_empty s id :
  compact_wf s -> 0 <= id < c_maxEntities s ->
  id ∉ TA.elems (c_index s) -> -1 ∈ TA.elems (c_index s) ->
  c_acquireIndex s id
  = Ok (c_findIndex s (-1),
        mkCompact (c_maxEntities s) (c_capacity s) (c_elastic s)
          (TA.mk TA.Int32Array
             (<[Z.to_nat (c_findIndex s (-1)) := id]> (TA.elems (c_index s))))).
Proof.
  intros (Hty & Hlen & Hcap & Hmax & Hall & Hnd) Hid Hnot Hempty.
  unfold c_acquireIndex. rewrite (acquire_scan_absent _ _ _ _ Hnot).
  rewrite decide_True by done. fold (c_findIndex s (-1)).
  destruct (findIndex_from_found _ 0 _ Hempty) as [Hr _].
  fold (c_findIndex s (-1)) in Hr.
  rewrite set_Int32; [done|done|lia|lia].
Qed.

Lemma c_full_capacity s id :
  compact_wf s -> 0 <= id < c_maxEntities s -> c_full_for s id ->
  c_capacity s < c_maxEntities s.
Proof.
  intros (Hty & Hlen & Hcap & Hmax & Hall & Hnd) Hid Hfull.
  unfold c_full_for in Hfull.
  assert (filter (fun x => x ≠ -1) (TA.elems (c_index s)) = TA.elems (c_index s))
    as Hf.
  { clear -Hfull. induction Hfull as [|x l [_ Hx] _ IH]; [done|].
    rewrite filter_cons_True by done. by rewrite IH. }
  rewrite Hf in Hnd.
  assert (NoDup (id :: TA.elems (c_index s))) as Hnd'.
  { apply NoDup_cons. split; [|done]. intros Hin.
    rewrite Forall_forall in Hfull. by destruct (Hfull _ Hin). }
  assert (id :: TA.elems (c_index s) ⊆+ seqZ 0 (c_maxEntities s)) as Hsub.
  { apply NoDup_submseteq; [done|]. intros x Hx. apply elem_of_seqZ.
    apply elem_of_cons in Hx as [->|Hx]; [lia|].
    rewrite Forall_forall in Hall, Hfull.
    specialize (Hall _ Hx). destruct (Hfull _ Hx). lia. }
  apply submseteq_length in Hsub. rewrite length_seqZ in Hsub. simpl in Hsub.
  unfold TA.length in Hlen. lia.
Qed.

Lemma c_acquire_grow s id :
  compact_wf s -> 0 <= id < c_maxEntities s -> c_full_for s id ->
  c_elastic s = true ->
  c_acquireIndex s id
  = Ok (c_capacity s,
        mkCompact (c_maxEntities s)
          (Z.min (c_maxEntities s) (c_capacity s * 2)) true
          (TA.mk TA.Int32Array
             (TA.elems (c_index s)
              ++ id :: replicate
                         (Z.to_nat (Z.min (c_maxEntities s) (c_capacity s * 2)
                                    - c_capacity s - 1)) (-1)))).
Proof.
  intros Hwf Hid Hfull Hel.
  pose proof (c_full_capacity s id Hwf Hid Hfull) as Hlt.
  destruct Hwf as (Hty & Hlen & Hcap & Hmax & Hall & Hnd).
  unfold c_acquireIndex. rewrite (acquire_scan_full _ _ _ Hfull), Hel. simpl.
  destruct (c_capacity s =? c_maxEntities s) eqn:He; [apply Z.eqb_eq in He; lia|].
  set (c' := Z.min (c_maxEntities s) (c_capacity s * 2)).
  unfold c_growCapacity. cbn [c_maxEntities c_capacity c_elastic c_index].
  assert (buffers_register (Some (c_index s)) c' TA.Int32Array (-1)
          = TA.mk TA.Int32Array
              (TA.elems (c_index s)
               ++ replicate (Z.to_nat (c' - c_capacity s)) (-1))) as ->.
  { unfold buffers_register. f_equal. rewrite map_wrap_id; cycle 1.
    { eapply Forall_impl; [exact Hall|]. intros x Hx. apply in_range_Int32.
      simpl in Hx. lia. }
    rewrite wrap_id by (apply in_range_Int32; lia).
    unfold TA.length in Hlen.
    rewrite resize_ge by (unfold c'; lia). f_equal. f_equal. lia. }
  unfold TA.length in *. cbn [TA.elems].
  rewrite length_app, length_replicate.
  replace (Z.of_nat (List.length (TA.elems (c_index s))
                     + Z.to_nat (c' - c_capacity s))%nat)
    with c' by (unfold c'; lia).
  rewrite Hlen, set_Int32; [|done|lia|lia]. cbn [TA.elems].
  rewrite insert_app_r_alt by lia.
  replace (Z.to_nat (c_capacity s) - List.length (TA.elems (c_index s)))%nat
    with 0%nat by lia.
  replace (Z.to_nat (c' - c_capacity s))
    with (S (Z.to_nat (c' - c_capacity s - 1))) by (unfold c'; lia).
  done.
Qed.

Lemma c_acquire_exhausted s id :
  c_full_for s id -> c_elastic s = false ->
  c_acquireIndex s id = Throw storage_exhausted.
Proof.
  intros Hfull Hel. unfold c_acquireIndex.
  by rewrite (acquire_scan_full _ _ _ Hfull), Hel.
Qed.

(** The cases of [acquireIndex] are these four. *)
Lemma c_cells_cases s id :
  id ∈ TA.elems (c_index s)
  ∨ ((id ∉ TA.elems (c_index s)) ∧ (-1) ∈ TA.elems (c_index s))
  ∨ c_full_for s id.
Proof.
  destruct (decide (id ∈ TA.elems (c_index s))) as [?|Hid]; [by left|].
  destruct (decide (-1 ∈ TA.elems (c_index s))) as [?|He]; [right; by left|].
  right. right. unfold c_full_for. apply Forall_forall. intros x Hx.
  split; intros ->; done.
Qed.

Lemma c_release_found s id :
  TA.ty (c_index s) = TA.Int32Array -> id ∈ TA.elems (c_index s) ->
  c_releaseIndex s id
  = Ok (mkCompact (c_maxEntities s) (c_capacity s) (c_elastic s)
          (TA.mk TA.Int32Array
             (<[Z.to_nat (c_findIndex s id) := -1]> (TA.elems (c_index s))))).
Proof.
  intros Hty Hin. unfold c_releaseIndex.
  destruct (findIndex_from_found _ 0 _ Hin) as [Hr _].
  fold (c_findIndex s id) in Hr.
  destruct (c_findIndex s id =? -1) eqn:He; [apply Z.eqb_eq in He; lia|].
  rewrite set_Int32; [done|done|lia|lia].
Qed.

Lemma c_release_absent s id :
  id ∉ TA.elems (c_index s) -> c_releaseIndex s id = Throw not_allocated.
Proof.
  intros Hin. unfold c_releaseIndex, c_findIndex.
  by rewrite (findIndex_from_none _ _ _ Hin).
Qed.

(** * Compact storage: the invariant *)

Ltac split_wf := split; [|split; [|split; [|split; [|split]]]].

Lemma compact_wf_new maxEntities capacity elastic :
  0 <= maxEntities < 2 ^ 31 -> 0 < capacity ->
  compact_wf (new_CompactStorage maxEntities capacity elastic)
  ∧ TA.elems (c_index (new_CompactStorage maxEntities capacity elastic))
    = replicate (Z.to_nat capacity) (-1).
Proof.
  intros Hm Hc. unfold new_CompactStorage, buffers_register.
  rewrite wrap_id by (apply in_range_Int32; lia). rewrite resize_nil.
  split; [|done]. unfold compact_wf. cbn -[Z.pow].
  unfold TA.length. cbn -[Z.pow]. rewrite length_replicate.
  split_wf; try done; try lia.
  - apply Forall_replicate. lia.
  - rewrite filter_replicate_False by lia. apply NoDup_nil_2.
Qed.

Lemma c_acquire_wf s id i s' :
  compact_wf s -> 0 <= id < c_maxEntities s ->
  c_acquireIndex s id = Ok (i, s') -> compact_wf s'.
Proof.
  intros Hwf Hid Hrun.
  destruct (c_cells_cases s id) as [Hin|[[Hnot Hempty]|Hfull]].
  - rewrite (c_acquire_found s id Hin) in Hrun. by injection Hrun as <- <-.
  - rewrite (c_acquire_empty s id Hwf Hid Hnot Hempty) in Hrun.
    injection Hrun as <- <-.
    destruct Hwf as (Hty & Hlen & Hcap & Hmax & Hall & Hnd).
    destruct (findIndex_from_found _ 0 _ Hempty) as [Hr Hcell].
    fold (c_findIndex s (-1)) in Hr, Hcell. rewrite Z.sub_0_r in Hcell.
    unfold compact_wf. cbn -[Z.pow]. unfold TA.length in *. cbn -[Z.pow].
    rewrite length_insert. split_wf; try done.
    + apply Forall_insert; [done|lia].
    + pose proof (filter_insert_perm (fun x : Z => x ≠ -1) _ _ _ id Hcell) as Hp.
      rewrite decide_False in Hp by lia. rewrite decide_True in Hp by lia.
      simpl in Hp. rewrite Hp. apply NoDup_cons. split; [|done].
      intros Hin. by apply list_elem_of_filter in Hin as [_ Hin].
  - destruct (c_elastic s) eqn:Hel.
    + pose proof (c_full_capacity s id Hwf Hid Hfull) as Hlt.
      rewrite (c_acquire_grow s id Hwf Hid Hfull Hel) in Hrun.
      injection Hrun as <- <-.
      destruct Hwf as (Hty & Hlen & Hcap & Hmax & Hall & Hnd).
      unfold compact_wf. cbn -[Z.pow Z.min Z.mul]. unfold TA.length in *.
      cbn -[Z.pow Z.min Z.mul].
      rewrite length_app. cbn -[Z.pow Z.min Z.mul]. rewrite length_replicate.
      split_wf; try done; try lia.
      * apply Forall_app. split; [done|]. apply Forall_cons. split; [lia|].
        apply Forall_replicate. lia.
      * rewrite filter_app, filter_cons_True by lia.
        rewrite filter_replicate_False by lia.
        rewrite <- Permutation_middle, app_nil_r. apply NoDup_cons.
        split; [|done]. intros Hin. apply list_elem_of_filter in Hin as [_ Hin].
        unfold c_full_for in Hfull. rewrite Forall_forall in Hfull.
        by destruct (Hfull _ Hin).
    + by rewrite (c_acquire_exhausted s id Hfull Hel) in Hrun.
Qed.

Lemma c_release_wf s id s' :
  compact_wf s -> c_releaseIndex s id = Ok s' -> compact_wf s'.
Proof.
  intros Hwf Hrun.
  destruct (decide (id ∈ TA.elems (c_index s))) as [Hin|Hnot]; cycle 1.
  { by rewrite (c_release_absent s id Hnot) in Hrun. }
  destruct Hwf as (Hty & Hlen & Hcap & Hmax & Hall & Hnd).
  rewrite (c_release_found s id Hty Hin) in Hrun. injection Hrun as <-.
  destruct (findIndex_from_found _ 0 _ Hin) as [Hr Hcell].
  fold (c_findIndex s id) in Hr, Hcell. rewrite Z.sub_0_r in Hcell.
  unfold compact_wf. cbn -[Z.pow]. unfold TA.length in *. cbn -[Z.pow].
  rewrite length_insert. split_wf; try done.
  - apply Forall_insert; [done|lia].
  - pose proof (filter_insert_perm (fun x : Z => x ≠ -1) _ _ _ (-1) Hcell) as Hp.
    rewrite (decide_False (P := -1 ≠ -1)) in Hp by lia. simpl in Hp.
    destruct (decide (id ≠ -1)) as [Hne|Hne].
    + rewrite <- Hp in Hnd. simpl in Hnd. by apply NoDup_cons in Hnd as [_ ?].
    + simpl in Hp. by rewrite Hp.
Qed.

Lemma c_run_wf ops s s' :
  compact_wf s -> Forall (fun op => 0 <= op_id op < c_maxEntities s) ops ->
  c_run ops s = Ok s' ->
  compact_wf s' ∧ c_maxEntities s' = c_maxEntities s.
Proof.
  revert s. induction ops as [|op ops IH]; intros s Hwf Hids Hrun.
  - simpl in Hrun. by injection Hrun as <-.
  - apply Forall_cons in Hids as [Hid Hids]. destruct op as [id|id]; simpl in *.
    + destruct (c_acquireIndex s id) as [[i s1]|] eqn:Hstep; [|done].
      simpl in Hrun.
      assert (c_maxEntities s1 = c_maxEntities s) as Hm.
      { unfold c_acquireIndex in Hstep.
        destruct (acquire_scan _ _ _ _) as [j|[fe|]].
        - by injection Hstep as <- <-.
        - by injection Hstep as <- <-.
        - destruct (negb _); [done|]. destruct (_ =? _); [done|].
          by injection Hstep as <- <-. }
      destruct (IH s1) as [Hwf' Hm']; try done.
      * by apply (c_acquire_wf s id i).
      * by rewrite Hm.
      * split; [done|congruence].
    + destruct (c_releaseIndex s id) as [s1|] eqn:Hstep; [|done].
      simpl in Hrun.
      assert (c_maxEntities s1 = c_maxEntities s) as Hm.
      { unfold c_releaseIndex in Hstep. destruct (_ =? _); [done|].
        by injection Hstep as <-. }
      destruct (IH s1) as [Hwf' Hm']; try done.
      * by apply (c_release_wf s id).
      * by rewrite Hm.
      * split; [done|congruence].
Qed.

(** * Compact storage: where an entity is found after an operation *)

Lemma c_acquire_findIndex s s' id i :
  compact_wf s -> 0 <= id < c_maxEntities s ->
  c_acquireIndex s id = Ok (i, s') ->
  c_findIndex s' id = i ∧ 0 <= i < TA.length (c_index s').
Proof.
  intros Hwf Hid Hrun.
  destruct (c_cells_cases s id) as [Hin|[[Hnot Hempty]|Hfull]].
  - rewrite (c_acquire_found s id Hin) in Hrun. injection Hrun as <- <-.
    destruct (findIndex_from_found _ 0 _ Hin) as [Hr _].
    fold (c_findIndex s id) in Hr. unfold TA.length. split; [done|lia].
  - rewrite (c_acquire_empty s id Hwf Hid Hnot Hempty) in Hrun.
    injection Hrun as <- <-.
    destruct (findIndex_from_found _ 0 _ Hempty) as [Hr Hcell].
    fold (c_findIndex s (-1)) in Hr, Hcell. rewrite Z.sub_0_r in Hcell.
    set (e := Z.to_nat (c_findIndex s (-1))) in *.
    pose proof (lookup_lt_Some _ _ _ Hcell) as He.
    assert (<[e:=id]> (TA.elems (c_index s)) !! e = Some id) as Hnew.
    { apply list_lookup_insert_eq. lia. }
    split.
    + unfold c_findIndex at 1. cbn [c_index TA.elems].
      rewrite (findIndex_from_first _ 0 id e); [unfold e; lia|done|].
      intros j Hj Hc. rewrite list_lookup_insert_ne in Hc by lia.
      by apply list_elem_of_lookup_2 in Hc.
    + unfold TA.length. cbn [c_index TA.elems]. rewrite length_insert. lia.
  - destruct (c_elastic s) eqn:Hel; cycle 1.
    { by rewrite (c_acquire_exhausted s id Hfull Hel) in Hrun. }
    rewrite (c_acquire_grow s id Hwf Hid Hfull Hel) in Hrun.
    injection Hrun as <- <-.
    destruct Hwf as (Hty & Hlen & Hcap & Hmax & Hall & Hnd).
    unfold TA.length in Hlen.
    assert (id ∉ TA.elems (c_index s)) as Hnot.
    { intros Hin. unfold c_full_for in Hfull. rewrite Forall_forall in Hfull.
      by destruct (Hfull _ Hin). }
    set (l2 := id :: replicate _ (-1)).
    assert ((TA.elems (c_index s) ++ l2)
              !! List.length (TA.elems (c_index s)) = Some id) as Hnew.
    { by rewrite lookup_app_r, Nat.sub_diag by lia. }
    split.
    + unfold c_findIndex. cbn [c_index TA.elems].
      rewrite (findIndex_from_first _ 0 id _ Hnew); [lia|].
      intros j Hj Hc. rewrite lookup_app_l in Hc by lia.
      by apply list_elem_of_lookup_2 in Hc.
    + unfold TA.length. cbn [c_index TA.elems]. rewrite length_app.
      unfold l2. cbn [List.length]. lia.
Qed.

Lemma c_release_gone s s' id :
  compact_wf s -> id ≠ -1 -> c_releaseIndex s id = Ok s' ->
  id ∉ TA.elems (c_index s').
Proof.
  intros Hwf Hne Hrun.
  destruct (decide (id ∈ TA.elems (c_index s))) as [Hin|Hnot]; cycle 1.
  { by rewrite (c_release_absent s id Hnot) in Hrun. }
  destruct Hwf as (Hty & Hlen & Hcap & Hmax & Hall & Hnd).
  rewrite (c_release_found s id Hty Hin) in Hrun. injection Hrun as <-.
  destruct (findIndex_from_found _ 0 _ Hin) as [Hr Hcell].
  fold (c_findIndex s id) in Hr, Hcell. rewrite Z.sub_0_r in Hcell.
  set (f := Z.to_nat (c_findIndex s id)) in *.
  pose proof (lookup_lt_Some _ _ _ Hcell) as Hf.
  cbn [c_index TA.elems].
  intros Hc. apply list_elem_of_lookup in Hc as [j Hj].
  destruct (decide (j = f)) as [->|Hjf].
  - rewrite list_lookup_insert_eq in Hj by lia. congruence.
  - rewrite list_lookup_insert_ne in Hj by done.
    pose proof (NoDup_filter_lookup (fun x : Z => x ≠ -1) _ _ _ _
                  Hnd Hj Hcell Hne). done.
Qed.

(** * Further properties of the compact storage *)

(** X9. Compact storage is first fit.  When the entity is in no cell and
    some cell is empty, [acquireIndex] returns the lowest empty cell, puts
    the entity id there and changes nothing else. *)
Theorem compact_first_fit (s : CompactStorage) (id : Z) :
  compact_wf s -> 0 <= id < c_maxEntities s ->
  id ∉ TA.elems (c_index s) -> (-1) ∈ TA.elems (c_index s) ->
  ∃ (i : nat) s',
    c_acquireIndex s id = Ok (Z.of_nat i, s')
    ∧ TA.elems (c_index s) !! i = Some (-1)
    ∧ (∀ j : nat, (j < i)%nat -> TA.elems (c_index s) !! j ≠ Some (-1))
    ∧ TA.elems (c_index s') = <[i := id]> (TA.elems (c_index s))
    ∧ c_capacity s' = c_capacity s.
Proof.
  intros Hwf Hid Hnot Hempty.
  destruct (findIndex_from_found _ 0 _ Hempty) as [Hr Hcell].
  fold (c_findIndex s (-1)) in Hr, Hcell. rewrite Z.sub_0_r in Hcell.
  exists (Z.to_nat (c_findIndex s (-1))). eexists.
  rewrite Z2Nat.id by lia. split; [by apply c_acquire_empty|].
  split; [done|]. split; [|done].
  intros j Hj. apply (findIndex_from_least _ 0); [done|].
  fold (c_findIndex s (-1)). lia.
Qed.

Lemma compact_first_fit_witness :
  ∃ s', c_acquireIndex (mkCompact 8 4 false (TA.mk TA.Int32Array [5; -1; 2; -1])) 7
        = Ok (1, s')
        ∧ TA.elems (c_index s') = [5; 7; 2; -1].
Proof.
  destruct (compact_first_fit
              (mkCompact 8 4 false (TA.mk TA.Int32Array [5; -1; 2; -1])) 7)
    as (i & s' & Hrun & Hcell & Hleast & Hel & _).
  - apply (bool_decide_unpack _). by vm_compute.
  - simpl. lia.
  - apply (bool_decide_unpack _). by vm_compute.
  - apply (bool_decide_unpack _). by vm_compute.
  - exists s'. destruct i as [|[|i]].
    + simpl in Hcell. discriminate.
    + by split.
    + destruct (Hleast 1%nat ltac:(lia)). reflexivity.
Defined.



(** X11. [releaseIndex] clears exactly the entity.  After [releaseIndex]
    succeeded for an entity of a compact storage, [findIndex] returns -1
    for it and a second [releaseIndex] throws the [InternalError] "not
    allocated"; [findIndex] of every other entity and the capacity are as
    before. *)
Theorem compact_release_clears (s s' : CompactStorage) (id : Z) :
  compact_wf s -> id ≠ -1 -> c_releaseIndex s id = Ok s' ->
  c_findIndex s' id = -1
  ∧ c_releaseIndex s' id = Throw not_allocated
  ∧ (∀ id', id' ≠ id -> id' ≠ -1 -> c_findIndex s' id' = c_findIndex s id')
  ∧ c_capacity s' = c_capacity s.
Proof.
  intros Hwf Hne Hrun.
  pose proof (c_release_gone s s' id Hwf Hne Hrun) as Hgone.
  split; [by apply findIndex_from_none|].
  split; [by apply c_release_absent|].
  destruct (decide (id ∈ TA.elems (c_index s))) as [Hin|Hnot]; cycle 1.
  { by rewrite (c_release_absent s id Hnot) in Hrun. }
  destruct Hwf as (Hty & _).
  rewrite (c_release_found s id Hty Hin) in Hrun. injection Hrun as <-.
  destruct (findIndex_from_found _ 0 _ Hin) as [_ Hcell].
  fold (c_findIndex s id) in Hcell. rewrite Z.sub_0_r in Hcell.
  split; [|done].
  intros id' Hne1 Hne2. unfold c_findIndex at 1. cbn [c_index TA.elems].
  by apply (findIndex_from_insert_other _ 0 _ id).
Qed.

Lemma compact_release_clears_witness :
  ∃ s', c_releaseIndex (mkCompact 8 3 false (TA.mk TA.Int32Array [5; 2; 7])) 2
        = Ok s'
        ∧ c_findIndex s' 2 = -1
        ∧ c_releaseIndex s' 2 = Throw not_allocated
        ∧ c_findIndex s' 7 = 2.
Proof.
  destruct (c_releaseIndex (mkCompact 8 3 false (TA.mk TA.Int32Array [5; 2; 7])) 2)
    as [s'|e] eqn:Hrun; [|vm_compute in Hrun; discriminate].
  destruct (compact_release_clears
              (mkCompact 8 3 false (TA.mk TA.Int32Array [5; 2; 7])) s' 2
              ltac:(apply (bool_decide_unpack _); by vm_compute)
              ltac:(lia) Hrun) as (Hfind & Hagain & Hother & _).
  specialize (Hother 7 ltac:(lia) ltac:(lia)).
  exists s'. split; [done|]. split; [done|]. split; [done|].
  by rewrite Hother.
Defined.

(** X12. An entity occupies at most one cell.  In a compact storage made
    by the constructor with a positive capacity and taken through any run of
    [acquireIndex] and [releaseIndex] on entity ids below [maxEntities], no
    entity id is in two cells, the index has as many cells as the capacity,
    and every cell is empty or holds an entity id below [maxEntities]. *)
Theorem compact_entities_once (maxEntities capacity : Z) (elastic : bool)
    (ops : list StorageOp) (s : CompactStorage) :
  0 <= maxEntities < 2 ^ 31 -> 0 < capacity ->
  Forall (fun op => 0 <= op_id op < maxEntities) ops ->
  c_run ops (new_CompactStorage maxEntities capacity elastic) = Ok s ->
  (∀ (i j : nat) id,
     TA.elems (c_index s) !! i = Some id ->
     TA.elems (c_index s) !! j = Some id -> id ≠ -1 -> i = j)
  ∧ TA.length (c_index s) = c_capacity s
  ∧ Forall (fun x => x = -1 ∨ 0 <= x < maxEntities) (TA.elems (c_index s)).
Proof.
  intros Hm Hc Hids Hrun.
  destruct (compact_wf_new maxEntities capacity elastic Hm Hc) as [Hwf0 _].
  destruct (c_run_wf _ _ _ Hwf0 Hids Hrun)
    as ((Hty & Hlen & Hcap & Hmax & Hall & Hnd) & Hm').
  repeat apply conj; try done.
  - intros i j id Hi Hj Hne.
    by apply (NoDup_filter_lookup (fun x : Z => x ≠ -1) _ _ _ _ Hnd Hi Hj).
  - eapply Forall_impl; [exact Hall|]. simpl. intros x Hx.
    rewrite Hm' in Hx. simpl in Hx. lia.
Qed.

Lemma compact_entities_once_witness :
  ∃ s, c_run [Acquire 0; Acquire 1; Acquire 2; Release 1; Acquire 3; Acquire 1]
         (new_CompactStorage 4 2 true) = Ok s
       ∧ TA.length (c_index s) = c_capacity s
       ∧ ∀ (i j : nat) id,
           TA.elems (c_index s) !! i = Some id ->
           TA.elems (c_index s) !! j = Some id -> id ≠ -1 -> i = j.
Proof.
  destruct (c_run [Acquire 0; Acquire 1; Acquire 2; Release 1; Acquire 3;
                   Acquire 1] (new_CompactStorage 4 2 true)) as [s|e] eqn:Hrun;
    [|vm_compute in Hrun; discriminate].
  exists s. split; [done|].
  assert (0 <= 4 < 2 ^ 31) as H1 by (split; [lia|by vm_compute]).
  assert (Forall (fun op => 0 <= op_id op < 4)
            [Acquire 0; Acquire 1; Acquire 2; Release 1; Acquire 3; Acquire 1])
    as H3.
  { repeat apply Forall_cons_2; try apply Forall_nil_2; simpl; lia. }
  destruct (compact_entities_once 4 2 true _ s H1 ltac:(lia) H3 Hrun)
    as (Honce & Hlen & _).
  split; [exact Hlen|exact Honce].
Defined.

(** X13. The one way [CompactStorage.acquireIndex] fails.  For an entity
    id below [maxEntities], in a compact storage that satisfies its
    invariant, [acquireIndex] throws only the [CheckError] "Storage
    exhausted", and only when the binding is fixed, the entity is in no
    cell and no cell is empty; the [InternalError] of growing beyond
    [maxEntities] is never thrown. *)
Theorem compact_acquire_only_exhausts (s : CompactStorage) (id : Z) (e : Exn) :
  compact_wf s -> 0 <= id < c_maxEntities s ->
  c_acquireIndex s id = Throw e ->
  e = storage_exhausted ∧ c_elastic s = false ∧ c_full_for s id.
Proof.
  intros Hwf Hid Hrun.
  destruct (c_cells_cases s id) as [Hin|[[Hnot Hempty]|Hfull]].
  - by rewrite (c_acquire_found s id Hin) in Hrun.
  - by rewrite (c_acquire_empty s id Hwf Hid Hnot Hempty) in Hrun.
  - destruct (c_elastic s) eqn:Hel.
    + by rewrite (c_acquire_grow s id Hwf Hid Hfull Hel) in Hrun.
    + rewrite (c_acquire_exhausted s id Hfull Hel) in Hrun.
      injection Hrun as <-. done.
Qed.

Lemma compact_acquire_only_exhausts_witness :
  let s := mkCompact 4 2 false (TA.mk TA.Int32Array [3; 0]) in
  c_acquireIndex s 1 = Throw storage_exhausted ∧ c_full_for s 1.
Proof.
  intros s.
  assert (c_acquireIndex s 1 = Throw storage_exhausted) as Hrun by reflexivity.
  destruct (compact_acquire_only_exhausts s 1 _
              ltac:(apply (bool_decide_unpack _); by vm_compute)
              ltac:(simpl; lia) Hrun) as (_ & _ & Hfull).
  by split.
Defined.



(** * Further properties of registration *)

Lemma gather_from_length entries seq :
  List.length (gather_from entries seq) = List.length entries.
Proof.
  revert seq. induction entries as [|e rest IH]; intros seq; [done|].
  simpl. by rewrite IH.
Qed.

Lemma gather_from_lookup entries seq (i : nat) f :
  gather_from entries seq !! i = Some f ->
  f_seq f = seq + Z.of_nat i
  ∧ ∃ e, entries !! i = Some e ∧ f_name f = e_name e ∧ f_shared f = e_shared e.
Proof.
  revert seq i. induction entries as [|e rest IH]; intros seq i Hi; [done|].
  destruct i as [|i]; simpl in Hi.
  - injection Hi as <-. simpl. split; [lia|]. by exists e.
  - destruct (IH _ _ Hi) as [Hs He]. split; [lia|done].
Qed.

(** X15. The fields of a schema are numbered in order.  [gatherFields]
    succeeds exactly when the schema has at most [MAX_NUM_FIELDS] entries;
    it then returns one field for each entry, in the order of the schema,
    with the name and type of the entry and with its position, from 0, as
    sequence number. *)
Theorem gatherFields_numbering (type : ComponentType) :
  (is_Ok (gatherFields type) = true
   <-> Z.of_nat (List.length (default [] (schema type))) <= MAX_NUM_FIELDS)
  ∧ ∀ fields, gatherFields type = Ok fields ->
      List.length fields = List.length (default [] (schema type))
      ∧ ∀ (i : nat) f, fields !! i = Some f ->
          f_seq f = Z.of_nat i
          ∧ ∃ e, default [] (schema type) !! i = Some e
                 ∧ f_name f = e_name e ∧ f_shared f = e_shared e.
Proof.
  unfold gatherFields. destruct (schema type) as [entries|]; simpl.
  - destruct (MAX_NUM_FIELDS <? Z.of_nat (List.length entries)) eqn:Hmax.
    + apply Z.ltb_lt in Hmax. split; [|done]. simpl. split; [done|lia].
    + apply Z.ltb_ge in Hmax. split; [done|].
      intros fields [= <-]. split; [apply gather_from_length|].
      intros i f Hi. destruct (gather_from_lookup _ _ _ _ Hi) as [Hs He].
      split; [lia|done].
  - split; [by vm_compute|]. intros fields [= <-]. by split.
Qed.

Lemma gatherFields_numbering_witness :
  gatherFields
    (mkType (Some [mkEntry "x" true; mkEntry "y" false]) None false)
  = Ok [mkField "x" 0 true; mkField "y" 1 false]
  ∧ ∀ (i : nat) f,
      [mkField "x" 0 true; mkField "y" 1 false] !! i = Some f ->
      f_seq f = Z.of_nat i.
Proof.
  split; [reflexivity|]. intros i f Hi.
  destruct (proj2 (gatherFields_numbering
                     (mkType (Some [mkEntry "x" true; mkEntry "y" false])
                        None false)) _ eq_refl) as [_ Hseq].
  by destruct (Hseq i f Hi).
Defined.

(** What a registration that succeeds went through. *)
Lemma assimilate_inv type dispatcher process h b h' :
  assimilateComponentType type dispatcher process h = Ok (b, h') ->
  ∃ fields,
    gatherFields type = Ok fields
    ∧ match opt_capacity type with
      | Some c => selected_storage fields type dispatcher ≠ sparse ∧ 0 < c
                  ∧ opt_initialCapacity type = None
      | None => True
      end
    ∧ opt_restricted type && forallb f_shared fields = false
    ∧ not_test_mode process && has_bind type = false
    ∧ storage b = selected_storage fields type dispatcher
    ∧ (let c := if bool_decide (selected_storage fields type dispatcher = sparse)
                then maxEntities dispatcher
                else Z.min (maxEntities dispatcher)
                       (default 0 (opt_capacity type)) in
       capacity b = (if c =? 0 then default 8 (opt_initialCapacity type) else c)
       ∧ elastic b = (c =? 0)).
Proof.
  unfold assimilateComponentType.
  destruct (gatherFields type) as [fields|] eqn:Hf; [|done]. simpl.
  intros Hrun. exists fields. split; [done|].
  destruct (opt_capacity type) as [c|] eqn:Hc; simpl in Hrun.
  - case_bool_decide as Hs; [done|].
    destruct (c <=? 0) eqn:Hc0; [done|]. apply Z.leb_gt in Hc0.
    case_bool_decide as Hi; [done|]. simpl in Hrun.
    destruct (opt_restricted type && forallb f_shared fields); [done|].
    simpl in Hrun.
    destruct (not_test_mode process && has_bind type); [done|]. simpl in Hrun.
    injection Hrun as <- <-.
    repeat apply conj; try done; try lia;
      try (by rewrite bool_decide_eq_false_2).
    destruct (opt_initialCapacity type); [|done]. by destruct Hi.
  - destruct (opt_restricted type && forallb f_shared fields); [done|].
    simpl in Hrun.
    destruct (not_test_mode process && has_bind type); [done|]. simpl in Hrun.
    injection Hrun as <- <-. repeat apply conj; done.
Qed.

(** X16. What registration decides.  When [assimilateComponentType]
    succeeds in a world with room for at least one entity,
    - a binding with sparse storage has the capacity [maxEntities] and is
      fixed;
    - with another storage and a capacity option, the binding is fixed and
      its capacity is the option capped at [maxEntities], which is positive;
    - with another storage and no capacity option, the binding is elastic
      and starts at the initial capacity, 8 by default.  *)
Theorem assimilate_binding_shape (type : ComponentType)
    (dispatcher : DispatcherConfig) (process : option Process) (h h' : Heap)
    (b : Binding) :
  0 < maxEntities dispatcher ->
  assimilateComponentType type dispatcher process h = Ok (b, h') ->
  (storage b = sparse ->
     capacity b = maxEntities dispatcher ∧ elastic b = false
     ∧ opt_capacity type = None)
  ∧ (storage b ≠ sparse ->
     ∀ c, opt_capacity type = Some c ->
       capacity b = Z.min (maxEntities dispatcher) c ∧ elastic b = false
       ∧ 0 < capacity b <= maxEntities dispatcher)
  ∧ (storage b ≠ sparse -> opt_capacity type = None ->
     capacity b = default 8 (opt_initialCapacity type) ∧ elastic b = true).
Proof.
  intros Hmax Hrun.
  destruct (assimilate_inv _ _ _ _ _ _ Hrun)
    as (fields & Hf & Hcap & _ & _ & Hs & Hc & He).
  rewrite <- Hs in *. repeat apply conj.
  - intros Hsp. rewrite bool_decide_eq_true_2 in Hc, He by done.
    destruct (maxEntities dispatcher =? 0) eqn:H0;
      [apply Z.eqb_eq in H0; lia|].
    repeat apply conj; try done.
    destruct (opt_capacity type); [by destruct Hcap|done].
  - intros Hsp c Hoc. rewrite Hoc in *. destruct Hcap as (_ & Hpos & _).
    rewrite bool_decide_eq_false_2 in Hc, He by done. simpl in Hc, He.
    destruct (Z.min (maxEntities dispatcher) c =? 0) eqn:H0;
      [apply Z.eqb_eq in H0; lia|].
    rewrite Hc. repeat apply conj; try done; lia.
  - intros Hsp Hoc. rewrite Hoc in *.
    rewrite bool_decide_eq_false_2 in Hc, He by done. simpl in Hc, He.
    rewrite Z.min_r in Hc, He by lia. done.
Qed.

Lemma assimilate_binding_shape_witness :
  let type := mkType (Some [mkEntry "value" true])
                (Some (mkOptions (Some packed) (Some 500) None false)) false in
  ∃ b h', assimilateComponentType type (mkConfig compact 100) None [] = Ok (b, h')
          ∧ capacity b = 100 ∧ elastic b = false.
Proof.
  intros type.
  destruct (assimilateComponentType type (mkConfig compact 100) None [])
    as [[b h']|e] eqn:Hrun; [|vm_compute in Hrun; discriminate].
  exists b, h'. split; [done|].
  destruct (assimilate_binding_shape type (mkConfig compact 100) None [] h' b
              ltac:(simpl; lia) Hrun) as (_ & Hfixed & _).
  assert (storage b = packed) as Hs.
  { vm_compute in Hrun. by injection Hrun as <- <-. }
  destruct (Hfixed ltac:(by rewrite Hs) 500 eq_refl) as (Hc & He & _).
  split; [|done]. rewrite Hc. simpl. lia.
Defined.

(** X17. What a type without fields may not ask for.  For a component
    type whose schema declares no field, [assimilateComponentType] throws a
    [CheckError] when the type sets a capacity, and when it is restricted
    to the main thread. *)
Theorem tag_options_rejected (type : ComponentType)
    (dispatcher : DispatcherConfig) (process : option Process) (h : Heap) :
  schema type = None ∨ schema type = Some [] ->
  is_Some (opt_capacity type) ∨ opt_restricted type = true ->
  ∃ msg, assimilateComponentType type dispatcher process h
         = Throw (CheckError msg).
Proof.
  intros Htag Hopt. pose proof (gatherFields_tag type Htag) as Hf.
  unfold assimilateComponentType. rewrite Hf. simpl.
  destruct (opt_capacity type) as [c|] eqn:Hc; simpl.
  - eexists. reflexivity.
  - destruct Hopt as [[? ?]|Hr]; [done|]. rewrite Hr. simpl.
    eexists. reflexivity.
Qed.

Lemma tag_options_rejected_witness :
  ∃ msg,
    assimilateComponentType
      (mkType None (Some (mkOptions None None None true)) false)
      (mkConfig packed 100) None [] = Throw (CheckError msg).
Proof.
  apply tag_options_rejected; [by left|by right].
Defined.

(** X18. Registration establishes the storage invariants.  When
    [assimilateComponentType] succeeds in a world with [maxEntities]
    between 1 and 2^31 - 1 and, for an elastic binding, an initial capacity
    in the same range, the storage manager that
    [defineAndAllocateComponentType] creates satisfies the invariant of its
    storage, holds no entity, and the binding keeps its capacity. *)
Theorem registration_establishes_invariant (type : ComponentType)
    (dispatcher : DispatcherConfig) (process : option Process) (h h' : Heap)
    (b : Binding) :
  0 < maxEntities dispatcher < 2 ^ 31 ->
  (opt_capacity type = None ->
   0 < default 8 (opt_initialCapacity type) < 2 ^ 31) ->
  assimilateComponentType type dispatcher process h = Ok (b, h') ->
  let rt := defineAndAllocateComponentType b (maxEntities dispatcher) in
  manager_wf (rt_manager rt)
  ∧ capacity (rt_binding rt) = capacity b
  ∧ match rt_manager rt with
    | NoManager => storage b = sparse
    | PackedManager s =>
        storage b = packed ∧ allocated s = 0 ∧ free_list s = []
        ∧ p_capacity s = capacity b ∧ p_elastic s = elastic b
    | CompactManager s =>
        storage b = compact
        ∧ TA.elems (c_index s) = replicate (Z.to_nat (capacity b)) (-1)
        ∧ c_capacity s = capacity b ∧ c_elastic s = elastic b
    end.
Proof.
  intros Hmax Hinit Hrun.
  assert (storage b ≠ sparse -> 0 < capacity b < 2 ^ 31) as Hcap.
  { intros Hsp.
    destruct (assimilate_inv _ _ _ _ _ _ Hrun)
      as (fields & _ & Hopt & _ & _ & Hs & Hc & _).
    rewrite <- Hs in *. rewrite bool_decide_eq_false_2 in Hc by done.
    destruct (opt_capacity type) as [c|] eqn:Hoc; simpl in Hc.
    - destruct Hopt as (_ & Hpos & _).
      destruct (Z.min (maxEntities dispatcher) c =? 0) eqn:H0;
        [apply Z.eqb_eq in H0; lia|]. lia.
    - rewrite Z.min_r in Hc by lia. simpl in Hc. rewrite Hc. by apply Hinit. }
  unfold defineAndAllocateComponentType. destruct (storage b) eqn:Hs; cbv zeta.
  - done.
  - destruct (packed_wf_new (maxEntities dispatcher) (capacity b) (elastic b)
                ltac:(lia) (Hcap ltac:(done)))
      as (Hwf & Hc & He & _ & Hnext & Hfree).
    set (s := new_PackedStorage _ _ _) in *.
    cbn [rt_manager rt_binding manager_wf]. unfold with_capacity.
    cbn [capacity]. split; [exact Hwf|]. split; [done|].
    split; [done|]. split; [|by repeat apply conj].
    destruct Hwf as (_&_&_&_&_&_&_&_&_&_& Hns & Hcnt &_).
    apply free_list_nil in Hfree; [|done]. lia.
  - destruct (compact_wf_new (maxEntities dispatcher) (capacity b) (elastic b)
                ltac:(lia) (proj1 (Hcap ltac:(done)))) as [Hwf Hcells].
    set (s := new_CompactStorage _ _ _) in *.
    cbn [rt_manager rt_binding manager_wf]. unfold with_capacity.
    cbn [capacity].
    assert (c_capacity s = capacity b) as Hc.
    { destruct Hwf as (_ & Hlen & _). rewrite <- Hlen. unfold TA.length.
      rewrite Hcells, length_replicate. destruct (Hcap ltac:(done)). lia. }
    split; [exact Hwf|]. by repeat apply conj.
Qed.

Lemma registration_establishes_invariant_witness :
  let type := mkType (Some [mkEntry "value" true]) None false in
  ∃ b h' s,
    assimilateComponentType type (mkConfig packed 100) None [] = Ok (b, h')
    ∧ rt_manager (defineAndAllocateComponentType b 100) = PackedManager s
    ∧ packed_wf s.
Proof.
  intros type.
  destruct (assimilateComponentType type (mkConfig packed 100) None [])
    as [[b h']|e] eqn:Hrun; [|vm_compute in Hrun; discriminate].
  assert (0 < 100 < 2 ^ 31) as H1 by (split; [lia|by vm_compute]).
  assert (0 < 8 < 2 ^ 31) as H2 by (split; [lia|by vm_compute]).
  pose proof (registration_establishes_invariant type (mkConfig packed 100)
                None [] h' b H1 (fun _ => H2) Hrun) as Hinv.
  cbn [maxEntities] in Hinv. cbv zeta in Hinv.
  destruct (rt_manager (defineAndAllocateComponentType b 100))
    as [|s|s] eqn:Hm.
  - destruct Hinv as (_ & _ & Hs). vm_compute in Hrun.
    injection Hrun as <- <-. discriminate Hs.
  - exists b, h', s. destruct Hinv as (Hwf & _). done.
  - destruct Hinv as (_ & _ & Hs & _). vm_compute in Hrun.
    injection Hrun as <- <-. discriminate Hs.
Defined.

(** * Singletons *)

Lemma declareSingleton_inv type type' :
  declareSingleton type = Ok type' ->
  type' = mkType (schema type)
            (Some (mkOptions (Some compact) (Some 1) (opt_initialCapacity type)
                     (opt_restricted type)))
            (has_bind type)
  ∧ (opt_initialCapacity type = None ∨ opt_initialCapacity type = Some 0)
  ∧ (opt_storage type = None ∨ opt_storage type = Some compact)
  ∧ (opt_capacity type = None ∨ opt_capacity type = Some 0
     ∨ opt_capacity type = Some 1).
Proof.
  unfold declareSingleton, opt_storage, opt_capacity, opt_initialCapacity,
    opt_restricted.
  destruct type as [sch o hb]. cbn [schema options has_bind].
  destruct o as [[st cap init restr]|]; cbn [default from_option id
    mbind option_bind o_storage o_capacity o_initialCapacity
    o_restrictedToMainThread];
    [|intros [= <-]; repeat split; by left].
  intros Hrun.
  assert (st = None ∨ st = Some compact) as Hst.
  { destruct st as [st|]; [|by left]. right. simpl in Hrun.
    case_bool_decide as Hc; [done|]. f_equal.
    by destruct (decide (st = compact)). }
  assert ((match st with
           | Some st0 =>
               if bool_decide (st0 ≠ compact)
               then Throw (CheckError "storage is incompatible with singletons")
               else Ok tt
           | None => Ok tt
           end) = Ok tt) as Hr1.
  { destruct Hst as [->| ->]; reflexivity. }
  rewrite Hr1 in Hrun. cbn [mbind Res_bind] in Hrun.
  assert (cap = None ∨ cap = Some 0 ∨ cap = Some 1) as Hcap.
  { destruct cap as [c|]; [|by left]. right.
    destruct (decide (c = 0)) as [->|H0]; [by left|].
    destruct (decide (c = 1)) as [->|H1]; [by right|].
    rewrite !bool_decide_eq_true_2 in Hrun by done. done. }
  assert (match cap with
          | Some c =>
              if bool_decide (c ≠ 0) && bool_decide (c ≠ 1)
              then Throw (CheckError "capacity is incompatible with singletons")
              else Ok tt
          | None => Ok tt
          end = Ok tt) as Hr2.
  { destruct Hcap as [->|[->| ->]]; reflexivity. }
  rewrite Hr2 in Hrun. cbn [mbind Res_bind] in Hrun.
  assert (init = None ∨ init = Some 0) as Hinit.
  { destruct init as [c|]; [|by left]. right.
    destruct (decide (c = 0)) as [->|H0]; [done|].
    rewrite bool_decide_eq_true_2 in Hrun by done. done. }
  assert (match init with
          | Some c =>
              if bool_decide (c ≠ 0)
              then Throw
                     (CheckError "initial capacity is incompatible with singletons")
              else Ok tt
          | None => Ok tt
          end = Ok tt) as Hr3.
  { destruct Hinit as [->| ->]; reflexivity. }
  rewrite Hr3 in Hrun. cbn [mbind Res_bind] in Hrun.
  injection Hrun as <-. done.
Qed.

(** X19. [declareSingleton] makes a compact type of capacity 1.  When it
    succeeds the type has compact storage and capacity 1, its schema, its
    other options and its use in a world are as before, and declaring it a
    singleton again succeeds and changes nothing. *)
Theorem declareSingleton_result (type type' : ComponentType) :
  declareSingleton type = Ok type' ->
  opt_storage type' = Some compact ∧ opt_capacity type' = Some 1
  ∧ opt_initialCapacity type' = opt_initialCapacity type
  ∧ opt_restricted type' = opt_restricted type
  ∧ schema type' = schema type ∧ has_bind type' = has_bind type
  ∧ declareSingleton type' = Ok type'.
Proof.
  intros Hrun. destruct (declareSingleton_inv _ _ Hrun) as (-> & Hinit & _).
  repeat apply conj; try done.
  unfold declareSingleton. cbn [options default from_option id o_storage
    o_capacity o_initialCapacity o_restrictedToMainThread schema has_bind].
  destruct Hinit as [-> | ->]; done.
Qed.

Lemma declareSingleton_result_witness :
  ∃ type',
    declareSingleton (mkType (Some [mkEntry "value" true]) None false) = Ok type'
    ∧ opt_storage type' = Some compact ∧ opt_capacity type' = Some 1.
Proof.
  destruct (declareSingleton (mkType (Some [mkEntry "value" true]) None false))
    as [type'|e] eqn:Hrun; [|discriminate Hrun].
  exists type'. split; [done|].
  destruct (declareSingleton_result _ type' Hrun) as (Hs & Hc & _).
  by split.
Defined.

(** A registration whose checks pass makes this binding. *)
Lemma assimilate_ok type dispatcher process h fields :
  gatherFields type = Ok fields ->
  match opt_capacity type with
  | Some c => selected_storage fields type dispatcher ≠ sparse ∧ 0 < c
              ∧ opt_initialCapacity type = None
  | None => True
  end ->
  opt_restricted type && forallb f_shared fields = false ->
  not_test_mode process && has_bind type = false ->
  let c := if bool_decide (selected_storage fields type dispatcher = sparse)
           then maxEntities dispatcher
           else Z.min (maxEntities dispatcher) (default 0 (opt_capacity type)) in
  assimilateComponentType type dispatcher process h
  = Ok (new_Binding h (if c =? 0 then default 8 (opt_initialCapacity type) else c)
          (selected_storage fields type dispatcher) (c =? 0)).
Proof.
  intros Hf Hcap Hr Hb. unfold assimilateComponentType. rewrite Hf.
  cbn [mbind Res_bind]. rewrite Hr, Hb.
  destruct (opt_capacity type) as [c|]; [|done].
  destruct Hcap as (Hs & Hpos & Hinit).
  rewrite bool_decide_eq_false_2 by done.
  destruct (c <=? 0) eqn:Hc0; [apply Z.leb_le in Hc0; lia|].
  rewrite Hinit. by rewrite bool_decide_eq_false_2 by by intros [? ?].
Qed.

(** X20. A singleton has one slot.  A type with at least one field that
    [declareSingleton] accepted and that sets no initial capacity is
    registered with compact storage, fixed, of capacity 1; its storage
    gives slot 0 to the first entity that asks and throws the [CheckError]
    "Storage exhausted" for any other entity after that. *)
Theorem singleton_one_slot (type type' : ComponentType)
    (dispatcher : DispatcherConfig) (process : option Process) (h : Heap)
    (fields : list Field) :
  declareSingleton type = Ok type' ->
  gatherFields type = Ok fields -> fields ≠ [] ->
  opt_initialCapacity type = None ->
  opt_restricted type && forallb f_shared fields = false ->
  not_test_mode process && has_bind type = false ->
  0 < maxEntities dispatcher < 2 ^ 31 ->
  ∃ b h' s,
    assimilateComponentType type' dispatcher process h = Ok (b, h')
    ∧ storage b = compact ∧ capacity b = 1 ∧ elastic b = false
    ∧ rt_manager (defineAndAllocateComponentType b (maxEntities dispatcher))
      = CompactManager s
    ∧ ∀ id, 0 <= id < maxEntities dispatcher ->
        ∃ s1, c_acquireIndex s id = Ok (0, s1)
              ∧ ∀ id', 0 <= id' -> id' ≠ id ->
                  c_acquireIndex s1 id' = Throw storage_exhausted.
Proof.
  intros Hsingle Hf Hne Hinit Hr Hb Hmax.
  destruct (declareSingleton_inv _ _ Hsingle) as (-> & _).
  set (type' := mkType _ _ _).
  assert (gatherFields type' = Ok fields) as Hf' by exact Hf.
  assert (selected_storage fields type' dispatcher = compact) as Hsel.
  { unfold selected_storage. rewrite bool_decide_eq_false_2; [done|].
    by destruct fields. }
  pose proof (assimilate_ok type' dispatcher process h fields Hf') as Hok.
  rewrite Hsel in Hok. cbn [opt_capacity type' options mbind option_bind
    o_capacity] in Hok.
  specialize (Hok ltac:(repeat split; try done; rewrite Hinit; done) Hr Hb).
  cbv zeta in Hok. rewrite bool_decide_eq_false_2 in Hok by done.
  cbn [default from_option id] in Hok.
  rewrite Z.min_r in Hok by lia. cbn [Z.eqb] in Hok.
  eexists _, _, _. split; [exact Hok|].
  split; [done|]. split; [done|]. split; [done|].
  unfold defineAndAllocateComponentType, new_Binding.
  cbn [fst snd storage capacity elastic heap_alloc rt_manager].
  split; [done|]. intros id Hid.
  destruct (compact_wf_new (maxEntities dispatcher) 1 false ltac:(lia) ltac:(lia))
    as [Hwf Hcells].
  set (s := new_CompactStorage (maxEntities dispatcher) 1 false) in *.
  change (replicate (Z.to_nat 1) (-1)) with [-1] in Hcells.
  assert (c_maxEntities s = maxEntities dispatcher) as Hm by done.
  assert (c_findIndex s (-1) = 0) as Hfind.
  { unfold c_findIndex. by rewrite Hcells. }
  pose proof (c_acquire_empty s id Hwf ltac:(lia)) as Hacq.
  rewrite Hcells, Hfind in Hacq.
  specialize (Hacq ltac:(intros [?|?%elem_of_nil]%elem_of_cons; [lia|done])
                ltac:(apply elem_of_cons; by left)).
  eexists. split; [exact Hacq|].
  intros id' Hid' Hne'. apply c_acquire_exhausted; [|done].
  unfold c_full_for. cbn [c_index TA.elems].
  apply Forall_cons. split; [split; lia|]. apply Forall_nil_2.
Qed.

Lemma singleton_one_slot_witness :
  let type := mkType (Some [mkEntry "value" true]) None false in
  ∃ type' b h' s,
    declareSingleton type = Ok type'
    ∧ assimilateComponentType type' (mkConfig packed 100) None [] = Ok (b, h')
    ∧ rt_manager (defineAndAllocateComponentType b 100) = CompactManager s
    ∧ ∃ s1, c_acquireIndex s 42 = Ok (0, s1)
            ∧ c_acquireIndex s1 7 = Throw storage_exhausted.
Proof.
  intros type.
  destruct (declareSingleton type) as [type'|e] eqn:Hsingle;
    [|discriminate Hsingle].
  assert (0 < 100 < 2 ^ 31) as Hmax by (split; [lia|by vm_compute]).
  destruct (singleton_one_slot type type' (mkConfig packed 100) None []
              [mkField "value" 0 true] Hsingle eq_refl ltac:(done) eq_refl
              eq_refl eq_refl Hmax)
    as (b & h' & s & Hreg & _ & _ & _ & Hm & Hslot).
  destruct (Hslot 42 ltac:(simpl; lia)) as (s1 & H1 & H2).
  exists type', b, h', s. split; [done|]. split; [exact Hreg|].
  split; [exact Hm|]. exists s1. split; [exact H1|].
  apply H2; lia.
Defined.

(** X21. A singleton needs a field.  A type without fields that
    [declareSingleton] accepted is rejected by [assimilateComponentType],
    which selects sparse storage for it and finds the capacity 1 that
    [declareSingleton] set. *)
Theorem singleton_needs_a_field (type type' : ComponentType)
    (dispatcher : DispatcherConfig) (process : option Process) (h : Heap) :
  declareSingleton type = Ok type' ->
  schema type = None ∨ schema type = Some [] ->
  assimilateComponentType type' dispatcher process h
  = Throw (CheckError "cannot combine custom capacity with sparse storage").
Proof.
  intros Hsingle Htag.
  destruct (declareSingleton_inv _ _ Hsingle) as (-> & _).
  set (type' := mkType _ _ _).
  assert (gatherFields type' = Ok []) as Hf.
  { apply gatherFields_tag. exact Htag. }
  unfold assimilateComponentType. rewrite Hf. reflexivity.
Qed.

Lemma singleton_needs_a_field_witness :
  ∃ type',
    declareSingleton (mkType None None false) = Ok type'
    ∧ assimilateComponentType type' (mkConfig compact 100) None []
      = Throw (CheckError "cannot combine custom capacity with sparse storage").
Proof.
  destruct (declareSingleton (mkType None None false)) as [type'|e] eqn:Hsingle;
    [|discriminate Hsingle].
  exists type'. split; [done|].
  apply (singleton_needs_a_field (mkType None None false)); [done|by left].
Defined.

(** * A component type in a world *)



(** * Allocating, binding and freeing through a registered type *)

Lemma reset_writable_inv b h id idx :
  idx ≠ Some (-1) ->
  ∃ v b' h', resetWritableInstance b h id idx = Ok (v, b', h')
             ∧ writableIndex b' = idx ∧ writableEntityId b' = id
             ∧ readonlyIndex b' = readonlyIndex b
             ∧ capacity b' = capacity b ∧ elastic b' = elastic b
             ∧ storage b' = storage b.
Proof.
  intros Hidx. unfold resetWritableInstance.
  rewrite bool_decide_eq_false_2 by done.
  unfold with_writable. cbn [elastic capacity writableInstance writableMaster].
  destruct (elastic b || (1 <? capacity b)); cbn [heap_alloc];
    eexists _, _, _; (split; [reflexivity|done]).
Qed.

Lemma reset_readonly_inv b h id idx :
  idx ≠ Some (-1) ->
  ∃ v b' h', resetReadonlyInstance b h id idx = Ok (v, b', h')
             ∧ readonlyIndex b' = idx ∧ readonlyEntityId b' = id
             ∧ writableIndex b' = writableIndex b
             ∧ capacity b' = capacity b ∧ elastic b' = elastic b
             ∧ storage b' = storage b.
Proof.
  intros Hidx. unfold resetReadonlyInstance.
  rewrite bool_decide_eq_false_2 by done.
  unfold with_readonly. cbn [elastic capacity readonlyInstance readonlyMaster].
  destruct (elastic b || (1 <? capacity b)); cbn [heap_alloc];
    eexists _, _, _; (split; [reflexivity|done]).
Qed.

Lemma reset_writable_index b h id idx v b' h' :
  resetWritableInstance b h id idx = Ok (v, b', h') ->
  idx ≠ Some (-1) ∧ writableIndex b' = idx ∧ writableEntityId b' = id.
Proof.
  intros Hrun. destruct (decide (idx = Some (-1))) as [->|Hne]; [done|].
  destruct (reset_writable_inv b h id idx Hne) as (v0 & b0 & h0 & Hr & H).
  rewrite Hrun in Hr. injection Hr as <- <- <-. by destruct H as (? & ? & _).
Qed.

(** The index cell of an entity after [acquireIndex] returned. *)
Lemma acquire_result s id r s' :
  packed_wf s -> 0 <= id < p_maxEntities s ->
  p_acquireIndex s id = Ok (r, s') ->
  TA.get (p_index s') id = r ∧ ∃ slot, r = Some slot ∧ 0 <= slot.
Proof.
  intros Hwf Hid Hrun. pose proof Hwf as Hwf'.
  destruct Hwf' as (Hmax & Hil & Hsl & Hti & Hts & Hby & Hc2 & Hcap & Hnx & Hnm
                    & Hns & Hcnt & Hiv & Hfl & Hsr).
  destruct (get_is_Some (p_index s) id ltac:(lia)) as [old Hold].
  destruct (decide (old = -1)) as [->|Hne].
  - destruct (free_list s) as [|slot l _] eqn:Hfree using rev_ind.
    + assert (∃ s2, p_acquireIndex s id = Ok (Some (nextIndex s), s2)
                    ∧ TA.get (p_index s2) id = Some (nextIndex s))
        as (s2 & Hr & Hg2).
      { destruct (decide (nextIndex s = p_capacity s)) as [He|He].
        - destruct (p_elastic s) eqn:Hel.
          + destruct (acquire_grow s id Hwf Hold Hfree He Hel)
              as (s2 & Hr & _ & _ & _ & _ & _ & _ & Hg2). by exists s2.
          + unfold p_acquireIndex in Hrun.
            rewrite bool_decide_eq_true_2 in Hrun by done.
            apply free_list_nil in Hfree; [|done].
            fold (numSpares s) (nextIndex s) in Hrun.
            rewrite Hfree, Hc2, He, Z.eqb_refl, Hel in Hrun. done.
        - destruct (acquire_fresh s id Hwf Hold Hfree ltac:(lia))
            as (s2 & Hr & _ & _ & _ & _ & Hg2). by exists s2. }
      rewrite Hrun in Hr. injection Hr as -> <-. split; [done|].
      exists (nextIndex s). split; [done|lia].
    + destruct (acquire_pop s id l slot Hwf Hold Hfree)
        as (s2 & Hr & _ & _ & _ & _ & Hg2).
      rewrite Hrun in Hr. injection Hr as -> <-. split; [done|].
      apply Forall_app in Hfl as [_ Hslot]. rewrite Forall_singleton in Hslot.
      exists slot. split; [done|lia].
  - unfold p_acquireIndex in Hrun.
    rewrite bool_decide_eq_false_2 in Hrun by congruence.
    injection Hrun as <- <-. split; [done|]. exists old. split; [done|].
    pose proof (Forall_get _ _ _ _ Hiv Hold) as Hr. simpl in Hr. lia.
Qed.



(** X24. A freed entity cannot be bound.  After [type.__free(id)]
    succeeded on a registered type with packed or compact storage, for an
    entity id that the storage has a cell for, [type.__bind(id, writable)]
    throws the [InternalError] "Attempt to bind unacquired entity". *)
Theorem free_then_bind (rt rt1 : TypeRuntime) (free : Z -> Res TypeRuntime)
    (h : Heap) (id : Z) (writable : bool) :
  manager_wf (rt_manager rt) -> manager_ids (rt_manager rt) id ->
  type_free rt = Some free -> free id = Ok rt1 ->
  type_bind rt1 h id writable = Throw unacquired.
Proof.
  intros Hwf Hids Hfree Hrun. unfold type_free in Hfree.
  assert (bound_index rt1 id = Some (-1)) as Hb.
  { destruct (rt_manager rt) as [|s|s] eqn:Hm; [done| |].
    - injection Hfree as <-.
      destruct (p_releaseIndex s id) as [s1|] eqn:Hrel; [|done].
      cbn [mbind Res_bind] in Hrun. injection Hrun as <-.
      unfold bound_index. cbn [rt_manager].
      destruct (get_is_Some (p_index s) id) as [slot Hslot].
      { destruct Hwf as (_ & Hil & _). simpl in Hids. lia. }
      assert (slot ≠ -1) as Hne.
      { intros ->. unfold p_releaseIndex in Hrel.
        by rewrite bool_decide_eq_true_2 in Hrel by done. }
      destruct (release_push s id slot Hwf Hslot Hne)
        as (s2 & Hr & _ & _ & _ & _ & _ & _ & Hg2).
      congruence.
    - injection Hfree as <-.
      destruct (c_releaseIndex s id) as [s1|] eqn:Hrel; [|done].
      cbn [mbind Res_bind] in Hrun. injection Hrun as <-.
      unfold bound_index. cbn [rt_manager]. f_equal.
      apply findIndex_from_none.
      apply (c_release_gone s s1 id Hwf); [simpl in Hids; lia|done]. }
  unfold type_bind. rewrite Hb. by destruct writable.
Qed.

Lemma free_then_bind_witness :
  let rt := mkRuntime (new_Binding [] 2 compact false).1
              (CompactManager (mkCompact 8 2 false (TA.mk TA.Int32Array [5; 2]))) in
  ∃ free rt1, type_free rt = Some free ∧ free 2 = Ok rt1
              ∧ type_bind rt1 [] 2 true = Throw unacquired.
Proof.
  intros rt.
  destruct (type_free rt) as [free|] eqn:Hfree; [|discriminate Hfree].
  destruct (free 2) as [rt1|e] eqn:Hrun;
    [|vm_compute in Hfree; injection Hfree as <-; vm_compute in Hrun;
      discriminate].
  exists free, rt1. split; [done|]. split; [done|].
  apply (free_then_bind rt rt1 free [] 2 true);
    [apply (bool_decide_unpack _); by vm_compute|simpl; lia|done|done].
Defined.

(** * Lanes *)

Lemma Lane_merge_absorb fuel lh (this other : nat) l o :
  lane_objs lh !! this = Some l -> lane_objs lh !! other = Some o ->
  this ≠ other -> hands_over l o = false ->
  ∃ lh', Lane_merge (S fuel) lh this other = Some (this, lh')
    ∧ lane_objs lh' !! this
      = Some (mkLane (lane_id l) (lane_systems l ++ lane_systems o))
    ∧ lane_objs lh' !! other = Some (mkLane (lane_id o) [])
    ∧ (∀ r : nat, r ≠ this -> r ≠ other ->
         lane_objs lh' !! r = lane_objs lh !! r)
    ∧ List.length (lane_objs lh') = List.length (lane_objs lh)
    ∧ (∀ system, system ∈ lane_systems o -> system_lane lh' system = Some this)
    ∧ (∀ system, system ∉ lane_systems o ->
         system_lane lh' system = system_lane lh system).
Proof.
  intros Hl Ho Hne Hcond. cbn [Lane_merge].
  rewrite bool_decide_eq_false_2 by done. rewrite Hl, Ho.
  rewrite Hcond.
  eexists. split; [reflexivity|]. cbn [lane_objs system_lane Lane_add].
  repeat apply conj.
  - rewrite list_lookup_alter_ne by done. rewrite list_lookup_alter_eq.
    by rewrite Hl.
  - rewrite list_lookup_alter_eq. rewrite list_lookup_alter_ne by done.
    by rewrite Ho.
  - intros r Hr1 Hr2. by rewrite !list_lookup_alter_ne by done.
  - by rewrite !length_alter.
  - intros system Hin. by rewrite bool_decide_eq_true_2.
  - intros system Hin. by rewrite bool_decide_eq_false_2.
Qed.

Lemma Lane_merge_swap fuel lh (this other : nat) l o :
  lane_objs lh !! this = Some l -> lane_objs lh !! other = Some o ->
  this ≠ other -> hands_over l o = true ->
  Lane_merge (S fuel) lh this other = Lane_merge fuel lh other this.
Proof.
  intros Hl Ho Hne Hc. cbn [Lane_merge].
  rewrite bool_decide_eq_false_2 by done. by rewrite Hl, Ho, Hc.
Qed.

Lemma Lane_merge_fuel fuel fuel' lh (this other : nat) l o :
  lane_objs lh !! this = Some l -> lane_objs lh !! other = Some o ->
  hands_over l o = false ->
  Lane_merge (S fuel) lh this other = Lane_merge (S fuel') lh this other.
Proof.
  intros Hl Ho Hc. cbn [Lane_merge]. by rewrite Hl, Ho, Hc.
Qed.

Lemma hands_over_once l o :
  hands_over l o = true -> ¬ (lane_id l = -1 ∧ lane_id o = -1) ->
  hands_over o l = false.
Proof.
  unfold hands_over. intros Hc Hboth.
  destruct (decide (lane_id l = -1)) as [Hl|Hl];
    destruct (decide (lane_id o = -1)) as [Ho|Ho].
  - by destruct Hboth.
  - rewrite (bool_decide_eq_false_2 _ Ho), (bool_decide_eq_true_2 _ Hl). done.
  - rewrite (bool_decide_eq_false_2 _ Hl), (bool_decide_eq_true_2 _ Ho) in Hc.
    done.
  - rewrite (bool_decide_eq_false_2 _ Hl), (bool_decide_eq_false_2 _ Ho) in *.
    simpl in *. apply Z.ltb_lt in Hc. apply Z.ltb_ge. lia.
Qed.

(** X25. What [Lane.merge] does.  For two different lanes that do not
    both have the id -1, [merge] returns after at most one call with the
    lanes swapped.  The lane that is returned is the other lane when this
    lane has the id -1 or the other lane has a smaller id that is not -1,
    and this lane otherwise; it keeps its systems and gets those of the lane
    it absorbs appended, the absorbed lane is left without systems, every
    system moved has the returned lane as its lane, and nothing else
    changes. *)
Theorem Lane_merge_result (fuel : nat) (lh : LaneHeap) (this other : nat)
    (l o : Lane) :
  lane_objs lh !! this = Some l -> lane_objs lh !! other = Some o ->
  this ≠ other -> ¬ (lane_id l = -1 ∧ lane_id o = -1) ->
  let '(winner, loser, lw, ll) :=
    if hands_over l o then (other, this, o, l) else (this, other, l, o) in
  ∃ lh', Lane_merge (S (S fuel)) lh this other = Some (winner, lh')
    ∧ lane_objs lh' !! winner
      = Some (mkLane (lane_id lw) (lane_systems lw ++ lane_systems ll))
    ∧ lane_objs lh' !! loser = Some (mkLane (lane_id ll) [])
    ∧ (∀ r : nat, r ≠ this -> r ≠ other ->
         lane_objs lh' !! r = lane_objs lh !! r)
    ∧ (∀ system, system ∈ lane_systems ll ->
         system_lane lh' system = Some winner)
    ∧ (∀ system, system ∉ lane_systems ll ->
         system_lane lh' system = system_lane lh system)
    ∧ (lane_id ll = -1 ∨ (lane_id lw ≠ -1 ∧ lane_id lw <= lane_id ll)).
Proof.
  intros Hl Ho Hne Hboth. destruct (hands_over l o) eqn:Hc.
  - pose proof (hands_over_once l o Hc Hboth) as Hc'.
    destruct (Lane_merge_absorb fuel lh other this o l Ho Hl
                ltac:(done) Hc')
      as (lh' & Hrun & Hw & Hx & Hrest & _ & Hmoved & Hothers).
    exists lh'. split.
    { by rewrite (Lane_merge_swap _ lh this other l o). }
    repeat apply conj; try done.
    + intros r Hr1 Hr2. by apply Hrest.
    + unfold hands_over in Hc.
      destruct (decide (lane_id l = -1)) as [?|Hl1]; [by left|]. right.
      rewrite (bool_decide_eq_false_2 _ Hl1) in Hc. simpl in Hc.
      apply andb_true_iff in Hc as [Ho1 Hlt]. apply Z.ltb_lt in Hlt.
      apply negb_true_iff, bool_decide_eq_false in Ho1. lia.
  - destruct (Lane_merge_absorb (S fuel) lh this other l o Hl Ho Hne Hc)
      as (lh' & Hrun & Hw & Hx & Hrest & _ & Hmoved & Hothers).
    exists lh'. repeat apply conj; try done.
    unfold hands_over in Hc. apply orb_false_iff in Hc as [Hl1 Hc].
    apply bool_decide_eq_false in Hl1.
    destruct (decide (lane_id o = -1)) as [?|Ho1]; [by left|]. right.
    rewrite (bool_decide_eq_false_2 _ Ho1) in Hc. simpl in Hc.
    apply Z.ltb_ge in Hc. lia.
Qed.

Lemma Lane_merge_result_witness :
  let lh := mkLaneHeap [mkLane 3 [10; 11]%nat; mkLane 1 [12]%nat]
              (fun _ => None) in
  ∃ lh', Lane_merge 2 lh 0%nat 1%nat = Some (1%nat, lh')
         ∧ lane_objs lh' !! 1%nat = Some (mkLane 1 [12; 10; 11]%nat)
         ∧ lane_objs lh' !! 0%nat = Some (mkLane 3 [])
         ∧ system_lane lh' 10%nat = Some 1%nat.
Proof.
  intros lh.
  pose proof (Lane_merge_result 0 lh 0%nat 1%nat (mkLane 3 [10; 11]%nat)
                (mkLane 1 [12]%nat) eq_refl eq_refl ltac:(lia)
                ltac:(simpl; lia)) as Hm.
  change (hands_over (mkLane 3 [10; 11]%nat) (mkLane 1 [12]%nat)) with true in Hm.
  cbv iota beta in Hm.
  destruct Hm as (lh' & Hrun & Hw & Hx & _ & Hmoved & _).
  exists lh'. split; [exact Hrun|]. split; [exact Hw|]. split; [exact Hx|].
  apply Hmoved. simpl. apply elem_of_cons. by left.
Defined.

(** X26. Two lanes with the id -1 cannot be merged.  For two different
    lanes that both have the id -1, each call of [merge] calls [merge] with
    the lanes swapped: the call does not return within any depth of calls,
    which in JavaScript ends when the call stack overflows. *)
Theorem Lane_merge_detached (fuel : nat) (lh : LaneHeap) (this other : nat)
    (l o : Lane) :
  lane_objs lh !! this = Some l -> lane_objs lh !! other = Some o ->
  this ≠ other -> lane_id l = -1 -> lane_id o = -1 ->
  Lane_merge fuel lh this other = None.
Proof.
  revert this other l o. induction fuel as [|fuel IH];
    intros this other l o Hl Ho Hne Hl1 Ho1; [done|].
  cbn [Lane_merge]. rewrite bool_decide_eq_false_2 by done. rewrite Hl, Ho.
  unfold hands_over. rewrite (bool_decide_eq_true_2 _ Hl1). cbn [orb].
  by apply (IH other this o l).
Qed.

Lemma Lane_merge_detached_witness :
  Lane_merge 1000 (mkLaneHeap [mkLane (-1) [1%nat]; mkLane (-1) [2%nat]]
                     (fun _ => None)) 0%nat 1%nat = None.
Proof.
  by apply (Lane_merge_detached 1000 _ 0%nat 1%nat
              (mkLane (-1) [1%nat]) (mkLane (-1) [2%nat])).
Defined.

(** X27. The order of the two lanes does not matter.  For two different
    lanes with different ids, [a.merge(b)] and [b.merge(a)] return the same
    lane and leave the same lanes behind. *)
Theorem Lane_merge_symmetric (fuel : nat) (lh : LaneHeap) (a b : nat)
    (la lb : Lane) :
  lane_objs lh !! a = Some la -> lane_objs lh !! b = Some lb ->
  lane_id la ≠ lane_id lb ->
  Lane_merge (S (S fuel)) lh a b = Lane_merge (S (S fuel)) lh b a
  ∧ is_Some (Lane_merge (S (S fuel)) lh a b).
Proof.
  intros Ha Hb Hid.
  assert (a ≠ b) as Hne by (intros ->; congruence).
  assert (hands_over la lb = negb (hands_over lb la)) as Hc.
  { unfold hands_over.
    destruct (decide (lane_id la = -1)) as [H1|H1];
      destruct (decide (lane_id lb = -1)) as [H2|H2]; [congruence|..].
    - by rewrite (bool_decide_eq_true_2 _ H1), (bool_decide_eq_false_2 _ H2).
    - by rewrite (bool_decide_eq_false_2 _ H1), (bool_decide_eq_true_2 _ H2).
    - rewrite (bool_decide_eq_false_2 _ H1), (bool_decide_eq_false_2 _ H2).
      simpl. destruct (lane_id lb <? lane_id la) eqn:E1;
        destruct (lane_id la <? lane_id lb) eqn:E2; try done.
      + apply Z.ltb_lt in E1, E2. lia.
      + apply Z.ltb_ge in E1, E2. lia. }
  destruct (hands_over lb la) eqn:Hba; simpl in Hc.
  - destruct (Lane_merge_absorb fuel lh a b la lb Ha Hb Hne Hc)
      as (lh' & Hrun & _).
    split.
    + rewrite (Lane_merge_swap _ lh b a lb la) by done.
      by apply (Lane_merge_fuel _ _ lh a b la lb).
    + destruct (Lane_merge_absorb (S fuel) lh a b la lb Ha Hb Hne Hc)
        as (lh2 & Hrun2 & _). by rewrite Hrun2.
  - destruct (Lane_merge_absorb fuel lh b a lb la Hb Ha ltac:(done) Hba)
      as (lh' & Hrun & _).
    split.
    + rewrite (Lane_merge_swap _ lh a b la lb) by done.
      by apply (Lane_merge_fuel _ _ lh b a lb la).
    + rewrite (Lane_merge_swap _ lh a b la lb) by done. by rewrite Hrun.
Qed.

Lemma Lane_merge_symmetric_witness :
  let lh := mkLaneHeap [mkLane 3 [10; 11]%nat; mkLane 1 [12]%nat]
              (fun _ => None) in
  Lane_merge 2 lh 0%nat 1%nat = Lane_merge 2 lh 1%nat 0%nat.
Proof.
  intros lh.
  apply (Lane_merge_symmetric 0 lh 0%nat 1%nat (mkLane 3 [10; 11]%nat)
           (mkLane 1 [12]%nat)); [done|done|simpl; lia].
Defined.

(** * The lanes of a planner *)

Lemma createLanes_spec (n : nat) (p : PlannerLanes) :
  pl_lanes (createLanes n p).2 = pl_lanes p ++ (createLanes n p).1
  ∧ pl_laneCount (createLanes n p).2 = pl_laneCount p + Z.of_nat n
  ∧ (createLanes n p).1 = seq (List.length (lane_objs (pl_heap p))) n
  ∧ lane_objs (pl_heap (createLanes n p).2)
    = lane_objs (pl_heap p)
      ++ map (fun i => mkLane (pl_laneCount p + Z.of_nat i) []) (seq 0 n).
Proof.
  revert p. induction n as [|n IH]; intros p.
  - simpl. rewrite !app_nil_r. repeat split; lia.
  - cbn [createLanes]. unfold createLane, new_Lane.
    set (p1 := mkPlannerLanes _ _ _).
    specialize (IH p1). destruct (createLanes n p1) as [lanes p2].
    cbn [fst snd] in *. destruct IH as (Hl & Hc & Hs & Ho).
    unfold p1 in *. cbn [pl_lanes pl_laneCount pl_heap lane_objs] in *.
    rewrite length_app in Hs. simpl in Hs.
    repeat apply conj.
    + rewrite Hl. by rewrite <- app_assoc.
    + lia.
    + rewrite Hs. simpl. f_equal. f_equal. lia.
    + rewrite Ho, <- app_assoc. f_equal. simpl. f_equal.
      * f_equal. lia.
      * rewrite <- seq_shift, map_map. apply map_ext. intros i.
        f_equal. lia.
Qed.

(** X28. Lanes are numbered as they are created.  After [createLane] has
    been called [n] times on a new planner, [planner.lanes] holds the lanes
    created, in order and each once, the lane created by call [i], from 0,
    has the id [i] and no systems, [laneCount] is [n], the lane objects that
    existed before are as they were, and [mainLane] is the lane created
    first, [undefined] when no lane was created. *)
Theorem createLane_numbering (n : nat) (lh : LaneHeap) :
  let lanes := (createLanes n (new_PlannerLanes lh)).1 in
  let p := (createLanes n (new_PlannerLanes lh)).2 in
  pl_lanes p = lanes ∧ pl_laneCount p = Z.of_nat n
  ∧ List.length lanes = n ∧ NoDup lanes
  ∧ (∀ (i : nat) lane, lanes !! i = Some lane ->
       lane_objs (pl_heap p) !! lane = Some (mkLane (Z.of_nat i) []))
  ∧ (∀ (r : nat) l, lane_objs lh !! r = Some l ->
       lane_objs (pl_heap p) !! r = Some l)
  ∧ mainLane p = lanes !! 0%nat
  ∧ (mainLane p = None <-> n = 0%nat).
Proof.
  intros lanes p.
  destruct (createLanes_spec n (new_PlannerLanes lh)) as (Hl & Hc & Hs & Ho).
  fold lanes p in Hl, Hc, Hs, Ho.
  cbn [new_PlannerLanes pl_lanes pl_laneCount pl_heap app] in *.
  assert (List.length lanes = n) as Hlen by (by rewrite Hs, length_seq).
  split; [done|]. split; [lia|]. split; [done|].
  split; [rewrite Hs; apply NoDup_seq|]. split; [|split; [|split]].
  - intros i lane Hi. rewrite Hs in Hi. apply lookup_seq in Hi as [-> Hi].
    rewrite Ho, lookup_app_r by lia.
    replace (List.length (lane_objs lh) + i - List.length (lane_objs lh))%nat
      with i by lia.
    change (map ?f ?l) with (f <$> l). rewrite list_lookup_fmap.
    rewrite lookup_seq_lt by done. simpl. do 2 f_equal; lia.
  - intros r l Hr. rewrite Ho. by apply lookup_app_l_Some.
  - unfold mainLane. by rewrite Hl.
  - unfold mainLane. rewrite Hl. split.
    + intros Hnone. apply lookup_ge_None in Hnone. lia.
    + intros Hn. apply lookup_ge_None. lia.
Qed.

Lemma createLane_numbering_witness :
  let p := (createLanes 3 (new_PlannerLanes (mkLaneHeap [] (fun _ => None)))).2 in
  pl_lanes p = [0; 1; 2]%nat ∧ pl_laneCount p = 3
  ∧ mainLane p = Some 0%nat
  ∧ lane_objs (pl_heap p) !! 2%nat = Some (mkLane 2 []).
Proof.
  intros p.
  destruct (createLane_numbering 3 (mkLaneHeap [] (fun _ => None)))
    as (Hl & Hc & _ & _ & Hid & _ & Hmain & _).
  fold p in Hl, Hc, Hid, Hmain.
  split; [exact Hl|]. split; [exact Hc|]. split; [exact Hmain|].
  by apply (Hid 2%nat 2%nat).
Defined.

(** * The edges of the entitlements *)

Lemma add_readers_of_edges writers c systems g g' :
  add_readers_of writers c systems g = Ok g' ->
  edges g'
  = edges g
    ++ flat_map
         (fun reader =>
            map (fun writer => (writer, reader, 1))
              (default [] (table_get writers c)))
         systems.
Proof.
  revert g. induction systems as [|r rest IH]; intros g.
  - simpl. intros [= <-]. by rewrite app_nil_r.
  - simpl. destruct (table_get writers c) as [ws|] eqn:Hget; [|done].
    intros Hrun. rewrite (IH _ Hrun).
    destruct (add_writers_of_spec ws r g) as [_ ->].
    simpl. by rewrite <- app_assoc.
Qed.

Lemma add_entries_edges writers entries g g' :
  add_entries writers entries g = Ok g' ->
  edges g' = edges g ++ entitlement_edges entries writers.
Proof.
  revert g. induction entries as [|[c systems] rest IH]; intros g.
  - simpl. intros [= <-]. by rewrite app_nil_r.
  - simpl. destruct (add_readers_of writers c systems g) as [g1|] eqn:H1; [|done].
    simpl. intros Hrun. rewrite (IH _ Hrun), (add_readers_of_edges _ _ _ _ _ H1).
    by rewrite <- app_assoc.
Qed.

Lemma add_readers_of_ok writers c systems g :
  (systems ≠ [] -> is_Some (table_get writers c)) ->
  is_Ok (add_readers_of writers c systems g) = true.
Proof.
  intros Hw. revert g. induction systems as [|r rest IH]; intros g; [done|].
  simpl. destruct (Hw ltac:(done)) as [ws Hws]. rewrite Hws.
  apply IH. intros _. by exists ws.
Qed.

Lemma add_entries_ok writers entries g :
  (∀ c systems, (c, systems) ∈ entries -> systems ≠ [] ->
     is_Some (table_get writers c)) ->
  is_Ok (add_entries writers entries g) = true.
Proof.
  revert g. induction entries as [|[c systems] rest IH]; intros g Hw; [done|].
  simpl.
  pose proof (add_readers_of_ok writers c systems g
                (Hw c systems ltac:(apply elem_of_cons; by left))) as H1.
  destruct (add_readers_of writers c systems g) as [g1|]; [|done]. simpl.
  apply IH. intros c' systems' Hin. apply Hw. apply elem_of_cons. by right.
Qed.

(** X29. The edges that the entitlements add.  When every component type
    that has a reader has an entry in the writers table,
    [addComponentEntitlementDependencies] succeeds; it calls
    [graph.addEdge(writer, reader, 1)] once for each component type, each
    of its readers and each of its writers, in the order of the tables, so
    that the graph keeps its vertices and the edges it had and gets these
    edges after them; the two tables are as before. *)
Theorem entitlement_edges_added (p : Planner) :
  (∀ c systems, (c, systems) ∈ readers p -> systems ≠ [] ->
     is_Some (table_get (writers p) c)) ->
  ∃ p', addComponentEntitlementDependencies p = Ok p'
        ∧ vertices (graph p') = vertices (graph p)
        ∧ edges (graph p')
          = edges (graph p) ++ entitlement_edges (readers p) (writers p)
        ∧ readers p' = readers p ∧ writers p' = writers p.
Proof.
  intros Hw. unfold addComponentEntitlementDependencies.
  pose proof (add_entries_ok (writers p) (readers p) (graph p) Hw) as Hok.
  destruct (add_entries (writers p) (readers p) (graph p)) as [g|] eqn:Hrun;
    [|done].
  eexists. split; [reflexivity|]. cbn [graph readers writers].
  destruct (add_entries_spec _ _ _ _ Hrun) as (Hv & _).
  repeat apply conj; try done. by apply add_entries_edges.
Qed.

Lemma entitlement_edges_added_witness :
  let p := mkPlanner (addEdge (new_Graph [0; 1; 2]%nat) 2%nat 0%nat 5)
             [(0%nat, [1; 2]%nat); (1%nat, [])]
             [(0%nat, [0%nat])] in
  ∃ p', addComponentEntitlementDependencies p = Ok p'
        ∧ edges (graph p')
          = [(2%nat, 0%nat, 5); (0%nat, 1%nat, 1); (0%nat, 2%nat, 1)].
Proof.
  intros p.
  destruct (entitlement_edges_added p) as (p' & Hrun & _ & He & _).
  - intros c systems Hin Hne.
    apply elem_of_cons in Hin as [[= -> ->]|Hin]; [by eexists|].
    apply elem_of_cons in Hin as [[= -> ->]|Hin]; [done|].
    by apply elem_of_nil in Hin.
  - exists p'. split; [exact Hrun|]. rewrite He. reflexivity.
Defined.

(** * A frame that throws *)

Section ExecuteThrows.
Context {World : Type}.
Variable system_execute : nat -> Z -> Z -> World -> Res World.
Variable dispatcher_flush : World -> Res World.

Lemma execute_loop_app l1 l2 time delta w :
  execute_loop system_execute dispatcher_flush (l1 ++ l2) time delta w
  = (w1 ← execute_loop system_execute dispatcher_flush l1 time delta w;
     execute_loop system_execute dispatcher_flush l2 time delta w1).
Proof.
  revert w. induction l1 as [|s l1 IH]; intros w; [done|].
  cbn [app execute_loop].
  destruct (system_execute s time delta w) as [w1|]; [|done].
  cbn [mbind Res_bind].
  destruct (dispatcher_flush w1) as [w2|]; [|done].
  cbn [mbind Res_bind]. apply IH.
Qed.
End ExecuteThrows.

(** X30. A throw ends the frame.  [SimplePlan.execute] catches nothing:
    when the systems up to some system have run and been flushed, and that
    system throws, or the flush after it throws, [execute] throws the same
    exception whatever the systems after it are; and executing the systems
    of a plan is executing a first part of them and then the rest. *)
Theorem execute_stops_at_first_throw {World : Type}
    (system_execute : nat -> Z -> Z -> World -> Res World)
    (dispatcher_flush : World -> Res World)
    (before after : list nat) (system : nat) (time delta : Z)
    (w w1 : World) (e : Exn) :
  SimplePlan_execute system_execute dispatcher_flush (mkPlan before)
    time delta w = Ok w1 ->
  system_execute system time delta w1 = Throw e
  ∨ (∃ w2, system_execute system time delta w1 = Ok w2
           ∧ dispatcher_flush w2 = Throw e) ->
  SimplePlan_execute system_execute dispatcher_flush
    (mkPlan (before ++ system :: after)) time delta w = Throw e.
Proof.
  unfold SimplePlan_execute. cbn [plan_systems]. intros Hbefore Hthrow.
  rewrite execute_loop_app, Hbefore. cbn [mbind Res_bind execute_loop].
  destruct Hthrow as [->|(w2 & -> & Hflush)]; [done|].
  cbn [mbind Res_bind]. by rewrite Hflush.
Qed.

Lemma execute_stops_at_first_throw_witness :
  let system_execute := fun (s : nat) (_ _ : Z) (w : Z) =>
    if bool_decide (s = 2%nat) then Throw (UserError "boom")
    else Ok (w * 10 + Z.of_nat s) in
  let dispatcher_flush := fun w : Z => Ok (w + 1) in
  SimplePlan_execute system_execute dispatcher_flush
    (mkPlan [1; 3; 2; 4; 5]%nat) 0 0 0 = Throw (UserError "boom").
Proof.
  intros system_execute dispatcher_flush.
  apply (execute_stops_at_first_throw system_execute dispatcher_flush
           [1; 3]%nat [4; 5]%nat 2%nat 0 0 0 24 (UserError "boom")).
  - reflexivity.
  - left. reflexivity.
Defined.
